(** * agvault: the vault synchronisation protocol of [src/vault.ts]

    A shallow embedding of [src/config.ts], [src/gh.ts] and [src/vault.ts],
    and the properties of it that the specification claims.

    - JavaScript strings are modelled as [string] (sequences of 8-bit code
      units); [toLowerCase] is the ASCII case mapping.
    - Paths are lists of components.  The file system is seen through two
      disjoint areas: the project root [cwd] and the directory returned by
      [os.tmpdir()], in which [mkdtempSync] creates the ephemeral clone.
    - A directory is a finite map from names to nodes; [readdirSync] lists it
      in the order of [map_to_list].  The map does not constrain its keys:
      that the names of a tree are names a directory can hold is the
      hypothesis [wf_tree], and that they hold no backslash, which
      [getWorkspaceRelativePath] would turn into a slash, the hypothesis
      [portable].
    - A symbolic link carries what [stat] sees through it (a regular file with
      its content, a directory, or nothing); [lstat] sees the link itself.
    - The external collaborators (the JSON parser, [git], [gh], the random
      suffix of [mkdtempSync]) are the fields of an environment record [Env];
      the [glob] package is modelled for patterns built from literal
      characters, [?], [*] and [**].
    - Asynchronous functions are run to completion: a [Promise<T>] is a
      computation in the state-and-exception monad [M].

    The definitions come first: the embedding of the sources, then the
    notions of the statements, among them the phases of [storeToVault] and
    [pullFromVault] read as functions on trees ([copy_in], [pull_tree]).  The
    properties follow: each phase is shown to run as its reading on trees
    ([copyToVault_run], [removeExcludedFromVault_run], [walk_copy_run]),
    the updates of a tree are characterised by the files they leave
    ([leaf_at]), and the claims C1 to C10 are settled on top of these. *)

From stdpp Require Import gmap strings list fin_maps sorting.
From Stdlib Require Import Ascii.
From Stdlib Require String.

(** ** JavaScript string primitives *)

Module Str.

Definition is_upper (c : ascii) : bool :=
  let n := nat_of_ascii c in (65 <=? n)%nat && (n <=? 90)%nat.

Definition lower_ascii (c : ascii) : ascii :=
  if is_upper c then ascii_of_nat (nat_of_ascii c + 32) else c.

(** [s.toLowerCase()] *)
Fixpoint toLowerCase (s : string) : string :=
  match s with
  | EmptyString => EmptyString
  | String c s' => String (lower_ascii c) (toLowerCase s')
  end.

(** [s.startsWith(p)] *)
Fixpoint startsWith (p s : string) : bool :=
  match p, s with
  | EmptyString, _ => true
  | String a p', String b s' => if Ascii.eqb a b then startsWith p' s' else false
  | String _ _, EmptyString => false
  end.

(** [s.includes(sub)] *)
Fixpoint includes (sub s : string) : bool :=
  startsWith sub s ||
  match s with
  | EmptyString => false
  | String _ s' => includes sub s'
  end.

(** [s.endsWith(suf)] *)
Fixpoint endsWith (suf s : string) : bool :=
  String.eqb suf s ||
  match s with
  | EmptyString => false
  | String _ s' => endsWith suf s'
  end.

(** [s.split(sep)] for a one-character separator: never the empty list. *)
Fixpoint split (sep : ascii) (s : string) : list string :=
  match s with
  | EmptyString => [EmptyString]
  | String c s' =>
      if Ascii.eqb c sep then EmptyString :: split sep s'
      else match split sep s' with
           | [] => [String c EmptyString]
           | w :: ws => String c w :: ws
           end
  end.

(** [l.join(sep)] *)
Definition join (sep : string) (l : list string) : string := String.concat sep l.

(** [s.replace(/\\/g, "/")] *)
Fixpoint replace_backslashes (s : string) : string :=
  match s with
  | EmptyString => EmptyString
  | String c s' =>
      String (if Ascii.eqb c "\" then "/"%char else c) (replace_backslashes s')
  end.

(** [c] occurs in [s] *)
Fixpoint has_char (c : ascii) (s : string) : bool :=
  match s with
  | EmptyString => false
  | String d s' => Ascii.eqb c d || has_char c s'
  end.

(** White space of [\s] and of [trim] among the 8-bit code units. *)
Definition is_space (c : ascii) : bool :=
  let n := nat_of_ascii c in
  (n =? 32)%nat || ((9 <=? n)%nat && (n <=? 13)%nat) || (n =? 160)%nat.

Fixpoint trimStart (s : string) : string :=
  match s with
  | String c s' => if is_space c then trimStart s' else s
  | EmptyString => EmptyString
  end.

Fixpoint trimEnd (s : string) : string :=
  match s with
  | EmptyString => EmptyString
  | String c s' =>
      match trimEnd s' with
      | EmptyString => if is_space c then EmptyString else String c EmptyString
      | t => String c t
      end
  end.

(** [s.trim()] *)
Definition trim (s : string) : string := trimEnd (trimStart s).

End Str.

(** ** The file system *)

(** What [stat] sees through a symbolic link. *)
Inductive referent :=
| ToFile (content : string)
| ToDir
| Dangling.

#[warnings="-register-all"]
Inductive node :=
| File (content : string)
| Link (target : referent)
| Dir (entries : gmap string node).

Global Instance referent_eq_dec : EqDecision referent.
Proof. solve_decision. Defined.

Global Instance node_eq_dec : EqDecision node.
Proof.
  refine (fix go (x y : node) {struct x} : Decision (x = y) :=
    let _ : EqDecision node := @go in
    match x, y with
    | File c1, File c2 => cast_if (decide (c1 = c2))
    | Link r1, Link r2 => cast_if (decide (r1 = r2))
    | Dir e1, Dir e2 => cast_if (decide (e1 = e2))
    | _, _ => right _
    end); abstract congruence.
Defined.

Definition fspath := list string.

(** [Dirent.isDirectory()] and [lstat().isDirectory()] *)
Definition isDirectory (n : node) : bool :=
  match n with Dir _ => true | _ => false end.

(** The entry at [p] below [n], links not followed ([lstat]). *)
Fixpoint lookup_path (p : fspath) (n : node) : option node :=
  match p with
  | [] => Some n
  | x :: p' =>
      match n with
      | Dir es => es !! x ≫= lookup_path p'
      | _ => None
      end
  end.

(** Puts [new] at [p]; the parent of [p] has to be a directory. *)
Fixpoint insert_at (p : fspath) (new : node) (n : node) : option node :=
  match n, p with
  | Dir es, [x] => Some (Dir (<[x := new]> es))
  | Dir es, x :: p' =>
      child ← es !! x; child' ← insert_at p' new child;
      Some (Dir (<[x := child']> es))
  | _, _ => None
  end.

(** Unlinks the entry at [p], if there is one. *)
Fixpoint delete_at (p : fspath) (n : node) : node :=
  match n, p with
  | Dir es, [x] => Dir (delete x es)
  | Dir es, x :: p' =>
      match es !! x with
      | Some child => Dir (<[x := delete_at p' child]> es)
      | None => n
      end
  | _, _ => n
  end.

(** [mkdir -p]: fails when a component is there and is not a directory. *)
Fixpoint mkdir_p (p : fspath) (n : node) : option node :=
  match n with
  | Dir es =>
      match p with
      | [] => Some n
      | x :: p' =>
          child' ← mkdir_p p' (default (Dir ∅) (es !! x));
          Some (Dir (<[x := child']> es))
      end
  | _ => None
  end.

(** ** POSIX [path] *)

(** [basename(p)]: the last non-empty component, or the empty string. *)
Definition basename (p : string) : string :=
  List.last (List.filter (λ s, negb (String.eqb s EmptyString)) (Str.split "/" p)) EmptyString.

(** Resolves [segs] on top of the reversed stack [rev_base]: empty and ["."]
    components vanish, [".."] pops; [None] when the path climbs above the
    root of the area. *)
Fixpoint resolve_onto (rev_base : list string) (segs : list string) : option fspath :=
  match segs with
  | [] => Some (rev rev_base)
  | s :: segs' =>
      if String.eqb s EmptyString || String.eqb s "." then resolve_onto rev_base segs'
      else if String.eqb s ".." then
        match rev_base with
        | [] => None
        | _ :: rev_base' => resolve_onto rev_base' segs'
        end
      else resolve_onto (s :: rev_base) segs'
  end.

(** [join(base, rel)] for a resolved [base] and a path string [rel]. *)
Definition join (base : fspath) (rel : string) : option fspath :=
  resolve_onto (rev base) (Str.split "/" rel).

(** [dirname(p)] of a resolved path. *)
Definition dirname (p : fspath) : fspath := removelast p.

(** ** Worlds, environments and the monad of effects *)

(** What [JSON.parse(raw) as Partial<AgVaultConfig>] evaluates to. *)
Inductive parsed :=
| SyntaxError (message : string)
| Nullish
| Fields (repoUrl : option string) (include exclude : option (list string))
         (branch : option string).

(** The collaborators outside the repository, fixed for one command. *)
Record Env := mkEnv {
  JSON_parse : string → parsed;
  mkdtemp_suffix : string;
  git_init_error : option string;
  git_push_error : option string;
  gh_spawn_throws : bool;
  gh_repo_create_ok : bool;
}.

(** [project] is the tree below the project root; [tmp] maps the name of a
    directory made by [mkdtempSync] below [os.tmpdir()] to its tree; [repos]
    gives the commit checked out by the git repository of such a directory;
    [remote] is the tip of the configured branch at origin ([None]: no such
    repository or branch). *)
Record World := mkWorld {
  project : node;
  tmp : gmap string node;
  repos : gmap string node;
  remote : option node;
}.

Inductive result (A : Type) :=
| Ok (value : A)
| Throw (message : string).
Arguments Ok {A} value.
Arguments Throw {A} message.

Definition M (A : Type) : Type := World → result A * World.

Definition ret {A} (a : A) : M A := λ w, (Ok a, w).

Definition bind {A B} (m : M A) (k : A → M B) : M B :=
  λ w, match m w with
       | (Ok a, w') => k a w'
       | (Throw e, w') => (Throw e, w')
       end.

Definition throw {A} (e : string) : M A := λ w, (Throw e, w).

Definition lift {A} (r : result A) : M A := λ w, (r, w).

Notation "'let*' x ':=' m 'in' k" := (bind m (λ x, k))
  (at level 10, x pattern, m at level 100, k at level 200).
Notation "m ';;' k" := (bind m (λ _, k))
  (at level 100, k at level 200, right associativity).

(** [try { m } catch (e) { h e }] *)
Definition try_catch {A} (m : M A) (h : string → M A) : M A :=
  λ w, match m w with
       | (Ok a, w') => (Ok a, w')
       | (Throw e, w') => h e w'
       end.

(** [try { m } finally { fin }] *)
Definition try_finally {A} (m : M A) (fin : M unit) : M A :=
  λ w, let '(r, w') := m w in
       match fin w' with
       | (Ok _, w'') => (r, w'')
       | (Throw e, w'') => (Throw e, w'')
       end.

(** [for (const x of l) body x] *)
Fixpoint for_each {A} (l : list A) (body : A → M unit) : M unit :=
  match l with
  | [] => ret tt
  | x :: l' => body x;; for_each l' body
  end.

(** A loop that updates local variables [s]. *)
Fixpoint foldM {A S} (l : list A) (body : A → S → M S) (s : S) : M S :=
  match l with
  | [] => ret s
  | x :: l' => let* s' := body x s in foldM l' body s'
  end.

(** [cb?.(msg)] *)
Definition call_opt (cb : option (string → M unit)) (msg : string) : M unit :=
  match cb with
  | Some f => f msg
  | None => ret tt
  end.

(** The project root, or the temporary directory of that name. *)
Inductive area :=
| Cwd
| TmpDir (name : string).

(** A resolved absolute path: an area and the components below its root. *)
Definition abspath : Type := area * fspath.

Definition root (a : area) (w : World) : option node :=
  match a with
  | Cwd => Some (project w)
  | TmpDir d => tmp w !! d
  end.

Definition set_root (a : area) (n : node) (w : World) : World :=
  match a with
  | Cwd => mkWorld n (tmp w) (repos w) (remote w)
  | TmpDir d => mkWorld (project w) (<[d := n]> (tmp w)) (repos w) (remote w)
  end.

Definition lstat (l : abspath) (w : World) : option node :=
  root l.1 w ≫= lookup_path l.2.

(** [join(root of a, ...base, rel)]; a path that climbs out of its area is not
    modelled and raises. *)
Definition located (a : area) (base : fspath) (rel : string) : M abspath :=
  match join base rel with
  | Some p => ret (a, p)
  | None => throw "EOUTSIDE"
  end.

(** ** Node's [fs] *)

(** What [existsSync] answers for an entry: a dangling link does not exist. *)
Definition exists_node (n : option node) : bool :=
  match n with
  | None | Some (Link Dangling) => false
  | Some _ => true
  end.

Definition existsSync (l : abspath) : M bool :=
  λ w, (Ok (exists_node (lstat l w)), w).

(** [statSync(l).isFile()] *)
Definition statSync_isFile (l : abspath) : M bool :=
  λ w, match lstat l w with
       | None | Some (Link Dangling) => (Throw "ENOENT", w)
       | Some (File _) | Some (Link (ToFile _)) => (Ok true, w)
       | Some (Dir _) | Some (Link ToDir) => (Ok false, w)
       end.

(** An update of the tree of one area. *)
Definition update_root (a : area) (f : node → option node) (err : string) : M unit :=
  λ w, match root a w ≫= f with
       | Some n' => (Ok tt, set_root a n' w)
       | None => (Throw err, w)
       end.

(** [mkdirSync(l, { recursive: true })] *)
Definition mkdirSync_recursive (l : abspath) : M unit :=
  update_root l.1 (mkdir_p l.2) "ENOTDIR".

(** What [readFileSync] returns for an entry. *)
Definition read_node (n : option node) : result string :=
  match n with
  | Some (File c) | Some (Link (ToFile c)) => Ok c
  | Some (Dir _) | Some (Link ToDir) => Throw "EISDIR"
  | Some (Link Dangling) | None => Throw "ENOENT"
  end.

(** [readFileSync(l)] *)
Definition readFileSync (l : abspath) : M string :=
  λ w, (read_node (lstat l w), w).

(** [writeFileSync(l, data)]: a link is written through. *)
Definition writeFileSync (l : abspath) (data : string) : M unit :=
  λ w, match lstat l w with
       | Some (Dir _) | Some (Link ToDir) => (Throw "EISDIR", w)
       | old =>
           let new := match old with
                      | Some (Link _) => Link (ToFile data)
                      | _ => File data
                      end in
           update_root l.1 (insert_at l.2 new) "ENOENT" w
       end.

(** [cpSync(src, dest, { force: true })]: without [recursive] a directory is
    refused; without [dereference] a link is copied as a link; the parent of
    [dest] is created when missing; a directory at [dest] is never replaced
    by a file. *)
Definition cpSync_force (src dest : abspath) : M unit :=
  λ w, match lstat src w with
       | None => (Throw "ENOENT", w)
       | Some (Dir _) => (Throw "ERR_FS_EISDIR", w)
       | Some leaf =>
           match lstat dest w with
           | Some (Dir _) => (Throw "ERR_FS_CP_NON_DIR_TO_DIR", w)
           | _ =>
               update_root dest.1
                 (λ n, mkdir_p (dirname dest.2) n ≫= insert_at dest.2 leaf)
                 "ENOTDIR" w
           end
       end.

(** Removing [l]: the root of a temporary directory goes with the repository
    in it; the project root itself is never removed. *)
Definition unlink (l : abspath) (w : World) : World :=
  match l with
  | (Cwd, p) => mkWorld (delete_at p (project w)) (tmp w) (repos w) (remote w)
  | (TmpDir d, []) => mkWorld (project w) (delete d (tmp w)) (delete d (repos w)) (remote w)
  | (TmpDir d, p) =>
      mkWorld (project w) (alter (delete_at p) d (tmp w)) (repos w) (remote w)
  end.

(** [rmSync(l, { force: true })] *)
Definition rmSync_force (l : abspath) : M unit :=
  λ w, match lstat l w with
       | Some (Dir _) => (Throw "ERR_FS_EISDIR", w)
       | _ => (Ok tt, unlink l w)
       end.

(** [rmSync(l, { recursive: true })] *)
Definition rmSync_recursive (l : abspath) : M unit :=
  λ w, match lstat l w with
       | None => (Throw "ENOENT", w)
       | Some _ => (Ok tt, unlink l w)
       end.

(** [rmSync(l, { recursive: true, force: true })] *)
Definition rmSync_recursive_force (l : abspath) : M unit :=
  λ w, (Ok tt, unlink l w).

(** [readdirSync(l, { withFileTypes: true })], a link not being followed. *)
Definition readdirSync (l : abspath) : M (gmap string node) :=
  λ w, match lstat l w with
       | Some (Dir es) => (Ok es, w)
       | Some _ => (Throw "ENOTDIR", w)
       | None => (Throw "ENOENT", w)
       end.

(** ** [src/config.ts] *)

Definition CONFIG_DIR : string := ".agvault".
Definition CONFIG_FILE : string := "config.json".

Definition DEFAULT_INCLUDE : list string :=
  ["**/*.md"; "**/*.mdc"; ".cursor/**"; ".cursorrules"; "docs/**"; "*.md"].

Definition DEFAULT_EXCLUDE : list string :=
  ["node_modules/**"; ".git/**"; "dist/**"; "build/**"; ".agvault/**"].

Record AgVaultConfig := mkConfig {
  repoUrl : string;
  include : list string;
  exclude : list string;
  branch : string;
}.

(** [getConfigPath(cwd)]: [join(cwd, CONFIG_DIR, CONFIG_FILE)] *)
Definition getConfigPath : abspath := (Cwd, [CONFIG_DIR; CONFIG_FILE]).

Definition invalid_json (msg : string) : string :=
  "Invalid JSON in .agvault/config.json: " +:+ msg.

(** [loadConfig(cwd)]; [None] is JavaScript's [null]. *)
Definition loadConfig (E : Env) : M (option AgVaultConfig) :=
  let path := getConfigPath in
  let* there := existsSync path in
  if negb there then ret None
  else
    try_catch
      (let* raw := readFileSync path in
       match JSON_parse E raw with
       | SyntaxError msg => throw msg
       | Nullish => throw "Cannot read properties of null (reading 'repoUrl')"
       | Fields r i e b =>
           ret (Some {| repoUrl := default EmptyString r;
                        include := default DEFAULT_INCLUDE i;
                        exclude := default DEFAULT_EXCLUDE e;
                        branch := default "main" b |})
       end)
      (λ msg, throw (invalid_json msg)).

(** ** [src/gh.ts] *)

(** [\w] *)
Definition is_word (c : ascii) : bool :=
  let n := nat_of_ascii c in
  ((48 <=? n)%nat && (n <=? 57)%nat) || ((65 <=? n)%nat && (n <=? 90)%nat)
  || ((97 <=? n)%nat && (n <=? 122)%nat) || (n =? 95)%nat.

(** [[\w.-]] *)
Definition is_owner_char (c : ascii) : bool :=
  is_word c || Ascii.eqb c "." || Ascii.eqb c "-".

(** [[^\s/#]] *)
Definition is_repo_char (c : ascii) : bool :=
  negb (Str.is_space c || Ascii.eqb c "/" || Ascii.eqb c "#").

Fixpoint all_chars (f : ascii → bool) (s : string) : bool :=
  match s with
  | EmptyString => true
  | String c s' => f c && all_chars f s'
  end.

(** The longest prefix of [s] made of owner characters, and what follows. *)
Fixpoint span_owner (s : string) : string * string :=
  match s with
  | String c s' =>
      if is_owner_char c then let '(o, r) := span_owner s' in (String c o, r)
      else (EmptyString, s)
  | EmptyString => (EmptyString, EmptyString)
  end.

(** [s] without its last [n] code units. *)
Definition drop_end (n : nat) (s : string) : string :=
  String.substring 0 (String.length s - n) s.

(** The lazy repository group up to the end of the input: the shortest
    non-empty run of repository characters after which only an optional
    [.git] (in any case) and an optional slash remain. *)
Definition match_repo (rest : string) : option string :=
  let low := Str.toLowerCase rest in
  let candidate (tail : string) :=
    let r := drop_end (String.length tail) rest in
    if Str.endsWith tail low && negb (String.eqb r EmptyString) && all_chars is_repo_char r
    then Some r else None in
  match candidate ".git/" with
  | Some r => Some r
  | None =>
      match candidate ".git" with
      | Some r => Some r
      | None =>
          match candidate "/" with
          | Some r => Some r
          | None => candidate EmptyString
          end
      end
  end.

(** Removes a final [.git], as the [replace] on the second group does. *)
Definition strip_dot_git (r : string) : string :=
  if Str.endsWith ".git" r then drop_end 4 r else r.

(** The regular expression of [parseGitHubRepoUrl] tried at the start of [s]:
    [github.com] in any case, one separator among [seps], an owner (a word
    character, then greedily word characters, dots and dashes), a slash, and
    the repository as in [match_repo]. *)
Definition match_here (seps : string) (s : string) : option string :=
  if Str.startsWith "github.com" (Str.toLowerCase s) then
    match String.substring 10 (String.length s - 10) s with
    | String sep after =>
        if Str.has_char sep seps then
          match span_owner after with
          | (String o0 o', String "/" rest) =>
              if is_word o0 then
                r ← match_repo rest;
                Some (String o0 o' +:+ "/" +:+ strip_dot_git r)
              else None
          | _ => None
          end
        else None
    | EmptyString => None
    end
  else None.

(** [s.match(re)]: the leftmost position at which the expression matches. *)
Fixpoint match_first (seps : string) (s : string) : option string :=
  match match_here seps s with
  | Some r => Some r
  | None =>
      match s with
      | EmptyString => None
      | String _ s' => match_first seps s'
      end
  end.

(** [parseGitHubRepoUrl(repoUrl)] *)
Definition parseGitHubRepoUrl (repoUrl : string) : option string :=
  let trimmed := Str.trim repoUrl in
  match match_first "/:" trimmed with
  | Some r => Some r
  | None => match_first ":" trimmed
  end.

(** [isGhAvailable()]: [false] only when [spawnSync] itself throws. *)
Definition isGhAvailable (E : Env) : bool := negb (gh_spawn_throws E).

(** [createGitHubRepoAndPush(repoUrl, localPath)]: [gh repo create --push]
    publishes the commit checked out in [localPath]. *)
Definition createGitHubRepoAndPush (E : Env) (repoUrl : string) (localPath : string)
  : M bool :=
  match parseGitHubRepoUrl repoUrl with
  | None => ret false
  | Some repo =>
      if negb (isGhAvailable E) then ret false
      else if gh_repo_create_ok E then
        λ w, match repos w !! localPath with
             | Some head => (Ok true, mkWorld (project w) (tmp w) (repos w) (Some head))
             | None => (Ok false, w)
             end
      else ret false
  end.

(** Modelled from the spec: [ensureGhGitAuth] is imported from [gh.ts] but is
    not among the sources.  "If an external credential-helper integration is
    available for the remote host, it is engaged before cloning so that
    authenticated operations do not prompt interactively mid-flow": it touches
    neither the file system nor the repositories. *)
Definition ensureGhGitAuth : M unit := ret tt.

(** ** The [glob] package

    [glob(pattern, { cwd, nodir: true, ignore, dot: true })] for patterns made
    of literal characters, [?], [*] and whole components [**].  Braces,
    brackets, escapes and negation are read as literal characters.  With
    [dot: true] a wildcard also matches a leading dot.  With [nodir: true]
    directories are left out; a symbolic link is an entry like any other and
    is not descended into. *)

Module Glob.

(** One component against one name. *)
Fixpoint wild (pat name : string) : bool :=
  match pat with
  | EmptyString => match name with EmptyString => true | _ => false end
  | String c pat' =>
      if Ascii.eqb c "*" then
        (fix star (name : string) : bool :=
           wild pat' name ||
           match name with
           | EmptyString => false
           | String _ name' => star name'
           end) name
      else
        match name with
        | EmptyString => false
        | String d name' => (Ascii.eqb c "?" || Ascii.eqb c d) && wild pat' name'
        end
  end.

(** The components of a pattern against a relative path that names something
    other than a directory: [**] stands for any number of directories, and at
    the end of a pattern for everything below. *)
Fixpoint match_path (pats : list string) (p : fspath) : bool :=
  match pats with
  | [] => match p with [] => true | _ => false end
  | pat :: pats' =>
      if String.eqb pat "**" then
        (fix star (p : fspath) : bool :=
           match pats' with
           | [] => match p with [] => false | _ => true end
           | _ => match_path pats' p
           end ||
           match p with
           | [] => false
           | _ :: p' => star p'
           end) p
      else
        match p with
        | [] => false
        | x :: p' => wild pat x && match_path pats' p'
        end
  end.

Definition components (pattern : string) : list string :=
  List.filter (λ s, negb (String.eqb s EmptyString || String.eqb s "."))
              (Str.split "/" pattern).

Definition matches (pattern : string) (p : fspath) : bool :=
  match_path (components pattern) p.

(** The entries below a directory that are not directories, in the order of
    the walk. *)
Fixpoint entries (n : node) : list fspath :=
  match n with
  | Dir es =>
      map_fold (λ name e acc,
                  (if isDirectory e then cons name <$> entries e else [[name]]) ++ acc)
               [] es
  | _ => []
  end.

Definition glob (pattern : string) (ignore : list string) (cwd : node) : list fspath :=
  List.filter
    (λ p, matches pattern p && negb (existsb (λ ig, matches ig p) ignore))
    (entries cwd).

End Glob.

(** ** git, as [simple-git] drives it *)

(** Git records files and links, never an empty directory. *)
Fixpoint prune_empty (n : node) : option node :=
  match n with
  | Dir es =>
      let es' := omap prune_empty es in
      if decide (es' = ∅) then None else Some (Dir es')
  | _ => Some n
  end.

(** The tree that [git add .] followed by [git commit] records for a working
    tree. *)
Definition git_tree (work : node) : node :=
  match work with
  | Dir es => Dir (omap prune_empty es)
  | _ => work
  end.

Definition set_repo (dir : string) (head : node) (w : World) : World :=
  mkWorld (project w) (tmp w) (<[dir := head]> (repos w)) (remote w).

(** [git.clone(repoUrl, dir, ["--branch", branch])] into the existing, empty
    directory [dir], run against the remote of the world. *)
Definition git_clone (dir : string) : M unit :=
  λ w, match remote w, tmp w !! dir with
       | Some t, Some _ =>
           (Ok tt, mkWorld (project w) (<[dir := t]> (tmp w)) (<[dir := t]> (repos w))
                            (remote w))
       | Some _, None => (Throw "fatal: could not create work tree", w)
       | None, _ => (Throw "fatal: Remote branch not found in upstream origin", w)
       end.

(** [git.init()] *)
Definition git_init (E : Env) (dir : string) : M unit :=
  match git_init_error E with
  | Some msg => throw msg
  | None => λ w, (Ok tt, set_repo dir (Dir ∅) w)
  end.

(** [git.add(".")] then [git.commit(message)] *)
Definition git_add_commit (dir : string) : M unit :=
  λ w, match tmp w !! dir, repos w !! dir with
       | Some work, Some _ => (Ok tt, set_repo dir (git_tree work) w)
       | _, _ => (Throw "fatal: not a git repository", w)
       end.

(** [git.status()], reduced to whether any of [files], [not_added] and
    [deleted] is non-empty. *)
Definition git_status_hasChanges (dir : string) : M bool :=
  λ w, match tmp w !! dir, repos w !! dir with
       | Some work, Some head => (Ok (bool_decide (git_tree work ≠ head)), w)
       | _, _ => (Throw "fatal: not a git repository", w)
       end.

(** [git.push("origin", branch)] *)
Definition git_push (E : Env) (dir : string) : M unit :=
  match git_push_error E with
  | Some msg => throw msg
  | None =>
      λ w, match repos w !! dir with
           | Some head => (Ok tt, mkWorld (project w) (tmp w) (repos w) (Some head))
           | None => (Throw "fatal: not a git repository", w)
           end
  end.

(** ** [src/vault.ts] *)

(** [path] is the absolute path [join(cwd, f)], kept as the location below
    [cwd]. *)
Record VaultFile := mkVaultFile {
  path : fspath;
  relativePath : string;
}.

(** An optional phase observer: [opts?.onPhase] and [ctx.onPhase]. *)
Definition OnPhase : Type := option (string → M unit).

Definition isRepoNotFoundError (err : string) : bool :=
  let lower := Str.toLowerCase err in
  Str.includes "repository not found" lower
  || Str.includes "could not read from remote" lower
  || Str.includes "does not appear to be a git repository" lower
  || Str.includes "remote repository is empty" lower
  || Str.includes "failed to connect" lower.

(** [createTempVaultRepo(tempDir, repoUrl, branch)]; registering the remote
    and renaming the branch change nothing of the world. *)
Definition createTempVaultRepo (E : Env) (tempDir : string) (repoUrl branch : string)
  : M unit :=
  git_init E tempDir;;
  let vaultContentDir : abspath := (TmpDir tempDir, ["vault"]) in
  mkdirSync_recursive vaultContentDir;;
  writeFileSync (TmpDir tempDir, ["vault"; ".gitkeep"]) EmptyString;;
  git_add_commit tempDir.

(** [mkdtempSync(join(tmpdir(), prefix))]: the name of the directory made. *)
Definition mkdtempSync (E : Env) (prefix : string) : M string :=
  let name := prefix +:+ mkdtemp_suffix E in
  λ w, match tmp w !! name with
       | Some _ => (Throw "EEXIST", w)
       | None => (Ok name, set_root (TmpDir name) (Dir ∅) w)
       end.

Definition not_initialized : string := "Not initialized. Run 'agvault init' first.".

(** [withTempVault(cwd, fn, opts)]; the git handle handed to [fn] is the
    directory it is bound to. *)
Definition withTempVault {T} (E : Env) (cwd : string)
    (fn : string → string → OnPhase → M T) (opts : OnPhase) : M T :=
  let* config := loadConfig E in
  match config with
  | None => throw not_initialized
  | Some config =>
      if String.eqb (repoUrl config) EmptyString then throw not_initialized
      else
        let branch := if String.eqb (branch config) EmptyString then "main"
                      else branch config in
        let* tempDir := mkdtempSync E "agvault-" in
        let ctx : OnPhase := opts in
        (if bool_decide (is_Some (parseGitHubRepoUrl (repoUrl config))) && isGhAvailable E
         then ensureGhGitAuth else ret tt);;
        try_finally
          (call_opt opts "Cloning vault…";;
           try_catch (git_clone tempDir)
                     (λ _, createTempVaultRepo E tempDir (repoUrl config) branch);;
           let git := tempDir in
           fn tempDir git ctx)
          (rmSync_recursive_force (TmpDir tempDir, []))
  end.

(** [getWorkspaceName(cwd)] *)
Definition getWorkspaceName (cwd : string) : string :=
  let b := basename cwd in
  if String.eqb b EmptyString then "default" else b.

(** [getWorkspaceRelativePath(cwd, absolutePath)], the absolute path being the
    location [f] below [cwd]: [relative] gives the components of [f] joined
    by slashes. *)
Definition getWorkspaceRelativePath (cwd : string) (f : fspath) : string :=
  let rel := Str.join "/" f in
  Str.replace_backslashes rel.

(** The body of the inner loop of [collectFiles], on the pair of [results]
    and [seen]. *)
Definition collect_one (cwd : string) (f : fspath)
    (st : list VaultFile * gset fspath) : M (list VaultFile * gset fspath) :=
  let abs : abspath := (Cwd, f) in
  if decide (f ∈ st.2) then ret st
  else
    let seen := st.2 ∪ {[f]} in
    try_catch
      (let* isFile := statSync_isFile abs in
       if isFile
       then ret (st.1 ++ [mkVaultFile f (getWorkspaceRelativePath cwd f)], seen)
       else ret (st.1, seen))
      (λ _, ret (st.1, seen)).

Definition glob (pattern : string) (ignore : list string) : M (list fspath) :=
  λ w, (Ok (Glob.glob pattern ignore (project w)), w).

(** [collectFiles(cwd)] *)
Definition collectFiles (E : Env) (cwd : string) : M (list VaultFile) :=
  let* config := loadConfig E in
  match config with
  | None => ret []
  | Some config =>
      let* st :=
        foldM (include config)
              (λ pattern st,
                 let* files := glob pattern (exclude config) in
                 foldM files (collect_one cwd) st)
              ([], ∅) in
      ret st.1
  end.

(** [join("vault", workspaceName)], below the temporary directory. *)
Definition workspaceRoot (cwd : string) : fspath := ["vault"; getWorkspaceName cwd].

(** The body of the loop of [copyToVault]. *)
Definition copy_one (vaultPath workspaceName : string) (file : VaultFile) : M unit :=
  let src : abspath := (Cwd, path file) in
  let* dest := located (TmpDir vaultPath) ["vault"; workspaceName] (relativePath file) in
  let destDir : abspath := (dest.1, dirname dest.2) in
  let* there := existsSync destDir in
  (if negb there then mkdirSync_recursive destDir else ret tt);;
  cpSync_force src dest.

(** [copyToVault(files, vaultPath, cwd)] *)
Definition copyToVault (files : list VaultFile) (vaultPath cwd : string) : M unit :=
  let workspaceName := getWorkspaceName cwd in
  for_each files (copy_one vaultPath workspaceName).

(** What the walks call [rel], from [prefix] and the name of an entry. *)
Definition child_rel (prefix name : string) : string :=
  match prefix with
  | EmptyString => name
  | _ => prefix +:+ "/" +:+ name
  end.

(** The [walk] of [removeExcludedFromVault] on the directory [n] found at
    [dir]: what it pushes on [toDelete]. *)
Fixpoint walk_toDelete (allowedRelativePaths : gset string) (dir : fspath)
    (prefix : string) (n : node) : list fspath :=
  match n with
  | Dir es =>
      map_fold (λ name e acc,
                  let full := dir ++ [name] in
                  let rel := child_rel prefix name in
                  (if isDirectory e then walk_toDelete allowedRelativePaths full rel e
                   else if decide (rel ∈ allowedRelativePaths) then [] else [full])
                  ++ acc)
               [] es
  | _ => []
  end.

(** What [removeEmptyDirs] leaves of the directory [n]: [None] when it has
    removed the directory itself. *)
Fixpoint removeEmptyDirs_node (n : node) : option node :=
  match n with
  | Dir es =>
      let es' := omap (λ e, if isDirectory e then removeEmptyDirs_node e else Some e) es in
      if decide (es' = ∅) then None else Some (Dir es')
  | _ => Some n
  end.

(** [removeEmptyDirs(dir)] *)
Definition removeEmptyDirs (dir : abspath) : M unit :=
  let* there := existsSync dir in
  if negb there then ret tt
  else
    let* es := readdirSync dir in
    match removeEmptyDirs_node (Dir es) with
    | Some n => update_root dir.1 (insert_at dir.2 n) "ENOENT"
    | None => rmSync_recursive dir
    end.

(** [removeExcludedFromVault(vaultPath, cwd, allowedRelativePaths)] *)
Definition removeExcludedFromVault (vaultPath cwd : string)
    (allowedRelativePaths : gset string) : M unit :=
  let workspaceRoot : abspath := (TmpDir vaultPath, workspaceRoot cwd) in
  let* there := existsSync workspaceRoot in
  if negb there then ret tt
  else
    let* es := readdirSync workspaceRoot in
    let toDelete := walk_toDelete allowedRelativePaths workspaceRoot.2 EmptyString (Dir es) in
    for_each toDelete (λ f, rmSync_force (TmpDir vaultPath, f));;
    removeEmptyDirs workspaceRoot.

(** The filter of [copyFromVault] on one file. *)
Definition path_selected (specificPaths : option (list string))
    (vaultRel rel name : string) : bool :=
  match specificPaths with
  | Some (p0 :: ps) =>
      existsb (λ p, String.eqb vaultRel p || String.eqb rel p
                    || Str.endsWith ("/" +:+ p) rel || String.eqb p name)
              (p0 :: ps)
  | _ => true
  end.

(** The [walk] of [copyFromVault] on the directory [n], started with [count]
    files written; [readFileSync(full)] reads the entry [e]. *)
Fixpoint walk_copy (workspaceName : string) (specificPaths : option (list string))
    (prefix : string) (n : node) (count : nat) : M nat :=
  match n with
  | Dir es =>
      map_fold (λ name e (rest : nat → M nat) (count : nat),
                  let rel := child_rel prefix name in
                  let vaultRel := workspaceName +:+ "/" +:+ rel in
                  if isDirectory e then
                    let* count := walk_copy workspaceName specificPaths rel e count in
                    rest count
                  else if negb (path_selected specificPaths vaultRel rel name) then rest count
                  else
                    let* dest := located Cwd [] rel in
                    let destDir : abspath := (dest.1, dirname dest.2) in
                    let* there := existsSync destDir in
                    (if negb there then mkdirSync_recursive destDir else ret tt);;
                    let* data := lift (read_node (Some e)) in
                    writeFileSync dest data;;
                    rest (S count))
               ret es count
  | _ => ret count
  end.

(** [copyFromVault(vaultPath, cwd, specificPaths)] *)
Definition copyFromVault (vaultPath cwd : string) (specificPaths : option (list string))
  : M nat :=
  let workspaceName := getWorkspaceName cwd in
  let workspaceRoot : abspath := (TmpDir vaultPath, workspaceRoot cwd) in
  let* there := existsSync workspaceRoot in
  if negb there then ret 0
  else
    let* es := readdirSync workspaceRoot in
    walk_copy workspaceName specificPaths EmptyString (Dir es) 0.

(** The [walk] of [listVaultFiles]. *)
Fixpoint walk_list (prefix : string) (n : node) : list string :=
  match n with
  | Dir es =>
      map_fold (λ name e acc,
                  let rel := child_rel prefix name in
                  (if isDirectory e then walk_list rel e else [rel]) ++ acc)
               [] es
  | _ => []
  end.

(** [out.sort()]: without a comparator the order is that of the code units,
    lexicographically. *)
Definition sort (out : list string) : list string := merge_sort String.le out.

(** [listVaultFiles(vaultPath)] *)
Definition listVaultFiles (vaultPath : string) : M (list string) :=
  let vaultContent : abspath := (TmpDir vaultPath, ["vault"]) in
  let* there := existsSync vaultContent in
  if negb there then ret []
  else
    let* es := readdirSync vaultContent in
    ret (sort (walk_list EmptyString (Dir es))).

(** [pullFromVault(cwd, specificPaths, opts)] *)
Definition pullFromVault (E : Env) (cwd : string) (specificPaths : option (list string))
    (opts : OnPhase) : M nat :=
  withTempVault E cwd
    (λ vaultPath _git ctx,
       call_opt ctx "Copying files…";;
       copyFromVault vaultPath cwd specificPaths)
    opts.

Definition create_hint (repo : option string) : string :=
  match repo with
  | Some repo =>
      "Create the repo at https://github.com/new?name="
      +:+ nth 1 (Str.split "/" repo) "undefined"
      +:+ " (private), then run agvault store again."
  | None =>
      "Create a private repo at https://github.com/new and use its URL in agvault init, then run agvault store again."
  end.

(** The message of the error thrown when the remote cannot be created. *)
Definition remote_not_found (E : Env) (repoUrl : string) : string :=
  "Remote repository not found. "
  +:+ (if isGhAvailable E then "Run `gh auth login` and try again, or "
       else "Install GitHub CLI (gh) and run `gh auth login` to create the repo automatically, or ")
  +:+ create_hint (parseGitHubRepoUrl repoUrl).

(** Reading a property of [null]. *)
Definition null_property (name : string) : string :=
  "Cannot read properties of null (reading '" +:+ name +:+ "')".

(** The [try]/[catch] around the push of [storeToVault], with the [return]
    that follows it; [config] is [loadConfig(cwd)!]. *)
Definition push_or_create (E : Env) (config : option AgVaultConfig) (count : nat)
    (vaultPath git : string) : M nat :=
  try_catch
    (match config with
     | None => throw (null_property "branch")
     | Some _ => git_push E git
     end;;
     ret count)
    (λ err,
       if negb (isRepoNotFoundError err) then throw err
       else
         match config with
         | None => throw (null_property "repoUrl")
         | Some config =>
             let* created :=
               if isGhAvailable E then createGitHubRepoAndPush E (repoUrl config) vaultPath
               else ret false in
             if created then ret count
             else throw (remote_not_found E (repoUrl config))
         end).

(** What [storeToVault] runs inside the ephemeral clone. *)
Definition store_session (E : Env) (cwd : string) (files : list VaultFile)
    (vaultPath git : string) (ctx : OnPhase) : M nat :=
  let* config := loadConfig E in
  call_opt ctx "Copying files…";;
  copyToVault files vaultPath cwd;;
  let allowed : gset string := list_to_set (relativePath <$> files) in
  removeExcludedFromVault vaultPath cwd allowed;;
  let* hasChanges := git_status_hasChanges git in
  if negb hasChanges then ret (length files)
  else
    git_add_commit git;;
    call_opt ctx "Pushing…";;
    push_or_create E config (length files) vaultPath git.

(** [storeToVault(cwd, opts)] *)
Definition storeToVault (E : Env) (cwd : string) (opts : OnPhase) : M nat :=
  let* files := collectFiles E cwd in
  withTempVault E cwd (store_session E cwd files) opts.

(** [listVaultFilesRemote(cwd, opts)] *)
Definition listVaultFilesRemote (E : Env) (cwd : string) (opts : OnPhase)
  : M (list string) :=
  withTempVault E cwd (λ vaultPath _git _ctx, listVaultFiles vaultPath) opts.

(** ** Notions used in the statements *)

(** An observer that returns without touching the world. *)
Definition passive (opts : OnPhase) : Prop :=
  ∀ f, opts = Some f → ∀ msg w, f msg w = (Ok tt, w).

(** The first statements of the [try] block of [withTempVault]: the phase
    report and the clone with its fallback. *)
Definition enter_session (E : Env) (config : AgVaultConfig) (tempDir : string)
    (opts : OnPhase) : M unit :=
  call_opt opts "Cloning vault…";;
  try_catch (git_clone tempDir)
            (λ _, createTempVaultRepo E tempDir (repoUrl config)
                    (if String.eqb (branch config) EmptyString then "main"
                     else branch config)).

(** The tree committed by [createTempVaultRepo]. *)
Definition bootstrap_tree : node :=
  Dir {[ "vault" := Dir {[ ".gitkeep" := File EmptyString ]} ]}.

(** The working tree that [withTempVault] hands to its callback: the clone,
    or the bootstrapped repository when there is nothing to clone. *)
Definition initial_clone (E : Env) (w : World) : option node :=
  match remote w with
  | Some t => Some t
  | None => match git_init_error E with
            | None => Some bootstrap_tree
            | Some _ => None
            end
  end.


(** The world in which the callback of [withTempVault] starts. *)
Definition session_world (tempDir : string) (c : node) (w : World) : World :=
  mkWorld (project w) (<[tempDir := c]> (tmp w)) (<[tempDir := c]> (repos w)) (remote w).

(** The name that [withTempVault] gives to its temporary directory. *)
Definition tempName (E : Env) : string := "agvault-" +:+ mkdtemp_suffix E.


(** ** Trees as sets of leaves *)

Fixpoint node_size (n : node) : nat :=
  match n with
  | Dir es => S (map_fold (λ _ e acc, node_size e + acc) 0 es)
  | _ => 1
  end.

(** The entries below [n] that are not directories, each with its path, in
    the order in which the walks of [vault.ts] meet them. *)
Fixpoint leaves (n : node) : list (fspath * node) :=
  match n with
  | Dir es =>
      map_fold (λ name e acc,
                  (if isDirectory e then prod_map (cons name) id <$> leaves e
                   else [([name], e)]) ++ acc)
               [] es
  | _ => []
  end.

(** The [rel] that a walk started with [prefix] computes for the entry at
    [p]. *)
Definition rel_of (prefix : string) (p : fspath) : string :=
  foldl child_rel prefix p.

(** A file or a link. *)
Definition is_leaf (n : node) : Prop := isDirectory n = false.

(** [leaf_at n p e]: the entry at [p] below [n] is the file or link [e]. *)
Definition leaf_at (n : node) (p : fspath) (e : node) : Prop :=
  lookup_path p n = Some e ∧ is_leaf e.

(** ** [collectFiles], read as a list function *)

(** What [statSync(join(cwd, f)).isFile()] answers without throwing [true]
    for: a regular file, or a link that resolves to one. *)
Definition resolves_to_file (P : node) (f : fspath) : bool :=
  match lookup_path f P with
  | Some (File _) | Some (Link (ToFile _)) => true
  | _ => false
  end.

(** The elements of [l] that are not in [seen] and did not occur earlier in
    [l], in the order of [l]. *)
Fixpoint first_occurrences (seen : gset fspath) (l : list fspath) : list fspath :=
  match l with
  | [] => []
  | f :: l' =>
      if decide (f ∈ seen) then first_occurrences seen l'
      else f :: first_occurrences (seen ∪ {[f]}) l'
  end.

(** What the calls of [glob] return, one include pattern after the other. *)
Definition candidates (config : AgVaultConfig) (P : node) : list fspath :=
  include config ≫= (λ pattern, Glob.glob pattern (exclude config) P).

Definition vaultFile (cwd : string) (f : fspath) : VaultFile :=
  mkVaultFile f (getWorkspaceRelativePath cwd f).


(** ** Scenarios *)

(** A directory given by the list of its entries. *)
Definition dir_of (l : list (string * node)) : node := Dir (list_to_map l).


(** A parser that reads the text [raw] as the object [fields] and rejects
    every other text. *)
Definition parse_only (raw : string) (fields : parsed) (s : string) : parsed :=
  if String.eqb s raw then fields else SyntaxError "Unexpected token".

(** An environment in which every collaborator succeeds. *)
Definition calm_env (raw : string) (fields : parsed) : Env :=
  mkEnv (parse_only raw fields) "Xy12Zw" None None false true.


Definition alice_vault : string := "https://github.com/alice/vault.git".



(** An initialised project holding [README.md] and
    [node_modules/pkg/readme.md], with the default patterns. *)
Definition readme_project : node :=
  dir_of [(".agvault", dir_of [("config.json", File "cfg")]);
          ("README.md", File "R");
          ("node_modules", dir_of [("pkg", dir_of [("readme.md", File "M")])])].

Definition readme_env : Env :=
  calm_env "cfg" (Fields (Some alice_vault) None None None).

Definition readme_world (origin : option node) : World :=
  mkWorld readme_project ∅ ∅ origin.

(** An environment without the GitHub CLI, in which every push is refused
    because the repository is missing. *)
Definition offline_env : Env :=
  mkEnv (parse_only "cfg" (Fields (Some alice_vault) None None None)) "Xy12Zw" None
        (Some "remote: Repository not found.") true false.

(** A project whose configuration file is cut short. *)
Definition broken_world : World :=
  mkWorld (dir_of [(".agvault", dir_of [("config.json", File "{")])]) ∅ ∅ None.

(** A project that holds [README.md] and [notes.md] and now excludes the
    latter, and a vault in which both were stored earlier. *)
Definition notes_project : node :=
  dir_of [(".agvault", dir_of [("config.json", File "cfg")]);
          ("README.md", File "R");
          ("notes.md", File "N")].

Definition notes_env : Env :=
  calm_env "cfg" (Fields (Some alice_vault) (Some ["*.md"]) (Some ["notes.md"]) None).

Definition notes_config : AgVaultConfig :=
  mkConfig alice_vault ["*.md"] ["notes.md"] "main".

Definition notes_vault : node :=
  dir_of [("vault", dir_of [("proj", dir_of [("README.md", File "R");
                                              ("notes.md", File "N")])])].

Definition notes_world : World := mkWorld notes_project ∅ ∅ (Some notes_vault).

(** A project that holds its configuration and nothing else. *)
Definition bare_project : node :=
  dir_of [(".agvault", dir_of [("config.json", File "cfg")])].


(** The configuration that [loadConfig] returns when only [repoUrl] is set. *)
Definition alice_config : AgVaultConfig :=
  mkConfig alice_vault DEFAULT_INCLUDE DEFAULT_EXCLUDE "main".

(** ** Names *)

(** A name that a directory can hold. *)
Definition wf_name (s : string) : Prop :=
  s ≠ EmptyString ∧ s ≠ "." ∧ s ≠ ".." ∧ Str.has_char "/" s = false.


(** Every entry of the tree has a well-formed, respectively portable, name. *)
Definition wf_tree (n : node) : Prop :=
  ∀ p e, lookup_path p n = Some e → Forall wf_name p.


(** The same, as tests. *)
Definition wf_nameb (s : string) : bool :=
  negb (String.eqb s EmptyString) && negb (String.eqb s ".")
  && negb (String.eqb s "..") && negb (Str.has_char "/" s).


Fixpoint names_ok (f : string → bool) (n : node) : bool :=
  match n with
  | Dir es => map_fold (λ name e acc, f name && names_ok f e && acc) true es
  | _ => true
  end.

(** ** The phases of [storeToVault] and [pullFromVault], read on trees *)







(** One file of the walk of [copyFromVault] on the project tree [P]: the
    outcome, [Ok true] when the file has been written and [Ok false] when the
    filter has left it out, and the tree that results. *)
Definition write_tree (workspaceName : string) (specificPaths : option (list string))
    (prefix : string) (pe : fspath * node) (P : node) : result bool * node :=
  let rel := rel_of prefix pe.1 in
  let vaultRel := workspaceName +:+ "/" +:+ rel in
  if negb (path_selected specificPaths vaultRel rel (List.last pe.1 EmptyString))
  then (Ok false, P)
  else
    match join [] rel with
    | None => (Throw "EOUTSIDE", P)
    | Some dest =>
        match (if exists_node (lookup_path (dirname dest) P) then Some P
               else mkdir_p (dirname dest) P) with
        | None => (Throw "ENOTDIR", P)
        | Some P1 =>
            match read_node (Some pe.2) with
            | Throw e => (Throw e, P1)
            | Ok data =>
                match lookup_path dest P1 with
                | Some (Dir _) | Some (Link ToDir) => (Throw "EISDIR", P1)
                | old =>
                    let new := match old with
                               | Some (Link _) => Link (ToFile data)
                               | _ => File data
                               end in
                    match insert_at dest new P1 with
                    | Some P2 => (Ok true, P2)
                    | None => (Throw "ENOENT", P1)
                    end
                end
            end
        end
    end.

(** The walk of [copyFromVault] over the files [l] of the partition. *)
Fixpoint pull_leaves (workspaceName : string) (specificPaths : option (list string))
    (prefix : string) (l : list (fspath * node)) (count : nat) (P : node)
  : result nat * node :=
  match l with
  | [] => (Ok count, P)
  | pe :: l' =>
      match write_tree workspaceName specificPaths prefix pe P with
      | (Ok written, P') =>
          pull_leaves workspaceName specificPaths prefix l'
                      (if written then S count else count) P'
      | (Throw e, P') => (Throw e, P')
      end
  end.


(** The proper prefixes of a path. *)
Fixpoint proper_prefixes (p : fspath) : list fspath :=
  match p with
  | [] => []
  | x :: p' => [] :: (cons x <$> proper_prefixes p')
  end.

(** A file can be written at [p] below [P]: what is there on the way to [p]
    is a directory, and what is there at [p] is not. *)
Definition can_write (P : node) (p : fspath) : bool :=
  forallb (λ q, match lookup_path q P with
                | Some x => isDirectory x
                | None => true
                end) (proper_prefixes p)
  && match lookup_path p P with
     | Some (Dir _) | Some (Link ToDir) => false
     | _ => true
     end.

(** ** [JSON.stringify(config, null, 2)] *)

Module Json.

Definition dquote : ascii := ascii_of_nat 34.
Definition newline : string := String (ascii_of_nat 10) EmptyString.

Definition hex_digit (n : nat) : ascii :=
  default "0"%char (String.get n "0123456789abcdef").

(** What [QuoteJSONString] writes for one code unit: the two-character
    escapes, [\u00xx] for the other control characters, and the code unit
    itself otherwise. *)
Definition escape (c : ascii) : string :=
  let n := nat_of_ascii c in
  if (n =? 34)%nat then String "\" (String dquote EmptyString)
  else if (n =? 92)%nat then "\\"
  else if (n =? 8)%nat then "\b"
  else if (n =? 9)%nat then "\t"
  else if (n =? 10)%nat then "\n"
  else if (n =? 12)%nat then "\f"
  else if (n =? 13)%nat then "\r"
  else if (n <? 32)%nat then
    "\u00" +:+ String (hex_digit (n / 16)) (String (hex_digit (n mod 16)) EmptyString)
  else String c EmptyString.

Fixpoint escape_all (s : string) : string :=
  match s with
  | EmptyString => EmptyString
  | String c s' => escape c +:+ escape_all s'
  end.

(** A string literal. *)
Definition quote (s : string) : string :=
  String dquote (escape_all s) +:+ String dquote EmptyString.

(** An array of strings, as the value of a member of the top-level object:
    its elements are indented by four spaces. *)
Definition array (l : list string) : string :=
  match l with
  | [] => "[]"
  | _ =>
      "[" +:+ newline +:+ "    "
      +:+ Str.join ("," +:+ newline +:+ "    ") (quote <$> l)
      +:+ newline +:+ "  ]"
  end.

Definition member (key value : string) : string :=
  "  " +:+ quote key +:+ ": " +:+ value.

(** [JSON.stringify(config, null, 2)] for a configuration that has its four
    properties, in the order in which [loadConfig] creates them. *)
Definition stringify (config : AgVaultConfig) : string :=
  "{" +:+ newline
  +:+ Str.join ("," +:+ newline)
        [member "repoUrl" (quote (repoUrl config));
         member "include" (array (include config));
         member "exclude" (array (exclude config));
         member "branch" (quote (branch config))]
  +:+ newline +:+ "}".

End Json.

(** ** The rest of [src/config.ts] *)

(** [resolve] on top of the reversed stack [rev_base]: empty and ["."]
    components vanish, [".."] pops and stays at the root. *)
Fixpoint normalize_onto (rev_base : list string) (segs : list string) : fspath :=
  match segs with
  | [] => rev rev_base
  | s :: segs' =>
      if String.eqb s EmptyString || String.eqb s "." then normalize_onto rev_base segs'
      else if String.eqb s ".." then normalize_onto (tail rev_base) segs'
      else normalize_onto (s :: rev_base) segs'
  end.

(** [resolve(p)] in a process whose working directory is [process_cwd]: an
    absolute path is given by its components below the root of the disk. *)
Definition resolve (process_cwd : fspath) (p : string) : fspath :=
  normalize_onto (if Str.startsWith "/" p then [] else rev process_cwd)
                 (Str.split "/" p).

(** [getConfigPath(dir)] for a directory of the disk. *)
Definition getConfigPath_in (dir : fspath) : fspath := dir ++ [CONFIG_DIR; CONFIG_FILE].

(** The loop of [getProjectRoot] started at [dir] on the tree [disk] of the
    whole file system: the directory it returns, or [None] when it breaks
    out at the root.  A directory is left for its parent at most as many
    times as it has components, which [fuel] counts. *)
Fixpoint climb (fuel : nat) (disk : node) (dir : fspath) : option fspath :=
  if exists_node (lookup_path (getConfigPath_in dir) disk) then Some dir
  else
    let parent := dirname dir in
    if decide (parent = dir) then None
    else match fuel with
         | 0 => None
         | S fuel' => climb fuel' disk parent
         end.

(** [getProjectRoot(startDir)] *)
Definition getProjectRoot (disk : node) (process_cwd : fspath) (startDir : option string)
  : fspath :=
  let start := match startDir with
               | Some s => resolve process_cwd s
               | None => process_cwd
               end in
  default start (climb (length start) disk start).

(** [saveConfig(cwd, config)] *)
Definition saveConfig (config : AgVaultConfig) : M unit :=
  let dir : abspath := (Cwd, [CONFIG_DIR]) in
  let* there := existsSync dir in
  (if negb there then mkdirSync_recursive dir else ret tt);;
  let path := getConfigPath in
  writeFileSync path (Json.stringify config).

(** [isInitialized(cwd)] *)
Definition isInitialized (E : Env) : M bool :=
  let* config := loadConfig E in
  ret match config with
      | Some config => negb (String.eqb (repoUrl config) EmptyString)
      | None => false
      end.

(** [normalizePath(path)] *)
Definition normalizePath (path : string) : string := Str.replace_backslashes path.

(** [l.includes(s)] *)
Definition includes (s : string) (l : list string) : bool := bool_decide (s ∈ l).

(** [addToExclude(cwd, path)] *)
Definition addToExclude (E : Env) (path : string) : M unit :=
  let* config := loadConfig E in
  match config with
  | None => throw not_initialized
  | Some config =>
      if String.eqb (repoUrl config) EmptyString then throw not_initialized
      else
        let normalized := normalizePath path in
        if includes normalized (exclude config) then ret tt
        else
          saveConfig {| repoUrl := repoUrl config;
                        include := include config;
                        exclude := exclude config ++ [normalized];
                        branch := branch config |}
  end.

(** [ensurePathIncluded(cwd, path)] *)
Definition ensurePathIncluded (E : Env) (path : string) : M unit :=
  let* config := loadConfig E in
  match config with
  | None => throw not_initialized
  | Some config =>
      if String.eqb (repoUrl config) EmptyString then throw not_initialized
      else
        let normalized := normalizePath path in
        let exclude' := List.filter (λ p, negb (String.eqb p normalized)) (exclude config) in
        let include' := if negb (includes normalized (include config))
                        then include config ++ [normalized]
                        else include config in
        saveConfig {| repoUrl := repoUrl config;
                      include := include';
                      exclude := exclude';
                      branch := branch config |}
  end.

(** ** The rest of [src/gh.ts] *)






(** ** The rest of [src/vault.ts] *)

Definition VAULT_DIR : string := ".agvault/repo".

(** [getVaultRoot(cwd)] *)
Definition getVaultRoot (E : Env) : M (option abspath) :=
  let* config := loadConfig E in
  match config with
  | None => ret None
  | Some config =>
      if String.eqb (repoUrl config) EmptyString then ret None
      else let* l := located Cwd [] VAULT_DIR in ret (Some l)
  end.

(** [clearVault(cwd)] *)
Definition clearVault : M unit :=
  let* vaultPath := located Cwd [] VAULT_DIR in
  let* there := existsSync vaultPath in
  if negb there then ret tt
  else rmSync_recursive vaultPath.

(** What [purgeVault] runs inside the ephemeral clone. *)
Definition purge_session (E : Env) (vaultPath git : string) (ctx : OnPhase) : M unit :=
  let* config := loadConfig E in
  let vaultContent : abspath := (TmpDir vaultPath, ["vault"]) in
  let* there := existsSync vaultContent in
  if negb there then ret tt
  else
    let* entries := readdirSync vaultContent in
    for_each (map_to_list entries).*1
             (λ name,
                let* l := located (TmpDir vaultPath) ["vault"] name in
                rmSync_recursive l);;
    writeFileSync (TmpDir vaultPath, ["vault"; ".gitkeep"]) EmptyString;;
    git_add_commit git;;
    call_opt ctx "Pushing…";;
    match config with
    | None => throw (null_property "branch")
    | Some _ => git_push E git
    end.

(** [purgeVault(cwd, opts)] *)
Definition purgeVault (E : Env) (cwd : string) (opts : OnPhase) : M unit :=
  withTempVault E cwd (purge_session E) opts.

(** The observers that [syncVault] hands to its two sessions: the report of
    the clone is replaced by [label]. *)
Definition sync_onPhase (opts : OnPhase) (label : string) : OnPhase :=
  Some (λ msg, call_opt opts (if String.eqb msg "Cloning vault…" then label else msg)).

(** The [try]/[catch] around the push of [syncVault], with the [return] that
    follows it. *)
Definition sync_push (E : Env) (config : option AgVaultConfig) (count : nat)
    (vaultPath git : string) : M nat :=
  try_catch
    (match config with
     | None => throw (null_property "branch")
     | Some _ => git_push E git
     end;;
     ret count)
    (λ err,
       if negb (isRepoNotFoundError err) then throw err
       else
         match config with
         | None => throw (null_property "repoUrl")
         | Some config =>
             let* created :=
               if isGhAvailable E then createGitHubRepoAndPush E (repoUrl config) vaultPath
               else ret false in
             if created then ret count
             else throw err
         end).

(** What the second half of [syncVault] runs inside the ephemeral clone. *)
Definition sync_session (E : Env) (cwd : string) (files : list VaultFile)
    (vaultPath git : string) (ctx : OnPhase) : M nat :=
  let* config := loadConfig E in
  call_opt ctx "Copying files…";;
  copyToVault files vaultPath cwd;;
  let allowed : gset string := list_to_set (relativePath <$> files) in
  removeExcludedFromVault vaultPath cwd allowed;;
  let* hasChanges := git_status_hasChanges git in
  if negb hasChanges then ret 0
  else
    git_add_commit git;;
    call_opt ctx "Pushing…";;
    sync_push E config (length files) vaultPath git.

(** [syncVault(cwd, opts)]: the pair of [pulled] and [stored]. *)
Definition syncVault (E : Env) (cwd : string) (opts : OnPhase) : M (nat * nat) :=
  let pullOpts := sync_onPhase opts "Syncing: pulling…" in
  let* pulled := pullFromVault E cwd None pullOpts in
  let* files := collectFiles E cwd in
  let storeOpts := sync_onPhase opts "Syncing: storing…" in
  let* stored := withTempVault E cwd (sync_session E cwd files) storeOpts in
  ret (pulled, stored).

(** [runReinit(cwd, opts)] *)
Definition runReinit (E : Env) (cwd : string) (opts : OnPhase) : M unit :=
  let* config := loadConfig E in
  match config with
  | None => throw not_initialized
  | Some config =>
      if String.eqb (repoUrl config) EmptyString then throw not_initialized
      else
        clearVault;;
        withTempVault E cwd (λ _vaultPath _git _ctx, ret tt) opts
  end.

(** ** Notions used in the further statements *)

(** The object that [JSON.parse] makes of the text of [config]. *)
Definition fields_of (config : AgVaultConfig) : parsed :=
  Fields (Some (repoUrl config)) (Some (include config)) (Some (exclude config))
         (Some (branch config)).

(** The parser reads the text that [JSON.stringify] writes for [config] as
    the object it was written from. *)
Definition reads_back (E : Env) (config : AgVaultConfig) : Prop :=
  JSON_parse E (Json.stringify config) = fields_of config.

(** The configuration that [addToExclude] saves. *)
Definition excluding (config : AgVaultConfig) (normalized : string) : AgVaultConfig :=
  {| repoUrl := repoUrl config;
     include := include config;
     exclude := exclude config ++ [normalized];
     branch := branch config |}.

(** The configuration that [ensurePathIncluded] saves. *)
Definition including (config : AgVaultConfig) (normalized : string) : AgVaultConfig :=
  {| repoUrl := repoUrl config;
     include := if negb (includes normalized (include config))
                then include config ++ [normalized]
                else include config;
     exclude := List.filter (λ p, negb (String.eqb p normalized)) (exclude config);
     branch := branch config |}.

(** The working tree that [purgeVault] commits for the clone [c]: the
    content root holds [.gitkeep] and nothing else. *)
Definition purged (c : node) : node :=
  match c with
  | Dir top => Dir (<["vault" := Dir {[".gitkeep" := File EmptyString]}]> top)
  | _ => c
  end.

(** The world after a command that has run in an ephemeral clone: the
    project is [P], the temporary directory is gone and the tip of the
    remote branch is [origin]. *)
Definition after_session (E : Env) (w : World) (P : node) (origin : option node) : World :=
  mkWorld P (tmp w) (delete (tempName E) (repos w)) origin.


(** A computation that leaves the component [f] of the world as it finds
    it, whatever it returns or throws. *)
Definition keeps {A X} (f : World → X) (m : M A) : Prop :=
  ∀ w, f (m w).2 = f w.

(** ** Further scenarios *)

(** A parser that knows the texts of a table and rejects every other text. *)
Fixpoint parse_table (table : list (string * parsed)) (s : string) : parsed :=
  match table with
  | [] => SyntaxError "Unexpected token"
  | (raw, fields) :: table' => if String.eqb s raw then fields else parse_table table' s
  end.

(** An environment in which every collaborator succeeds, and whose parser
    reads the text [cfg] as [config] and what [JSON.stringify] writes for
    [saved] as [saved]. *)
Definition editing_env (config saved : AgVaultConfig) : Env :=
  mkEnv (parse_table [("cfg", fields_of config); (Json.stringify saved, fields_of saved)])
        "Xy12Zw" None None false true.

(** A directory in which nothing has been initialised. *)
Definition empty_world : World := mkWorld (Dir ∅) ∅ ∅ None.

(** The configuration of a project that stores its Markdown files. *)
Definition open_config : AgVaultConfig := mkConfig alice_vault ["*.md"] [] "main".

(** The project [notes_project], before any store. *)
Definition fresh_notes_world : World := mkWorld notes_project ∅ ∅ None.




(** * Properties *)

#[local] Arguments Ascii.eqb : simpl never.
#[local] Arguments String.eqb : simpl never.

(** ** Running the monad *)

Ltac munfold :=
  unfold bind, ret, throw, lift, try_catch, try_finally, call_opt, update_root in *;
  cbv beta zeta in *.

Lemma bind_Ok {A B} (m : M A) (k : A → M B) w a w' :
  m w = (Ok a, w') → bind m k w = k a w'.
Proof. unfold bind. by intros ->. Qed.

Lemma bind_Throw {A B} (m : M A) (k : A → M B) w e w' :
  m w = (Throw e, w') → bind m k w = (Throw e, w').
Proof. unfold bind. by intros ->. Qed.

Lemma call_opt_passive opts msg w : passive opts → call_opt opts msg w = (Ok tt, w).
Proof. intros Hp. destruct opts as [f|]; [by apply Hp | done]. Qed.

Lemma passive_None : passive None.
Proof. intros f Hf. discriminate Hf. Qed.

(** A run is its outcome and the world it leaves. *)
Lemma result_eta {A} (m : result A * World) r : m.1 = r → m = (r, m.2).
Proof. destruct m. cbn. by intros ->. Qed.

(** Settles [m = (r, m.2)] for a closed run [m] by evaluating its outcome. *)
Ltac by_running :=
  lazymatch goal with
  | |- ?m = (?r, _) => exact (result_eta m r ltac:(vm_compute; reflexivity))
  end.

(** ** [loadConfig] *)

Lemma loadConfig_frame E w r w' : loadConfig E w = (r, w') → w' = w.
Proof.
  unfold loadConfig, existsSync, readFileSync. munfold.
  destruct (lstat getConfigPath w) as [[c|[c| |]|es]|] eqn:Hl; simpl; rewrite ?Hl; simpl;
    try destruct (JSON_parse E c); simpl; intros H; by simplify_eq.
Qed.

Lemma loadConfig_project E w1 w2 :
  project w1 = project w2 → (loadConfig E w1).1 = (loadConfig E w2).1.
Proof.
  intros Hp.
  assert (lstat getConfigPath w1 = lstat getConfigPath w2) as Hl
    by (unfold lstat; simpl; by rewrite Hp).
  unfold loadConfig, existsSync, readFileSync. munfold. rewrite Hl.
  destruct (lstat getConfigPath w2) as [[c|[c| |]|es]|] eqn:Hl2; simpl;
    rewrite ?Hl, ?Hl2; simpl; try destruct (JSON_parse E c); simpl; done.
Qed.

(** C7: [loadConfig] returns [null] exactly when the configuration file
    does not exist, and it leaves the world as it was; when the file exists
    and can be read but its text is rejected by the JSON parser, [loadConfig]
    throws the error [Invalid JSON in .agvault/config.json: ...] instead of
    returning [null]. *)
Theorem loadConfig_null_iff_missing E w :
  (∀ w', loadConfig E w = (Ok None, w') ↔
         existsSync getConfigPath w = (Ok false, w) ∧ w' = w)
  ∧ (∀ raw msg,
       existsSync getConfigPath w = (Ok true, w) →
       readFileSync getConfigPath w = (Ok raw, w) →
       JSON_parse E raw = SyntaxError msg →
       loadConfig E w = (Throw (invalid_json msg), w)).
Proof.
  split.
  - intros w'. unfold loadConfig, existsSync, readFileSync. munfold.
    destruct (lstat getConfigPath w) as [[c|[c| |]|es]|] eqn:Hl; simpl; rewrite ?Hl; simpl;
      try destruct (JSON_parse E c); simpl; (split; [intros H | intros [H ?]]); by simplify_eq.
  - intros raw msg. unfold loadConfig, existsSync, readFileSync. munfold.
    destruct (lstat getConfigPath w) as [[c|[c| |]|es]|] eqn:Hl; simpl; rewrite ?Hl; simpl;
      intros ? ? Hp; simplify_eq; by rewrite Hp.
Qed.

(** ** [withTempVault] *)

Lemma withTempVault_unfold {T} E cwd (fn : string → string → OnPhase → M T) opts w config tempDir w0 :
  loadConfig E w = (Ok (Some config), w) →
  repoUrl config ≠ EmptyString →
  mkdtempSync E "agvault-" w = (Ok tempDir, w0) →
  withTempVault E cwd fn opts w =
    match enter_session E config tempDir opts w0 with
    | (Ok _, w1) =>
        let '(r, w2) := fn tempDir tempDir opts w1 in (r, unlink (TmpDir tempDir, []) w2)
    | (Throw e, w1) => (Throw e, unlink (TmpDir tempDir, []) w1)
    end.
Proof.
  intros Hc Hu Hm. unfold withTempVault.
  rewrite (bind_Ok _ _ _ _ _ Hc).
  destruct (String.eqb_spec (repoUrl config) EmptyString) as [|_]; [done|].
  rewrite (bind_Ok _ _ _ _ _ Hm).
  assert (∀ b : bool, (if b then ensureGhGitAuth else ret tt) w0 = (Ok tt, w0)) as Hauth
    by (by intros []).
  rewrite (bind_Ok _ _ _ _ _ (Hauth _)).
  unfold try_finally, enter_session, rmSync_recursive_force, bind.
  destruct (call_opt opts _ w0) as [[[]|e] w1]; [|done].
  destruct (try_catch _ _ w1) as [[[]|e] w2]; [|done].
  by destruct (fn _ _ _ w2).
Qed.

Lemma tmp_unlink_root d w : tmp (unlink (TmpDir d, []) w) !! d = None.
Proof. simpl. apply lookup_delete_eq. Qed.

(** C1: for a project with a loadable configuration and a non-empty
    [repoUrl], whatever the callback [fn] does, [withTempVault] creates the
    temporary directory, and in the world in which it returns or throws that
    directory is gone; the value or the error of the callback is what
    [withTempVault] returns or throws, and an error of the clone and of its
    fallback is thrown after the same removal. *)
Theorem withTempVault_removes_temp_dir {T} E cwd
    (fn : string → string → OnPhase → M T) opts w config tempDir w0 :
  loadConfig E w = (Ok (Some config), w) →
  repoUrl config ≠ EmptyString →
  mkdtempSync E "agvault-" w = (Ok tempDir, w0) →
  lstat (TmpDir tempDir, []) w0 = Some (Dir ∅)
  ∧ lstat (TmpDir tempDir, []) (withTempVault E cwd fn opts w).2 = None
  ∧ match enter_session E config tempDir opts w0 with
    | (Ok _, w1) =>
        withTempVault E cwd fn opts w =
          let '(r, w2) := fn tempDir tempDir opts w1 in (r, unlink (TmpDir tempDir, []) w2)
    | (Throw e, w1) =>
        withTempVault E cwd fn opts w = (Throw e, unlink (TmpDir tempDir, []) w1)
    end.
Proof.
  intros Hc Hu Hm. pose proof (withTempVault_unfold E cwd fn opts w _ _ _ Hc Hu Hm) as Hrun.
  split; [|split].
  - unfold mkdtempSync in Hm. destruct (tmp w !! _); simplify_eq.
    unfold lstat. simpl. by rewrite lookup_insert_eq.
  - rewrite Hrun. unfold lstat; simpl root.
    destruct (enter_session _ _ _ _ _) as [[[]|e] w1].
    + destruct (fn _ _ _ _) as [r w2]. simpl. by rewrite lookup_delete_eq.
    + simpl. by rewrite lookup_delete_eq.
  - rewrite Hrun. by destruct (enter_session _ _ _ _ _) as [[[]|e] w1].
Qed.

(** ** The session of [withTempVault] *)

Lemma git_tree_bootstrap : git_tree bootstrap_tree = bootstrap_tree.
Proof. by vm_compute. Qed.

Lemma mkdirSync_recursive_run a p w n n' :
  root a w = Some n → mkdir_p p n = Some n' →
  mkdirSync_recursive (a, p) w = (Ok tt, set_root a n' w).
Proof. intros Hr Hm. unfold mkdirSync_recursive, update_root. simpl. rewrite Hr. simpl. by rewrite Hm. Qed.

Lemma writeFileSync_new a p data w n n' :
  root a w = Some n → lookup_path p n = None →
  insert_at p (File data) n = Some n' →
  writeFileSync (a, p) data w = (Ok tt, set_root a n' w).
Proof.
  intros Hr Hl Hi. unfold writeFileSync, update_root, lstat. simpl. rewrite Hr. simpl.
  by rewrite Hl, Hi.
Qed.

Lemma enter_session_run E config tempDir opts w c :
  passive opts →
  initial_clone E w = Some c →
  enter_session E config tempDir opts (set_root (TmpDir tempDir) (Dir ∅) w)
  = (Ok tt, session_world tempDir c w).
Proof.
  intros Hp Hc. unfold enter_session.
  rewrite (bind_Ok _ _ _ _ _ (call_opt_passive _ _ _ Hp)).
  unfold initial_clone in Hc. unfold try_catch, git_clone. simpl.
  rewrite lookup_insert_eq.
  destruct (remote w) as [t|] eqn:Hr.
  - simplify_eq. unfold session_world. by rewrite insert_insert_eq, Hr.
  - destruct (git_init_error E) as [msg|] eqn:Hi; [done|]. simplify_eq.
    unfold createTempVaultRepo, git_init. rewrite Hi.
    unfold bind at 1. cbv beta iota.
    erewrite bind_Ok; last first.
    { eapply mkdirSync_recursive_run; [simpl; apply lookup_insert_eq | by vm_compute]. }
    erewrite bind_Ok; last first.
    { eapply writeFileSync_new; [simpl; apply lookup_insert_eq | by vm_compute | by vm_compute]. }
    unfold git_add_commit, set_root, set_repo, session_world. simpl.
    rewrite !lookup_insert_eq, !insert_insert_eq, Hr. done.
Qed.

Lemma enter_session_fails E config tempDir opts w msg :
  passive opts →
  remote w = None →
  git_init_error E = Some msg →
  enter_session E config tempDir opts (set_root (TmpDir tempDir) (Dir ∅) w)
  = (Throw msg, set_root (TmpDir tempDir) (Dir ∅) w).
Proof.
  intros Hp Hr Hi. unfold enter_session.
  rewrite (bind_Ok _ _ _ _ _ (call_opt_passive _ _ _ Hp)).
  unfold try_catch, git_clone. simpl. rewrite Hr.
  unfold createTempVaultRepo, git_init. rewrite Hi. done.
Qed.

Lemma mkdtempSync_fresh E w :
  tmp w !! tempName E = None →
  mkdtempSync E "agvault-" w = (Ok (tempName E), set_root (TmpDir (tempName E)) (Dir ∅) w).
Proof. unfold mkdtempSync, tempName. by intros ->. Qed.

(** With an initialised project, a fresh temporary name and a passive
    observer, [withTempVault] runs its callback on the clone and removes the
    directory. *)
Lemma withTempVault_run {T} E cwd (fn : string → string → OnPhase → M T) opts w config c :
  loadConfig E w = (Ok (Some config), w) →
  repoUrl config ≠ EmptyString →
  tmp w !! tempName E = None →
  passive opts →
  initial_clone E w = Some c →
  withTempVault E cwd fn opts w =
    let '(r, w2) := fn (tempName E) (tempName E) opts (session_world (tempName E) c w) in
    (r, unlink (TmpDir (tempName E), []) w2).
Proof.
  intros Hc Hu Hf Hp Hi.
  rewrite (withTempVault_unfold E cwd fn opts w _ _ _ Hc Hu (mkdtempSync_fresh _ _ Hf)).
  by rewrite (enter_session_run _ _ _ _ _ _ Hp Hi).
Qed.

Lemma unlink_session d c w :
  tmp w !! d = None →
  unlink (TmpDir d, []) (session_world d c w)
  = mkWorld (project w) (tmp w) (delete d (repos w)) (remote w).
Proof.
  intros Hd. unfold unlink, session_world. simpl. f_equal.
  - rewrite delete_insert_eq. by apply delete_id.
  - by rewrite delete_insert_eq.
Qed.

(** ** C10: pulling when the vault has no partition for the project *)



(** ** C6: which push failures reach the creation of the remote *)

Lemma lower_ascii_idem c : Str.lower_ascii (Str.lower_ascii c) = Str.lower_ascii c.
Proof.
  destruct c as [[] [] [] [] [] [] [] []]; reflexivity.
Qed.



Lemma startsWith_app p s t :
  Str.startsWith p s = true → Str.startsWith p (s +:+ t) = true.
Proof.
  revert s. induction p as [|a p IH]; intros [|b s]; simpl; try done.
  destruct (Ascii.eqb a b); [apply IH | done].
Qed.

Lemma includes_app_l sub s t :
  Str.includes sub s = true → Str.includes sub (s +:+ t) = true.
Proof.
  induction s as [|c s IH]; simpl.
  - rewrite orb_false_r. destruct sub; [|done]. intros _. by destruct t.
  - intros [H|H]%orb_true_iff.
    + pose proof (startsWith_app _ (String c s) t H) as H'.
      change (String c s +:+ t) with (String c (s +:+ t)) in H'. by rewrite H'.
    + rewrite (IH H). apply orb_true_r.
Qed.

Lemma includes_app_r sub s t :
  Str.includes sub t = true → Str.includes sub (s +:+ t) = true.
Proof.
  intros H. induction s as [|c s IH]; simpl; [done|].
  rewrite IH. apply orb_true_r.
Qed.



(** ** Trees *)

Lemma map_fold_app {A B} (f : string → A → list B) (es : gmap string A) :
  map_fold (λ k v acc, f k v ++ acc) [] es = map_to_list es ≫= (λ kv, f kv.1 kv.2).
Proof.
  rewrite map_fold_foldr. induction (map_to_list es) as [|[k v] l IH]; [done|].
  rewrite bind_cons. simpl. by rewrite IH.
Qed.

Lemma node_size_child es x n : es !! x = Some n → node_size n < node_size (Dir es).
Proof.
  intros Hx. simpl. rewrite map_fold_foldr.
  apply elem_of_map_to_list in Hx.
  induction (map_to_list es) as [|[k v] l IH]; [by apply elem_of_nil in Hx|].
  apply elem_of_cons in Hx as [Hx|Hx]; simpl.
  - simplify_eq. lia.
  - specialize (IH Hx). lia.
Qed.

Lemma node_ind' (P : node → Prop) :
  (∀ c, P (File c)) →
  (∀ r, P (Link r)) →
  (∀ es, (∀ x n, es !! x = Some n → P n) → P (Dir es)) →
  ∀ n, P n.
Proof.
  intros Hf Hl Hd n. remember (node_size n) as k eqn:Hk. revert n Hk.
  induction k as [k IH] using lt_wf_ind. intros [c|r|es] Hk; auto.
  apply Hd. intros x n Hx. apply (IH (node_size n)); [|done].
  subst k. by eapply node_size_child.
Qed.

Lemma leaves_Dir es :
  leaves (Dir es) =
    map_to_list es ≫= (λ kv, if isDirectory kv.2 then prod_map (cons kv.1) id <$> leaves kv.2
                              else [([kv.1], kv.2)]).
Proof. simpl. by rewrite map_fold_app. Qed.

Lemma lookup_path_nil n : lookup_path [] n = Some n.
Proof. done. Qed.

Lemma lookup_path_cons x p es :
  lookup_path (x :: p) (Dir es) = es !! x ≫= lookup_path p.
Proof. done. Qed.

Lemma lookup_path_leaf x p n : is_leaf n → lookup_path (x :: p) n = None.
Proof. by destruct n. Qed.

Lemma lookup_path_app p q n :
  lookup_path (p ++ q) n = lookup_path p n ≫= lookup_path q.
Proof.
  revert n. induction p as [|x p IH]; intros n; simpl; [done|].
  destruct n as [| |es]; try done. destruct (es !! x); simpl; [apply IH|done].
Qed.

(** The leaves listed by the walk are exactly the files and links of the
    tree. *)
Lemma elem_of_leaves n p e :
  (p, e) ∈ leaves n ↔ p ≠ [] ∧ leaf_at n p e.
Proof.
  revert p. induction n as [c|r|es IH] using node_ind'; intros p.
  - simpl. split; [by intros ?%elem_of_nil|]. intros [Hp [Hl _]]. by destruct p.
  - simpl. split; [by intros ?%elem_of_nil|]. intros [Hp [Hl _]]. by destruct p.
  - rewrite leaves_Dir, list_elem_of_bind. split.
    + intros [[x n] [Hin Hx%elem_of_map_to_list]]. simpl in Hin.
      destruct (isDirectory n) eqn:Hd.
      * apply list_elem_of_fmap in Hin as [[q e'] [Heq Hin]]. simpl in Heq. simplify_eq.
        apply (IH _ _ Hx) in Hin as [Hq [Hl He]]. split; [done|]. split; [|done].
        rewrite lookup_path_cons, Hx. done.
      * apply list_elem_of_singleton in Hin. simplify_eq. split; [done|]. split; [|done].
        rewrite lookup_path_cons, Hx. done.
    + intros [Hp [Hl He]]. destruct p as [|x p]; [done|].
      rewrite lookup_path_cons in Hl. destruct (es !! x) as [n|] eqn:Hx; [|done]. simpl in Hl.
      exists (x, n). split; [|by apply elem_of_map_to_list]. simpl.
      destruct (isDirectory n) eqn:Hd.
      * apply list_elem_of_fmap. exists (p, e). split; [done|]. apply (IH _ _ Hx).
        split; [|done]. intros ->. simpl in Hl. simplify_eq. unfold is_leaf in He. congruence.
      * destruct p as [|y p].
        -- simpl in Hl. simplify_eq. apply list_elem_of_singleton. done.
        -- rewrite lookup_path_leaf in Hl; done.
Qed.

(** ** [collectFiles] *)



Lemma first_occurrences_app seen l1 l2 :
  first_occurrences seen (l1 ++ l2)
  = first_occurrences seen l1 ++ first_occurrences (seen ∪ list_to_set l1) l2.
Proof.
  revert seen. induction l1 as [|g l1 IH]; intros seen; simpl.
  - by rewrite (right_id_L ∅ (∪)).
  - destruct (decide (g ∈ seen)) as [Hg|Hg].
    + rewrite IH. replace (seen ∪ ({[g]} ∪ list_to_set l1)) with (seen ∪ list_to_set l1 :> gset _)
        by set_solver. done.
    + simpl. rewrite IH. by rewrite (assoc_L (∪)).
Qed.

Lemma statSync_isFile_run f w :
  try_catch
    (let* isFile := statSync_isFile (Cwd, f) in ret isFile)
    (λ _, ret false) w
  = (Ok (resolves_to_file (project w) f), w).
Proof.
  unfold try_catch, bind, statSync_isFile, resolves_to_file, lstat. simpl.
  by destruct (lookup_path f (project w)) as [[|[]|]|].
Qed.

Lemma collect_one_run cwd f res seen w :
  collect_one cwd f (res, seen) w =
    (Ok (if decide (f ∈ seen) then (res, seen)
         else (if resolves_to_file (project w) f then res ++ [vaultFile cwd f] else res,
               seen ∪ {[f]})), w).
Proof.
  unfold collect_one. simpl. destruct (decide (f ∈ seen)); [done|].
  unfold try_catch, bind, statSync_isFile, resolves_to_file, lstat. simpl.
  by destruct (lookup_path f (project w)) as [[|[]|]|].
Qed.

Lemma collect_files_run cwd l res seen w :
  foldM l (collect_one cwd) (res, seen) w =
    (Ok (res ++ (vaultFile cwd <$>
                   filter (λ f, resolves_to_file (project w) f) (first_occurrences seen l)),
         seen ∪ list_to_set l), w).
Proof.
  revert res seen. induction l as [|f l IH]; intros res seen; simpl.
  - unfold ret. by rewrite app_nil_r, (right_id_L ∅ (∪)).
  - unfold bind. rewrite collect_one_run. destruct (decide (f ∈ seen)) as [Hf|Hf].
    + rewrite IH. replace (seen ∪ ({[f]} ∪ list_to_set l)) with (seen ∪ list_to_set l :> gset _)
        by set_solver. done.
    + replace (seen ∪ ({[f]} ∪ list_to_set l)) with (seen ∪ {[f]} ∪ list_to_set l :> gset _)
        by set_solver.
      rewrite IH, filter_cons.
      destruct (resolves_to_file (project w) f) eqn:Hr; simpl.
      * by rewrite <-app_assoc.
      * done.
Qed.

Lemma foldM_cons {A S} (x : A) l (body : A → S → M S) s :
  foldM (x :: l) body s = (let* s' := body x s in foldM l body s').
Proof. done. Qed.

Lemma collect_patterns_run cwd ignore pats res seen w :
  foldM pats
        (λ pattern st, let* files := glob pattern ignore in foldM files (collect_one cwd) st)
        (res, seen) w
  = foldM (pats ≫= (λ pattern, Glob.glob pattern ignore (project w)))
          (collect_one cwd) (res, seen) w.
Proof.
  revert res seen. induction pats as [|pat pats IH]; intros res seen; [done|].
  assert ((let* files := glob pat ignore in foldM files (collect_one cwd) (res, seen)) w
          = foldM (Glob.glob pat ignore (project w)) (collect_one cwd) (res, seen) w) as H
    by done.
  rewrite collect_files_run in H. rewrite foldM_cons, (bind_Ok _ _ _ _ _ H).
  change ((pat :: pats) ≫= ?f) with (f pat ++ (pats ≫= f)). cbv beta.
  etrans; [apply IH|]. rewrite !collect_files_run.
  rewrite first_occurrences_app, filter_app, fmap_app, app_assoc.
  by rewrite list_to_set_app_L, (assoc_L (∪)).
Qed.

(** The closed form of [collectFiles]. *)
Lemma collectFiles_run E cwd w config :
  loadConfig E w = (Ok (Some config), w) →
  collectFiles E cwd w =
    (Ok (vaultFile cwd <$>
           filter (λ f, resolves_to_file (project w) f)
                  (first_occurrences ∅ (candidates config (project w)))), w).
Proof.
  intros Hc. unfold collectFiles. rewrite (bind_Ok _ _ _ _ _ Hc).
  erewrite bind_Ok; [|by rewrite collect_patterns_run, collect_files_run]. done.
Qed.

Lemma collectFiles_uninitialized E cwd w :
  loadConfig E w = (Ok None, w) → collectFiles E cwd w = (Ok [], w).
Proof. intros Hc. unfold collectFiles. by rewrite (bind_Ok _ _ _ _ _ Hc). Qed.

Lemma fmap_bind_list {A B C} (f : B → C) (g : A → list B) (l : list A) :
  f <$> (l ≫= g) = l ≫= (λ x, f <$> g x).
Proof. induction l as [|x l IH]; [done|]. by rewrite !bind_cons, fmap_app, IH. Qed.

Lemma bind_ext_list {A B} (f g : A → list B) (l : list A) :
  (∀ x, x ∈ l → f x = g x) → l ≫= f = l ≫= g.
Proof.
  induction l as [|x l IH]; intros H; [done|]. rewrite !bind_cons.
  rewrite (H x) by left. rewrite IH; [done|]. intros y Hy. apply H. by right.
Qed.












(** ** Updates of a tree, seen from its leaves *)

Lemma leaf_at_nil n e : leaf_at n [] e ↔ n = e ∧ is_leaf n.
Proof. unfold leaf_at. simpl. naive_solver. Qed.

Lemma leaf_at_cons es x p e :
  leaf_at (Dir es) (x :: p) e ↔ ∃ n, es !! x = Some n ∧ leaf_at n p e.
Proof.
  unfold leaf_at. rewrite lookup_path_cons. destruct (es !! x) as [n|]; simpl; naive_solver.
Qed.

Lemma leaf_at_Dir_nil es e : ¬ leaf_at (Dir es) [] e.
Proof. intros [[= <-] ?]. done. Qed.



Lemma mkdir_p_Dir p n n' : mkdir_p p n = Some n' → isDirectory n = true ∧ isDirectory n' = true.
Proof.
  destruct n as [| |es]; [by destruct p..|]. destruct p as [|x p]; simpl.
  - by intros [= <-].
  - destruct (mkdir_p p _); simpl; [|done]. by intros [= <-].
Qed.


Lemma lookup_mkdir_p p n n' :
  mkdir_p p n = Some n' → ∃ es, lookup_path p n' = Some (Dir es).
Proof.
  revert n n'. induction p as [|x p IH]; intros n n'.
  - destruct n; simpl; intros; simplify_eq. eauto.
  - destruct n as [| |es]; simpl; try done.
    destruct (mkdir_p p _) as [child'|] eqn:Hm; simpl; [|done]. intros [= <-].
    rewrite lookup_insert_eq. simpl. eauto.
Qed.

Lemma mkdir_p_id p n es : lookup_path p n = Some (Dir es) → mkdir_p p n = Some n.
Proof.
  revert n. induction p as [|x p IH]; intros n.
  - simpl. by intros [= ->].
  - destruct n as [| |es']; simpl; try done.
    destruct (es' !! x) as [child|] eqn:Hx; simpl; [|done]. intros Hl.
    rewrite (IH _ Hl). simpl. by rewrite insert_id.
Qed.

Lemma mkdir_p_idemp p n n' : mkdir_p p n = Some n' → mkdir_p p n' = Some n'.
Proof. intros [es Hes]%lookup_mkdir_p. by eapply mkdir_p_id. Qed.

(** [mkdir_p] succeeds exactly when no component on the way is a file or a
    link. *)
Lemma mkdir_p_Some p n :
  is_Some (mkdir_p p n) ↔ ∀ q k e, p = q ++ k → lookup_path q n = Some e → isDirectory e = true.
Proof.
  revert n. induction p as [|x p IH]; intros n.
  - destruct n as [| |es]; simpl.
    + split; [by intros []|]. intros H. by specialize (H [] [] _ eq_refl eq_refl).
    + split; [by intros []|]. intros H. by specialize (H [] [] _ eq_refl eq_refl).
    + split; [|eauto]. intros _ q k e Hq. symmetry in Hq. apply app_eq_nil in Hq as [-> ->].
      by intros [= <-].
  - destruct n as [| |es]; simpl.
    + split; [by intros []|]. intros H. by specialize (H [] _ _ eq_refl eq_refl).
    + split; [by intros []|]. intros H. by specialize (H [] _ _ eq_refl eq_refl).
    + destruct (mkdir_p p _) as [child'|] eqn:Hm; simpl.
      * split; [|eauto]. intros _ q k e Hq Hl.
        destruct q as [|y q]; [simpl in Hl; by simplify_eq|]. simpl in Hq. simplify_eq.
        rewrite lookup_path_cons in Hl.
        assert (is_Some (mkdir_p (q ++ k) (default (Dir ∅) (es !! y)))) as Hs by eauto.
        rewrite IH in Hs. destruct (es !! y) as [n|]; simpl in Hl; [|done].
        by apply (Hs q k e eq_refl).
      * split; [by intros []|]. intros H. exfalso.
        assert (¬ is_Some (mkdir_p p (default (Dir ∅) (es !! x)))) as Hn by (rewrite Hm; by intros []).
        apply Hn, IH. intros q k e -> Hl.
        destruct (es !! x) as [n|] eqn:Hx; simpl in Hl.
        -- apply (H (x :: q) k e eq_refl). by rewrite lookup_path_cons, Hx.
        -- destruct q; simpl in Hl; [by simplify_eq|]. by rewrite lookup_empty in Hl.
Qed.

Lemma insert_at_nil new n : insert_at [] new n = None.
Proof. by destruct n. Qed.

Lemma insert_at_cons x p new es :
  p ≠ [] →
  insert_at (x :: p) new (Dir es)
  = child ← es !! x; child' ← insert_at p new child; Some (Dir (<[x := child']> es)).
Proof. by destruct p. Qed.

(** [insert_at] succeeds exactly when the parent is a directory. *)
Lemma insert_at_Some p new n :
  is_Some (insert_at p new n) ↔ p ≠ [] ∧ ∃ es, lookup_path (dirname p) n = Some (Dir es).
Proof.
  revert n. induction p as [|x p IH]; intros n.
  - rewrite insert_at_nil. split; [by intros []|naive_solver].
  - destruct p as [|y p].
    + destruct n as [| |es]; simpl; (split; [intros Hs | intros [_ [es' Hl]]]);
        try (by destruct Hs); simplify_eq; eauto.
    + destruct n as [| |es].
      * simpl. split; [by intros []|]. intros [_ [? ?]]. done.
      * simpl. split; [by intros []|]. intros [_ [? ?]]. done.
      * rewrite insert_at_cons by done. unfold dirname.
        change (removelast (x :: y :: p)) with (x :: removelast (y :: p)).
        rewrite lookup_path_cons. destruct (es !! x) as [child|]; cbn [mbind option_bind].
        -- specialize (IH child). unfold dirname in IH.
           destruct (insert_at (y :: p) new child); cbn [mbind option_bind].
           ++ split; [|eauto]. intros _. split; [done|]. apply IH. eauto.
           ++ split; [by intros []|]. intros [_ H].
              assert (is_Some (@None node)) as [] by (apply IH; eauto). done.
        -- split; [by intros []|]. by intros [_ [? ?]].
Qed.




(** ** Empty directories *)


Lemma prune_empty_Dir es :
  prune_empty (Dir es) =
    if decide (omap prune_empty es = ∅) then None else Some (Dir (omap prune_empty es)).
Proof. done. Qed.

(** Pruning keeps every leaf; it removes a tree exactly when it has none. *)
Lemma leaf_at_prune_empty n :
  match prune_empty n with
  | Some n' => (∀ q e, leaf_at n' q e ↔ leaf_at n q e) ∧ ∃ q e, leaf_at n q e
  | None => ∀ q e, ¬ leaf_at n q e
  end.
Proof.
  induction n as [c|r|es IH] using node_ind'.
  - simpl. split; [done|]. exists [], (File c). by apply leaf_at_nil.
  - simpl. split; [done|]. exists [], (Link r). by apply leaf_at_nil.
  - rewrite prune_empty_Dir. destruct (decide (omap prune_empty es = ∅)) as [He|He].
    + intros [|x q] e; [apply leaf_at_Dir_nil|]. rewrite leaf_at_cons. intros [n [Hx Hl]].
      specialize (IH _ _ Hx). assert (omap prune_empty es !! x = None) as Ho
        by (by rewrite He, lookup_empty).
      rewrite lookup_omap, Hx in Ho. simpl in Ho. rewrite Ho in IH. by eapply IH.
    + split.
      * intros [|x q] e; [split; by intros []%leaf_at_Dir_nil|]. rewrite !leaf_at_cons.
        rewrite lookup_omap. destruct (es !! x) as [n|] eqn:Hx; simpl; [|naive_solver].
        specialize (IH _ _ Hx). destruct (prune_empty n) as [n'|].
        -- destruct IH as [IH _]. split; intros [? [[= <-] Hl]]; eexists; (split; [done|]);
             by apply IH.
        -- split; [by intros [? [? _]]|]. intros [? [[= <-] Hl]]. by apply IH in Hl.
      * apply map_choose in He as [x [n' Hx]]. rewrite lookup_omap in Hx.
        destruct (es !! x) as [n|] eqn:Hx'; simpl in Hx; [|done].
        specialize (IH _ _ Hx'). rewrite Hx in IH. destruct IH as [_ [q [e Hl]]].
        exists (x :: q), e. apply leaf_at_cons. eauto.
Qed.


Lemma leaf_at_git_tree n q e : leaf_at (git_tree n) q e ↔ leaf_at n q e.
Proof.
  destruct n as [c|r|es]; [done..|]. simpl.
  destruct q as [|x q]; [split; by intros []%leaf_at_Dir_nil|]. rewrite !leaf_at_cons.
  rewrite lookup_omap. destruct (es !! x) as [n|] eqn:Hx; simpl; [|naive_solver].
  pose proof (leaf_at_prune_empty n) as Hn. destruct (prune_empty n) as [n'|].
  - destruct Hn as [Hn _]. split; intros [? [[= <-] Hl]]; eexists; (split; [done|]); by apply Hn.
  - split; [by intros [? [? _]]|]. intros [? [[= <-] Hl]]. by apply Hn in Hl.
Qed.


(** ** Names and path strings *)

Lemma split_no_sep s : Str.has_char "/" s = false → Str.split "/" s = [s].
Proof.
  induction s as [|c s IH]; [done|]. simpl. intros [Hc Hs]%orb_false_iff.
  rewrite (Ascii.eqb_sym c), Hc, (IH Hs). done.
Qed.

Lemma split_app_sep s t :
  Str.has_char "/" s = false → Str.split "/" (s +:+ String "/" t) = s :: Str.split "/" t.
Proof.
  induction s as [|c s IH]; [done|]. simpl. intros [Hc Hs]%orb_false_iff.
  rewrite (Ascii.eqb_sym c), Hc, (IH Hs). done.
Qed.

Lemma join_cons x l :
  l ≠ [] → Str.join "/" (x :: l) = x +:+ String "/" (Str.join "/" l).
Proof. by destruct l. Qed.

Lemma split_join l :
  l ≠ [] → Forall (λ s, Str.has_char "/" s = false) l → Str.split "/" (Str.join "/" l) = l.
Proof.
  induction l as [|x l IH]; [done|]. intros _ [Hx Hl]%Forall_cons.
  destruct (decide (l = [])) as [->|Hne]; [by apply split_no_sep|].
  rewrite join_cons by done. rewrite split_app_sep by done. by rewrite IH.
Qed.




Lemma resolve_onto_wf rb l :
  Forall wf_name l → resolve_onto rb l = Some (rev rb ++ l).
Proof.
  revert rb. induction l as [|x l IH]; intros rb Hl; simpl.
  - by rewrite app_nil_r.
  - apply Forall_cons in Hl as [(Hx1 & Hx2 & Hx3 & _) Hl].
    destruct (String.eqb_spec x EmptyString); [done|].
    destruct (String.eqb_spec x "."); [done|].
    destruct (String.eqb_spec x ".."); [done|]. simpl.
    rewrite (IH _ Hl). simpl. by rewrite <-app_assoc.
Qed.

Lemma join_wf base l :
  l ≠ [] → Forall wf_name l → join base (Str.join "/" l) = Some (base ++ l).
Proof.
  intros Hne Hl. unfold join. rewrite split_join; [|done|].
  - rewrite resolve_onto_wf by done. by rewrite rev_involutive.
  - eapply Forall_impl; [done|]. by intros s (_ & _ & _ & ?).
Qed.



Lemma string_app_assoc s t u : (s +:+ t) +:+ u = s +:+ t +:+ u.
Proof.
  induction s as [|c s IH]; [done|].
  change (String c ((s +:+ t) +:+ u) = String c (s +:+ t +:+ u)). by rewrite IH.
Qed.





(** ** [copyToVault] on the tree of the temporary directory *)

Lemma set_root_twice a n n' w : set_root a n' (set_root a n w) = set_root a n' w.
Proof. destruct a; simpl; [done|]. by rewrite insert_insert_eq. Qed.

Lemma root_set_root a n w : root a (set_root a n w) = Some n.
Proof. destruct a; simpl; [done|]. by rewrite lookup_insert_eq. Qed.

Lemma set_root_id d c w : tmp w !! d = Some c → set_root (TmpDir d) c w = w.
Proof. intros H. destruct w. simpl in *. by rewrite insert_id. Qed.


Lemma bind_ret {A B} (a : A) (k : A → M B) w : bind (ret a) k w = k a w.
Proof. done. Qed.

Lemma bind_existsSync {B} l (k : bool → M B) w :
  bind (existsSync l) k w = k (exists_node (lstat l w)) w.
Proof. done. Qed.



(** ** Updates of a tree, seen from any path *)

Lemma not_prefix_cons_ne {A} (x y : A) (p q : list A) :
  y ≠ x → ¬ (y :: q) `prefix_of` (x :: p).
Proof. intros Hy Hk%prefix_cons_inv_1. done. Qed.

Lemma not_prefix_cons_inv {A} (x : A) (p q : list A) :
  ¬ (x :: q) `prefix_of` (x :: p) → ¬ q `prefix_of` p.
Proof. intros H Hk. by apply H, prefix_cons. Qed.

Lemma lookup_path_mkdir_p p n n' q :
  mkdir_p p n = Some n' → ¬ q `prefix_of` p → lookup_path q n' = lookup_path q n.
Proof.
  revert n n' q. induction p as [|x p IH]; intros n n' q.
  - destruct n; simpl; intros; by simplify_eq.
  - destruct n as [| |es]; simpl; try done.
    destruct (mkdir_p p _) as [child'|] eqn:Hm; simpl; [|done]. intros [= <-] Hq.
    destruct q as [|y q]; [destruct Hq; apply prefix_nil|].
    rewrite !lookup_path_cons. destruct (decide (y = x)) as [->|Hy].
    + rewrite lookup_insert_eq. simpl. apply not_prefix_cons_inv in Hq.
      rewrite (IH _ _ _ Hm Hq). destruct (es !! x) as [child|]; simpl; [done|].
      destruct q as [|z q]; [destruct Hq; apply prefix_nil|].
      by rewrite lookup_path_cons, lookup_empty.
    + by rewrite lookup_insert_ne.
Qed.

Lemma lookup_path_insert_at_ne p new n n' q :
  insert_at p new n = Some n' → ¬ q `prefix_of` p → ¬ p `prefix_of` q →
  lookup_path q n' = lookup_path q n.
Proof.
  revert n n' q. induction p as [|x p IH]; intros n n' q Hi Hq Hp.
  - by rewrite insert_at_nil in Hi.
  - destruct n as [| |es]; [by destruct p..|].
    destruct q as [|y q]; [destruct Hq; apply prefix_nil|].
    rewrite lookup_path_cons.
    destruct (decide (p = [])) as [->|Hp0].
    + simpl in Hi. simplify_eq. rewrite lookup_path_cons.
      destruct (decide (y = x)) as [->|Hy]; [|by rewrite lookup_insert_ne].
      destruct Hp. apply prefix_cons, prefix_nil.
    + rewrite insert_at_cons in Hi by done.
      destruct (es !! x) as [child|] eqn:Hx; simpl in Hi; [|done].
      destruct (insert_at p new child) as [child'|] eqn:Hc; simpl in Hi; [|done]. simplify_eq.
      rewrite lookup_path_cons.
      destruct (decide (y = x)) as [->|Hy]; [|by rewrite lookup_insert_ne].
      rewrite lookup_insert_eq, Hx. simpl.
      apply (IH _ _ _ Hc); by eapply not_prefix_cons_inv.
Qed.

Lemma lookup_path_insert_at_below p new n n' k :
  insert_at p new n = Some n' → lookup_path (p ++ k) n' = lookup_path k new.
Proof.
  revert n n'. induction p as [|x p IH]; intros n n' Hi.
  - by rewrite insert_at_nil in Hi.
  - destruct n as [| |es]; [by destruct p..|].
    destruct (decide (p = [])) as [->|Hp0].
    + simpl in Hi. simplify_eq. simpl. by rewrite lookup_insert_eq.
    + rewrite insert_at_cons in Hi by done.
      destruct (es !! x) as [child|] eqn:Hx; simpl in Hi; [|done].
      destruct (insert_at p new child) as [child'|] eqn:Hc; simpl in Hi; [|done]. simplify_eq.
      simpl. rewrite lookup_insert_eq. simpl. by apply (IH _ _ Hc).
Qed.

Lemma delete_at_cons x p es :
  p ≠ [] →
  delete_at (x :: p) (Dir es) =
    match es !! x with
    | Some child => Dir (<[x := delete_at p child]> es)
    | None => Dir es
    end.
Proof. by destruct p. Qed.

Lemma delete_at_leaf p n : is_leaf n → delete_at p n = n.
Proof. destruct n; [by destruct p..|done]. Qed.

Lemma lookup_path_delete_at_ne p n q :
  ¬ q `prefix_of` p → ¬ p `prefix_of` q →
  lookup_path q (delete_at p n) = lookup_path q n.
Proof.
  revert n q. induction p as [|x p IH]; intros n q Hq Hp.
  - by destruct n.
  - destruct n as [c|r|es]; [by rewrite delete_at_leaf..|].
    destruct q as [|y q]; [destruct Hq; apply prefix_nil|].
    destruct (decide (p = [])) as [->|Hp0].
    + simpl. destruct (decide (y = x)) as [->|Hy]; [|by rewrite lookup_delete_ne].
      destruct Hp. apply prefix_cons, prefix_nil.
    + rewrite delete_at_cons by done.
      destruct (es !! x) as [child|] eqn:Hx; [|done].
      rewrite !lookup_path_cons.
      destruct (decide (y = x)) as [->|Hy]; [|by rewrite lookup_insert_ne].
      rewrite lookup_insert_eq, Hx. simpl. apply IH; by eapply not_prefix_cons_inv.
Qed.

Lemma lookup_path_delete_at_below p n k :
  p ≠ [] → lookup_path (p ++ k) (delete_at p n) = None.
Proof.
  revert n. induction p as [|x p IH]; intros n Hp; [done|].
  destruct n as [c|r|es]; [by rewrite delete_at_leaf..|].
  destruct (decide (p = [])) as [->|Hp0].
  - simpl. by rewrite lookup_delete_eq.
  - rewrite delete_at_cons by done.
    destruct (es !! x) as [child|] eqn:Hx.
    + simpl. rewrite lookup_insert_eq. simpl. by apply IH.
    + simpl. by rewrite Hx.
Qed.

(** Unlinking below a directory leaves it a directory. *)
Lemma lookup_path_delete_at_above q k n es :
  k ≠ [] → lookup_path q n = Some (Dir es) →
  ∃ es', lookup_path q (delete_at (q ++ k) n) = Some (Dir es').
Proof.
  revert n. induction q as [|x q IH]; intros n Hk Hl.
  - simpl in Hl. simplify_eq. simpl. destruct k as [|y k]; [done|].
    destruct k; simpl; [eauto|]. destruct (es !! y); eauto.
  - destruct n as [c|r|es0]; [done..|]. rewrite lookup_path_cons in Hl.
    destruct (es0 !! x) as [child|] eqn:Hx; simpl in Hl; [|done].
    change ((x :: q) ++ k) with (x :: (q ++ k)).
    rewrite delete_at_cons by (by destruct q, k). rewrite Hx.
    rewrite lookup_path_cons, lookup_insert_eq. simpl. by apply IH.
Qed.

Lemma insert_at_id p n e : p ≠ [] → lookup_path p n = Some e → insert_at p e n = Some n.
Proof.
  revert n. induction p as [|x p IH]; intros n Hp Hl; [done|].
  destruct n as [c|r|es]; [done..|]. rewrite lookup_path_cons in Hl.
  destruct (es !! x) as [child|] eqn:Hx; simpl in Hl; [|done].
  destruct (decide (p = [])) as [->|Hp0].
  - simpl in *. simplify_eq. by rewrite insert_id.
  - rewrite insert_at_cons by done. rewrite Hx. simpl. rewrite (IH _ Hp0 Hl). simpl.
    by rewrite insert_id.
Qed.

Lemma dirname_cons x p : p ≠ [] → dirname (x :: p) = x :: dirname p.
Proof. by destruct p. Qed.

Lemma dirname_app p x : dirname (p ++ [x]) = p.
Proof. unfold dirname. apply removelast_last. Qed.

Lemma dirname_app_ne p k : k ≠ [] → dirname (p ++ k) = p ++ dirname k.
Proof. intros Hk. unfold dirname. by apply removelast_app. Qed.


(** The parent of an entry is a directory. *)
Lemma lookup_path_dirname p n e :
  p ≠ [] → lookup_path p n = Some e → ∃ es, lookup_path (dirname p) n = Some (Dir es).
Proof.
  intros Hp Hl. destruct (exists_last Hp) as [q [x ->]]. rewrite dirname_app.
  rewrite lookup_path_app in Hl. destruct (lookup_path q n) as [[| |es]|]; simpl in Hl; try done.
  eauto.
Qed.

(** ** [copyToVault], seen from the leaves of the clone *)






(** ** The collected files of a project with portable names *)





(** ** [removeExcludedFromVault], seen from the leaves of the clone *)




(** ** Empty directories and the tree that git records *)

Lemma omap_prune_empty_None (es : gmap string node) x :
  omap prune_empty es = ∅ → es !! x = None ∨ ∃ n, es !! x = Some n ∧ prune_empty n = None.
Proof.
  intros He. assert (omap prune_empty es !! x = None) as Hx by (by rewrite He, lookup_empty).
  rewrite lookup_omap in Hx. destruct (es !! x) as [n|]; [right|by left]. eauto.
Qed.

Lemma lookup_path_prune_empty_None q n :
  prune_empty n = None → lookup_path q n ≫= prune_empty = None.
Proof.
  revert n. induction q as [|x q IH]; intros n Hn; [done|].
  destruct n as [| |es]; [done..|]. rewrite prune_empty_Dir in Hn.
  destruct (decide (omap prune_empty es = ∅)) as [He|]; [|done].
  rewrite lookup_path_cons.
  destruct (omap_prune_empty_None es x He) as [->|(m & -> & Hm)]; [done|]. simpl. by apply IH.
Qed.

Lemma lookup_path_omap_prune_empty x q es :
  lookup_path (x :: q) (Dir (omap prune_empty es))
  = lookup_path (x :: q) (Dir es) ≫= prune_empty.
Proof.
  revert x es. induction q as [|y q IH]; intros x es.
  - simpl. rewrite lookup_omap. destruct (es !! x) as [m|]; [|done]. simpl.
    by destruct (prune_empty m).
  - rewrite !lookup_path_cons, lookup_omap.
    destruct (es !! x) as [m|]; [|done]. cbn [mbind option_bind].
    destruct m as [| |es']; [done..|]. rewrite prune_empty_Dir.
    destruct (decide (omap prune_empty es' = ∅)) as [He|He]; cbn [mbind option_bind].
    + symmetry. apply (lookup_path_prune_empty_None (y :: q) (Dir es')).
      rewrite prune_empty_Dir. by rewrite decide_True.
    + apply IH.
Qed.

(** Below its root the tree of a commit holds what pruning leaves. *)
Lemma lookup_path_git_tree q n :
  q ≠ [] → lookup_path q (git_tree n) = lookup_path q n ≫= prune_empty.
Proof.
  intros Hq. destruct q as [|x q]; [done|]. destruct n as [| |es]; [done..|].
  apply lookup_path_omap_prune_empty.
Qed.






(** ** The copy-in phase of [storeToVault] *)








(** ** [removeExcludedFromVault] on the tree of the temporary directory *)

Lemma lstat_tmp vp p w c : tmp w !! vp = Some c → lstat (TmpDir vp, p) w = lookup_path p c.
Proof. intros Hc. unfold lstat. cbn [fst snd root]. by rewrite Hc. Qed.

Lemma unlink_tmp vp f w c :
  tmp w !! vp = Some c → f ≠ [] →
  unlink (TmpDir vp, f) w = set_root (TmpDir vp) (delete_at f c) w.
Proof.
  intros Hc Hf. destruct f as [|x f]; [done|]. unfold unlink, set_root. f_equal.
  apply map_eq. intros d. destruct (decide (d = vp)) as [->|Hd].
  - by rewrite lookup_alter_eq, lookup_insert_eq, Hc.
  - by rewrite lookup_alter_ne, lookup_insert_ne.
Qed.


Lemma tmp_set_root vp c w : tmp (set_root (TmpDir vp) c w) !! vp = Some c.
Proof. apply (root_set_root (TmpDir vp)). Qed.


Lemma readdirSync_tmp vp p w c :
  tmp w !! vp = Some c →
  readdirSync (TmpDir vp, p) w =
    match lookup_path p c with
    | Some (Dir es) => (Ok es, w)
    | Some _ => (Throw "ENOTDIR", w)
    | None => (Throw "ENOENT", w)
    end.
Proof. intros Hc. unfold readdirSync. by rewrite (lstat_tmp _ _ _ _ Hc). Qed.



(** ** [storeToVault] in closed form *)

Lemma loadConfig_same_project E w1 w2 r :
  project w1 = project w2 → loadConfig E w1 = (r, w1) → loadConfig E w2 = (r, w2).
Proof.
  intros Hp H1. pose proof (loadConfig_project E w1 w2 Hp) as Hr. rewrite H1 in Hr.
  destruct (loadConfig E w2) as [r2 w2'] eqn:H2. apply loadConfig_frame in H2 as ->.
  simpl in Hr. by subst.
Qed.


Lemma git_add_commit_run d w work head :
  tmp w !! d = Some work → repos w !! d = Some head →
  git_add_commit d w = (Ok tt, set_repo d (git_tree work) w).
Proof. intros Hw Hh. unfold git_add_commit. by rewrite Hw, Hh. Qed.




Lemma initial_clone_remote E w1 w2 :
  remote w1 = remote w2 → initial_clone E w1 = initial_clone E w2.
Proof. unfold initial_clone. by intros ->. Qed.



(** ** Names, tested *)

Lemma wf_nameb_spec s : wf_nameb s = true → wf_name s.
Proof.
  unfold wf_nameb, wf_name. rewrite !andb_true_iff, !negb_true_iff.
  intros [[[H1 H2] H3] H4]. repeat split; try done; intros ->; done.
Qed.


Lemma names_ok_Dir f es :
  names_ok f (Dir es) = true ↔ ∀ x n, es !! x = Some n → f x = true ∧ names_ok f n = true.
Proof.
  cbn [names_ok]. rewrite map_fold_foldr.
  assert (∀ l : list (string * node),
            foldr (λ '(name, e) acc, f name && names_ok f e && acc) true l = true ↔
            ∀ x n, (x, n) ∈ l → f x = true ∧ names_ok f n = true) as Hfold.
  { induction l as [|[y m] l IH]; simpl.
    - split; [|done]. by intros _ x n ?%elem_of_nil.
    - rewrite !andb_true_iff, IH. split.
      + intros [[? ?] Hall] x n [[= -> ->]|?]%elem_of_cons; [done|by apply Hall].
      + intros Hall. split; [apply Hall; by left|]. intros x n ?. apply Hall. by right. }
  rewrite Hfold. by setoid_rewrite elem_of_map_to_list.
Qed.

Lemma names_ok_spec f n p e :
  names_ok f n = true → lookup_path p n = Some e → Forall (λ s, f s = true) p.
Proof.
  revert n. induction p as [|x p IH]; intros n Hok Hl; [constructor|].
  destruct n as [| |es]; [done..|]. rewrite lookup_path_cons in Hl.
  destruct (es !! x) as [m|] eqn:Hx; simpl in Hl; [|done].
  destruct (proj1 (names_ok_Dir f es) Hok x m Hx) as [Hf Hm].
  constructor; [done|]. by apply (IH m).
Qed.

Lemma names_ok_wf n : names_ok wf_nameb n = true → wf_tree n.
Proof.
  intros Hok p e Hl. eapply Forall_impl; [by eapply names_ok_spec|]. apply wf_nameb_spec.
Qed.


(** ** C4: a second store finds nothing to do *)




(** ** [copyFromVault] on the tree of the project *)

Lemma set_root_Cwd_id w : set_root Cwd (project w) w = w.
Proof. by destruct w. Qed.

Lemma pull_leaves_app wsn sp prefix l1 l2 count P :
  pull_leaves wsn sp prefix (l1 ++ l2) count P =
    match pull_leaves wsn sp prefix l1 count P with
    | (Ok c1, P1) => pull_leaves wsn sp prefix l2 c1 P1
    | (Throw e, P1) => (Throw e, P1)
    end.
Proof.
  revert count P. induction l1 as [|pe l1 IH]; intros count P; [done|].
  rewrite <-app_comm_cons. cbn [pull_leaves].
  destruct (write_tree wsn sp prefix pe P) as [[b|e] P']; [apply IH|done].
Qed.

Lemma write_tree_cons wsn sp prefix name p e P :
  p ≠ [] →
  write_tree wsn sp prefix (name :: p, e) P
  = write_tree wsn sp (child_rel prefix name) (p, e) P.
Proof.
  intros Hp. unfold write_tree. cbn [fst snd].
  assert (List.last (name :: p) EmptyString = List.last p EmptyString) as ->
    by (by destruct p).
  done.
Qed.

Lemma pull_leaves_cons wsn sp prefix name l count P :
  (∀ pe, pe ∈ l → pe.1 ≠ []) →
  pull_leaves wsn sp prefix (prod_map (cons name) id <$> l) count P
  = pull_leaves wsn sp (child_rel prefix name) l count P.
Proof.
  revert count P. induction l as [|[p e] l IH]; intros count P Hne; [done|].
  rewrite fmap_cons. cbn [pull_leaves prod_map fst snd id].
  rewrite write_tree_cons by (apply (Hne (p, e)); by left).
  destruct (write_tree _ _ _ _ _) as [[b|err] P']; [|done].
  apply IH. intros pe Hpe. apply Hne. by right.
Qed.

Lemma writeFileSync_Cwd dest data w :
  writeFileSync (Cwd, dest) data w =
    match lookup_path dest (project w) with
    | Some (Dir _) | Some (Link ToDir) => (Throw "EISDIR", w)
    | old =>
        match insert_at dest (match old with
                              | Some (Link _) => Link (ToFile data)
                              | _ => File data
                              end) (project w) with
        | Some P2 => (Ok tt, set_root Cwd P2 w)
        | None => (Throw "ENOENT", w)
        end
    end.
Proof.
  unfold writeFileSync, lstat, update_root. cbn [fst snd root mbind option_bind].
  by destruct (lookup_path dest (project w)) as [[|[]|]|].
Qed.

(** One file of the walk, the rest of the walk being [rest]. *)
Lemma walk_copy_file wsn sp prefix name e (rest : nat → M nat) count w :
  (if negb (path_selected sp (wsn +:+ "/" +:+ child_rel prefix name)
                          (child_rel prefix name) name)
   then rest count
   else
     let* dest := located Cwd [] (child_rel prefix name) in
     let destDir : abspath := (dest.1, dirname dest.2) in
     let* there := existsSync destDir in
     (if negb there then mkdirSync_recursive destDir else ret tt);;
     let* data := lift (read_node (Some e)) in
     writeFileSync dest data;;
     rest (S count)) w
  = match write_tree wsn sp prefix ([name], e) (project w) with
    | (Ok written, P') => rest (if written then S count else count) (set_root Cwd P' w)
    | (Throw err, P') => (Throw err, set_root Cwd P' w)
    end.
Proof.
  unfold write_tree. cbn [fst snd List.last].
  change (rel_of prefix [name]) with (child_rel prefix name).
  destruct (path_selected _ _ _ _); cbn [negb]; [|by rewrite set_root_Cwd_id].
  unfold located. destruct (join [] (child_rel prefix name)) as [dest|];
    [|by rewrite set_root_Cwd_id].
  rewrite bind_ret. cbn [fst snd]. rewrite bind_existsSync.
  unfold lstat at 1. cbn [fst snd root mbind option_bind].
  assert (∀ P1 w1, project w1 = P1 → (∀ X, set_root Cwd X w1 = set_root Cwd X w) →
            w1 = set_root Cwd P1 w →
            (let* data := lift (read_node (Some e)) in
             writeFileSync (Cwd, dest) data;; rest (S count)) w1
            = match read_node (Some e) with
              | Ok data =>
                  match lookup_path dest P1 with
                  | Some (Dir _) | Some (Link ToDir) => (Throw "EISDIR", set_root Cwd P1 w)
                  | old =>
                      match insert_at dest (match old with
                                            | Some (Link _) => Link (ToFile data)
                                            | _ => File data
                                            end) P1 with
                      | Some P2 => rest (S count) (set_root Cwd P2 w)
                      | None => (Throw "ENOENT", set_root Cwd P1 w)
                      end
                  end
              | Throw err => (Throw err, set_root Cwd P1 w)
              end) as Hwrite.
  { intros P1 w1 HP1 Hset Hw1. unfold lift, bind at 1.
    destruct (read_node (Some e)) as [data|err]; [|by rewrite Hw1].
    unfold bind. rewrite writeFileSync_Cwd, HP1.
    destruct (lookup_path dest P1) as [[|[]|]|];
      try (by rewrite Hw1);
      (destruct (insert_at dest _ P1) as [P2|]; [by rewrite Hset|by rewrite Hw1]). }
  destruct (exists_node (lookup_path (dirname dest) (project w))); cbn [negb].
  - rewrite bind_ret. rewrite (Hwrite (project w) w); [|done|done|by rewrite set_root_Cwd_id].
    destruct (read_node (Some e)) as [data|err]; [|done].
    destruct (lookup_path dest (project w)) as [[|[]|]|]; try done;
      by destruct (insert_at dest _ (project w)).
  - unfold mkdirSync_recursive, update_root. cbn [fst snd root mbind option_bind].
    destruct (mkdir_p (dirname dest) (project w)) as [P1|] eqn:Hm.
    + unfold bind at 1. rewrite Hm.
      rewrite (Hwrite P1 (set_root Cwd P1 w)); [|done|by intros X; rewrite set_root_twice|done].
      destruct (read_node (Some e)) as [data|err]; [|done].
      destruct (lookup_path dest P1) as [[|[]|]|]; try done;
        by destruct (insert_at dest _ P1).
    + unfold bind at 1. rewrite Hm. by rewrite set_root_Cwd_id.
Qed.

Lemma walk_copy_run wsn sp prefix n count w :
  walk_copy wsn sp prefix n count w =
    let '(r, P') := pull_leaves wsn sp prefix (leaves n) count (project w) in
    (r, set_root Cwd P' w).
Proof.
  revert prefix count w. induction n as [c|r|es IH] using node_ind'; intros prefix count w;
    [by rewrite <-(set_root_Cwd_id w) at 1..|].
  cbn [walk_copy]. rewrite map_fold_foldr, leaves_Dir.
  assert (∀ x m, (x, m) ∈ map_to_list es → es !! x = Some m) as Hin
    by (intros x m; apply elem_of_map_to_list).
  revert count w Hin. generalize (map_to_list es). intros l.
  induction l as [|[x m] l IHl]; intros count w Hin.
  - cbn [foldr mbind list_bind pull_leaves]. unfold ret. by rewrite set_root_Cwd_id.
  - rewrite bind_cons, pull_leaves_app. cbn [foldr uncurry fst snd].
    assert (∀ count w,
              foldr (uncurry (λ name e (rest : nat → M nat) count,
                       let rel := child_rel prefix name in
                       let vaultRel := wsn +:+ "/" +:+ rel in
                       if isDirectory e
                       then let* count := walk_copy wsn sp rel e count in rest count
                       else if negb (path_selected sp vaultRel rel name) then rest count
                       else
                         let* dest := located Cwd [] rel in
                         let destDir : abspath := (dest.1, dirname dest.2) in
                         let* there := existsSync destDir in
                         (if negb there then mkdirSync_recursive destDir else ret tt);;
                         let* data := lift (read_node (Some e)) in
                         writeFileSync dest data;;
                         rest (S count))) ret l count w
              = let '(r, P') :=
                  pull_leaves wsn sp prefix
                    (l ≫= λ kv, if isDirectory kv.2
                                then prod_map (cons kv.1) id <$> leaves kv.2
                                else [([kv.1], kv.2)]) count (project w) in
                (r, set_root Cwd P' w)) as Hrest.
    { intros count' w'. apply IHl. intros y k Hy. apply Hin. by right. }
    destruct (isDirectory m) eqn:Hd.
    + unfold bind. rewrite (IH x m) by (apply Hin; by left).
      rewrite pull_leaves_cons by (by intros [p e] [? _]%elem_of_leaves).
      destruct (pull_leaves wsn sp (child_rel prefix x) (leaves m) count (project w))
        as [[c1|err] P1]; [|done].
      rewrite Hrest. change (project (set_root Cwd P1 w)) with P1.
      destruct (pull_leaves _ _ _ _ c1 P1) as [r P2]. by rewrite set_root_twice.
    + rewrite walk_copy_file. cbn [pull_leaves].
      destruct (write_tree wsn sp prefix ([x], m) (project w)) as [[b|err] P1]; [|done].
      rewrite Hrest. change (project (set_root Cwd P1 w)) with P1.
      destruct (pull_leaves _ _ _ _ _ P1) as [r P2]. by rewrite set_root_twice.
Qed.



(** ** What a pull writes *)

Lemma elem_of_proper_prefixes p q :
  q ∈ proper_prefixes p ↔ ∃ k, p = q ++ k ∧ k ≠ [].
Proof.
  revert q. induction p as [|x p IH]; intros q; cbn [proper_prefixes].
  - split; [by intros ?%elem_of_nil|]. intros (k & Hk & Hne). by destruct q, k.
  - rewrite elem_of_cons, list_elem_of_fmap. setoid_rewrite IH. split.
    + intros [->|(q' & -> & k & -> & Hk)]; [by exists (x :: p)|]. by exists k.
    + intros (k & Hk & Hne). destruct q as [|y q]; [by left|right].
      simplify_eq/=. exists q. split; [done|]. by exists k.
Qed.

Lemma can_write_spec P p :
  can_write P p = true ↔
    (∀ q k x, p = q ++ k → k ≠ [] → lookup_path q P = Some x → isDirectory x = true)
    ∧ (∀ x, lookup_path p P = Some x → isDirectory x = false ∧ x ≠ Link ToDir).
Proof.
  unfold can_write. rewrite andb_true_iff, forallb_forall.
  setoid_rewrite <-list_elem_of_In. setoid_rewrite elem_of_proper_prefixes. split.
  - intros [Hpre Hat]. split.
    + intros q k x -> Hk Hx. specialize (Hpre q (ex_intro _ k (conj eq_refl Hk))).
      by rewrite Hx in Hpre.
    + intros x Hx. rewrite Hx in Hat. by destruct x as [|[]|].
  - intros [Hpre Hat]. split.
    + intros q (k & -> & Hk). destruct (lookup_path q P) as [x|] eqn:Hx; [|done].
      by apply (Hpre q k x).
    + destruct (lookup_path p P) as [x|]; [|done]. destruct (Hat x eq_refl) as [Hd Hl].
      by destruct x as [|[]|].
Qed.









(** ** C5: what a store has put in the vault, a pull brings back *)



(** ** C3: the copy-in phase prunes the partition *)





(** ** C2: one partition for each workspace name *)





(** ** C9: what [listVaultFiles] lists, and in which order *)

Lemma walk_list_leaves prefix n :
  walk_list prefix n = (λ pe, rel_of prefix pe.1) <$> leaves n.
Proof.
  revert prefix. induction n as [c|r|es IH] using node_ind'; intros prefix; [done..|].
  rewrite leaves_Dir, fmap_bind_list. cbn [walk_list]. rewrite map_fold_app.
  apply bind_ext_list. intros [x e] Hx%elem_of_map_to_list. cbn [fst snd].
  destruct (isDirectory e); [|done]. rewrite (IH _ _ Hx).
  by rewrite <-list_fmap_compose.
Qed.

Lemma elem_of_walk_list prefix n s :
  s ∈ walk_list prefix n ↔ ∃ p e, p ≠ [] ∧ leaf_at n p e ∧ s = rel_of prefix p.
Proof.
  rewrite walk_list_leaves, list_elem_of_fmap. split.
  - intros [[p e] [-> [? ?]%elem_of_leaves]]. eauto.
  - intros [p [e [Hp [Hl ->]]]]. exists (p, e). split; [done|]. by apply elem_of_leaves.
Qed.

Lemma sort_sorted l : StronglySorted String.le (sort l).
Proof. apply StronglySorted_merge_sort; apply _. Qed.

Lemma elem_of_sort l s : s ∈ sort l ↔ s ∈ l.
Proof. unfold sort. by rewrite merge_sort_Permutation. Qed.

Lemma listVaultFiles_Ok vaultPath w l w' :
  listVaultFiles vaultPath w = (Ok l, w') → StronglySorted String.le l.
Proof.
  unfold listVaultFiles, existsSync, readdirSync, bind, ret.
  destruct (lstat _ w) as [[c|[c| |]|es]|] eqn:Hl; simpl; rewrite ?Hl; intros H;
    simplify_eq; first [apply sort_sorted | constructor].
Qed.

(** Whatever [withTempVault] returns has been returned by its callback. *)
Lemma withTempVault_Ok_inv {T} E cwd (fn : string → string → OnPhase → M T) opts w r w' :
  withTempVault E cwd fn opts w = (Ok r, w') →
  ∃ vaultPath git ctx w1 w2, fn vaultPath git ctx w1 = (Ok r, w2).
Proof.
  unfold withTempVault, bind at 1.
  destruct (loadConfig E w) as [[[config|]|e] w0]; [|done..].
  destruct (String.eqb _ _); [done|].
  unfold bind at 1. destruct (mkdtempSync _ _ _) as [[tempDir|e] w1]; [|done].
  assert (∀ b : bool, (if b then ensureGhGitAuth else ret tt) w1 = (Ok tt, w1)) as Hauth
    by (by intros []).
  rewrite (bind_Ok _ _ _ _ _ (Hauth _)).
  unfold try_finally, bind, rmSync_recursive_force.
  destruct (call_opt opts _ w1) as [[[]|e] w3]; [|done].
  destruct (try_catch _ _ w3) as [[[]|e] w4]; [|done].
  destruct (fn tempDir tempDir opts w4) as [[r'|e] w5] eqn:Hfn; [|done].
  intros [= <- <-]. eauto 10.
Qed.

(** C9, amended: [listVaultFiles] sorts the paths of the files below the
    content root [vault] of the clone, each path being relative to that root
    and so starting with the name of a workspace; after a store of the
    project holding [README.md] and [node_modules/pkg/readme.md], the list
    is [proj/README.md], preceded by [.gitkeep] when the store had to
    bootstrap the vault. *)
Theorem listVaultFiles_sorted_from_content_root :
  (∀ vaultPath w,
     match lstat (TmpDir vaultPath, ["vault"]) w with
     | Some (Dir es) =>
         ∃ l, listVaultFiles vaultPath w = (Ok l, w)
              ∧ StronglySorted String.le l
              ∧ ∀ s, s ∈ l ↔
                     ∃ p e, p ≠ [] ∧ leaf_at (Dir es) p e ∧ s = rel_of EmptyString p
     | None | Some (Link Dangling) => listVaultFiles vaultPath w = (Ok [], w)
     | Some _ => listVaultFiles vaultPath w = (Throw "ENOTDIR", w)
     end)
  ∧ (∀ E cwd opts w l w',
       listVaultFilesRemote E cwd opts w = (Ok l, w') → StronglySorted String.le l)
  ∧ (let run := storeToVault readme_env "/home/alice/proj" None (readme_world None) in
     run.1 = Ok 1
     ∧ (listVaultFilesRemote readme_env "/home/alice/proj" None run.2).1
       = Ok [".gitkeep"; "proj/README.md"])
  ∧ (let run := storeToVault readme_env "/home/alice/proj" None
                  (readme_world (Some (Dir ∅))) in
     run.1 = Ok 1
     ∧ (listVaultFilesRemote readme_env "/home/alice/proj" None run.2).1
       = Ok ["proj/README.md"]).
Proof.
  split; [|split; [|split]].
  - intros vaultPath w. unfold listVaultFiles, existsSync, readdirSync, bind, ret.
    destruct (lstat _ w) as [[c|[c| |]|es]|] eqn:Hl; cbn -[walk_list sort lstat];
      rewrite ?Hl; try done.
    eexists. split; [done|]. split; [apply sort_sorted|].
    intros s. by rewrite elem_of_sort, elem_of_walk_list.
  - intros E cwd opts w l w' Hrun.
    apply (withTempVault_Ok_inv E cwd) in Hrun as (vaultPath & _ & _ & w1 & w2 & Hrun).
    exact (listVaultFiles_Ok _ _ _ _ Hrun).
  - split; vm_compute; reflexivity.
  - split; vm_compute; reflexivity.
Qed.

(** C9 as stated fails: the paths are relative to the content root, so after
    the store the list is not the bare [README.md]. *)
Lemma list_after_store_is_not_bare_README :
  ¬ (∀ n w1 l w2,
       storeToVault readme_env "/home/alice/proj" None (readme_world None) = (Ok n, w1) →
       listVaultFilesRemote readme_env "/home/alice/proj" None w1 = (Ok l, w2) →
       l = ["README.md"]).
Proof.
  intros H.
  destruct (storeToVault readme_env "/home/alice/proj" None (readme_world None))
    as [r w1] eqn:Hs.
  assert ((storeToVault readme_env "/home/alice/proj" None (readme_world None)).1 = Ok 1)
    as Hr by (vm_compute; reflexivity).
  assert ((listVaultFilesRemote readme_env "/home/alice/proj" None
             (storeToVault readme_env "/home/alice/proj" None (readme_world None)).2).1
          = Ok [".gitkeep"; "proj/README.md"]) as Hl by (vm_compute; reflexivity).
  rewrite Hs in Hr, Hl. cbn [fst snd] in Hr, Hl. subst r.
  destruct (listVaultFilesRemote _ _ _ w1) as [l w2] eqn:Hlist. cbn [fst] in Hl. subst l.
  specialize (H _ _ _ _ eq_refl Hlist). clear -H. discriminate H.
Qed.

Lemma listVaultFiles_sorted_from_content_root_witness :
  StronglySorted String.le [".gitkeep"; "proj/README.md"].
Proof.
  destruct listVaultFiles_sorted_from_content_root as (_ & Hsorted & _).
  apply (Hsorted readme_env "/home/alice/proj" None
           (storeToVault readme_env "/home/alice/proj" None (readme_world None)).2
           [".gitkeep"; "proj/README.md"]
           (listVaultFilesRemote readme_env "/home/alice/proj" None
              (storeToVault readme_env "/home/alice/proj" None (readme_world None)).2).2).
  by_running.
Defined.

(** ** Instances *)

Lemma withTempVault_removes_temp_dir_witness :
  lstat (TmpDir "agvault-Xy12Zw", [])
        (withTempVault readme_env "/home/alice/proj"
           (λ _ _ _, throw "boom" : M nat) None (readme_world None)).2 = None
  ∧ (withTempVault readme_env "/home/alice/proj"
       (λ _ _ _, throw "boom" : M nat) None (readme_world None)).1 = Throw "boom".
Proof.
  destruct (withTempVault_removes_temp_dir readme_env "/home/alice/proj"
              (λ _ _ _, throw "boom" : M nat) None (readme_world None)
              (mkConfig alice_vault DEFAULT_INCLUDE DEFAULT_EXCLUDE "main")
              "agvault-Xy12Zw"
              (set_root (TmpDir "agvault-Xy12Zw") (Dir ∅) (readme_world None)))
    as (_ & Hgone & _).
  - vm_compute; reflexivity.
  - discriminate.
  - vm_compute; reflexivity.
  - split; [exact Hgone | vm_compute; reflexivity].
Defined.

Lemma loadConfig_null_iff_missing_witness :
  loadConfig readme_env broken_world
  = (Throw (invalid_json "Unexpected token"), broken_world).
Proof.
  apply (proj2 (loadConfig_null_iff_missing readme_env broken_world) "{");
    vm_compute; reflexivity.
Defined.




(** ** Instances of the round trips *)








(** * Further properties *)

(** ** Strings as lists of code units *)

Lemma string_app_cons c s t : String c s +:+ t = String c (s +:+ t).
Proof. done. Qed.

Lemma string_app_nil t : EmptyString +:+ t = t.
Proof. done. Qed.

Ltac str_cbn := rewrite ?string_app_cons, ?string_app_nil; cbn.

Lemma lst_app s t : String.list_ascii_of_string (s +:+ t) = String.list_ascii_of_string s ++ String.list_ascii_of_string t.
Proof. induction s as [|c s IH]; [done|]. str_cbn. by rewrite IH. Qed.

Lemma lst_inj s t : String.list_ascii_of_string s = String.list_ascii_of_string t → s = t.
Proof.
  intros H. rewrite <- (String.string_of_list_ascii_of_string s),
    <- (String.string_of_list_ascii_of_string t). by rewrite H.
Qed.

Lemma length_lst s : length (String.list_ascii_of_string s) = String.length s.
Proof. induction s as [|c s IH]; [done|]. str_cbn. by rewrite IH. Qed.

Lemma string_length_app s t :
  String.length (s +:+ t) = String.length s + String.length t.
Proof. induction s as [|c s IH]; [done|]. str_cbn. by rewrite IH. Qed.

Lemma string_app_empty_r s : s +:+ EmptyString = s.
Proof. induction s as [|c s IH]; [done|]. str_cbn. by rewrite IH. Qed.

Lemma endsWith_suffix suf s :
  Str.endsWith suf s = true ↔ String.list_ascii_of_string suf `suffix_of` String.list_ascii_of_string s.
Proof.
  induction s as [|c s IH]; cbn.
  - rewrite orb_false_r, String.eqb_eq. split.
    + intros ->. done.
    + intros H%suffix_nil_inv. by apply lst_inj.
  - rewrite orb_true_iff, IH, String.eqb_eq. split.
    + intros [->|H]; [done|]. by apply suffix_cons_r.
    + intros H. destruct suf as [|a suf]; [right; apply suffix_nil|].
      cbn in H. apply suffix_cons_inv in H as [H|H]; [left; by apply lst_inj|by right].
Qed.

Lemma endsWith_app suf p : Str.endsWith suf (p +:+ suf) = true.
Proof. apply endsWith_suffix. rewrite lst_app. by apply suffix_app_r. Qed.

Lemma endsWith_false suf s :
  ¬ String.list_ascii_of_string suf `suffix_of` String.list_ascii_of_string s → Str.endsWith suf s = false.
Proof. intros H. apply not_true_is_false. by rewrite endsWith_suffix. Qed.

Lemma substring_0_length s : String.substring 0 (String.length s) s = s.
Proof. induction s as [|c s IH]; [done|]. str_cbn. by rewrite IH. Qed.

Lemma substring_0_app r t : String.substring 0 (String.length r) (r +:+ t) = r.
Proof.
  induction r as [|c r IH]; str_cbn.
  - by destruct t.
  - by rewrite IH.
Qed.

Lemma drop_end_app r t n : n = String.length t → drop_end n (r +:+ t) = r.
Proof.
  intros ->. unfold drop_end. rewrite string_length_app.
  replace (String.length r + String.length t - String.length t) with (String.length r) by lia.
  apply substring_0_app.
Qed.

Lemma drop_end_prefix n s : ∃ t, s = drop_end n s +:+ t.
Proof.
  unfold drop_end. generalize (String.length s - n) as k.
  induction s as [|c s IH]; intros k.
  - exists EmptyString. by destruct k.
  - destruct k as [|k]; cbn.
    + by exists (String c s).
    + destruct (IH k) as [t Ht]. exists t. by rewrite string_app_cons, <- Ht.
Qed.

Lemma toLowerCase_app s t :
  Str.toLowerCase (s +:+ t) = Str.toLowerCase s +:+ Str.toLowerCase t.
Proof. induction s as [|c s IH]; [done|]. str_cbn. by rewrite IH. Qed.

Lemma all_chars_app f s t :
  all_chars f (s +:+ t) = all_chars f s && all_chars f t.
Proof. induction s as [|c s IH]; [done|]. str_cbn. by rewrite IH, andb_assoc. Qed.

Lemma all_chars_has_char f d s :
  f d = false → all_chars f s = true → Str.has_char d s = false.
Proof.
  intros Hd. induction s as [|c s IH]; [done|]. cbn.
  intros [Hc Hs]%andb_true_iff. rewrite (IH Hs), orb_false_r.
  destruct (Ascii.eqb_spec d c) as [->|]; congruence.
Qed.

Lemma has_char_lst d s : Str.has_char d s = true ↔ d ∈ String.list_ascii_of_string s.
Proof.
  induction s as [|c s IH]; cbn.
  - split; [done|]. by intros ?%elem_of_nil.
  - rewrite orb_true_iff, IH, elem_of_cons.
    by destruct (Ascii.eqb_spec d c); naive_solver.
Qed.

Lemma all_chars_lst f s : all_chars f s = true ↔ Forall (λ c, f c = true) (String.list_ascii_of_string s).
Proof.
  induction s as [|c s IH]; cbn.
  - done.
  - by rewrite andb_true_iff, IH, Forall_cons.
Qed.

Lemma endsWith_snoc suf a s :
  Str.endsWith (suf +:+ String a EmptyString) (s +:+ String a EmptyString)
  = Str.endsWith suf s.
Proof.
  apply eq_true_iff_eq. rewrite !endsWith_suffix, !lst_app. cbn. split.
  - apply suffix_snoc_inv_2.
  - intros H. by apply suffix_app.
Qed.

Lemma endsWith_snoc_ne suf a s b :
  a ≠ b →
  Str.endsWith (suf +:+ String a EmptyString) (s +:+ String b EmptyString) = false.
Proof.
  intros Hab. apply endsWith_false. rewrite !lst_app. cbn.
  by intros ?%suffix_snoc_inv_1.
Qed.

Lemma endsWith_has_char suf a s :
  Str.endsWith (suf +:+ String a EmptyString) s = true → Str.has_char a s = true.
Proof.
  rewrite endsWith_suffix, lst_app, has_char_lst. intros [k ->].
  rewrite !elem_of_app. right. right. cbn. apply list_elem_of_here.
Qed.

Lemma endsWith_lower suf s :
  Str.endsWith suf s = true →
  Str.endsWith (Str.toLowerCase suf) (Str.toLowerCase s) = true.
Proof.
  induction s as [|c s IH]; cbn; rewrite !orb_true_iff, ?String.eqb_eq.
  - intros [->|]; [by left|done].
  - intros [->|H]; [left|right; auto]. done.
Qed.

(** ** [parseGitHubRepoUrl] *)

Lemma is_repo_char_lower c : is_repo_char (Str.lower_ascii c) = is_repo_char c.
Proof. by destruct c as [[] [] [] [] [] [] [] []]. Qed.

Lemma all_repo_chars_lower s :
  all_chars is_repo_char (Str.toLowerCase s) = all_chars is_repo_char s.
Proof. induction s as [|c s IH]; [done|]. cbn. by rewrite is_repo_char_lower, IH. Qed.

Lemma span_owner_app o c r :
  all_chars is_owner_char o = true → is_owner_char c = false →
  span_owner (o +:+ String c r) = (o, String c r).
Proof.
  intros Ho Hc. induction o as [|a o IH]; str_cbn.
  - by rewrite Hc.
  - cbn in Ho. apply andb_true_iff in Ho as [-> Ho]. by rewrite (IH Ho).
Qed.

Lemma span_owner_spec s o r :
  span_owner s = (o, r) → s = o +:+ r ∧ all_chars is_owner_char o = true.
Proof.
  revert o r. induction s as [|a s IH]; intros o r; cbn.
  - by intros [= <- <-].
  - destruct (is_owner_char a) eqn:Ha.
    + destruct (span_owner s) as [o' r'] eqn:Hs. intros [= <- <-].
      destruct (IH _ _ eq_refl) as [-> Ho]. split; [done|]. cbn. by rewrite Ha.
    + by intros [= <- <-].
Qed.

Lemma match_repo_suffix repo suffix :
  suffix ∈ [EmptyString; ".git"; "/"; ".git/"] →
  repo ≠ EmptyString →
  all_chars is_repo_char repo = true →
  Str.endsWith ".git" (Str.toLowerCase repo) = false →
  match_repo (repo +:+ suffix) = Some repo.
Proof.
  intros Hsuf Hne Hall Hgit.
  assert (Hslash : Str.has_char "/" (Str.toLowerCase repo) = false).
  { apply (all_chars_has_char is_repo_char); [done|]. by rewrite all_repo_chars_lower. }
  assert (Hnb : (repo =? EmptyString)%string = false) by by apply String.eqb_neq.
  unfold match_repo. rewrite toLowerCase_app.
  set (L := Str.toLowerCase repo) in *.
  rewrite !elem_of_cons in Hsuf.
  destruct Hsuf as [->|[->|[->|[->|[]%elem_of_nil]]]]; cbn [String.length].
  - change (Str.toLowerCase EmptyString) with EmptyString. rewrite !string_app_empty_r.
    assert (Str.endsWith ".git/" L = false) as ->.
    { apply not_true_is_false. intros H.
      apply (endsWith_has_char ".git" "/") in H. congruence. }
    rewrite Hgit.
    assert (Str.endsWith "/" L = false) as ->.
    { apply not_true_is_false. intros H.
      apply (endsWith_has_char EmptyString "/") in H. congruence. }
    cbn [andb].
    assert (Str.endsWith EmptyString L = true) as ->.
    { apply endsWith_suffix. apply suffix_nil. }
    assert (drop_end 0 repo = repo) as ->.
    { unfold drop_end. rewrite Nat.sub_0_r. apply substring_0_length. }
    by rewrite Hnb, Hall.
  - change (Str.toLowerCase ".git") with ".git".
    assert (Str.endsWith ".git/" (L +:+ ".git") = false) as ->.
    { replace (L +:+ ".git") with ((L +:+ ".gi") +:+ "t")
        by by rewrite string_app_assoc.
      by apply (endsWith_snoc_ne ".git" "/" _ "t"). }
    cbn [andb]. rewrite (endsWith_app ".git" L).
    rewrite (drop_end_app repo ".git" 4 eq_refl). by rewrite Hnb, Hall.
  - change (Str.toLowerCase "/") with "/".
    assert (Str.endsWith ".git/" (L +:+ "/") = false) as ->.
    { etrans; [apply (endsWith_snoc ".git" "/" L)|exact Hgit]. }
    cbn [andb].
    assert (Str.endsWith ".git" (L +:+ "/") = false) as ->.
    { by apply (endsWith_snoc_ne ".gi" "t" _ "/"). }
    cbn [andb]. rewrite (endsWith_app "/" L).
    rewrite (drop_end_app repo "/" 1 eq_refl). by rewrite Hnb, Hall.
  - change (Str.toLowerCase ".git/") with ".git/".
    rewrite (endsWith_app ".git/" L).
    rewrite (drop_end_app repo ".git/" 5 eq_refl). by rewrite Hnb, Hall.
Qed.

Lemma strip_dot_git_id repo :
  Str.endsWith ".git" (Str.toLowerCase repo) = false → strip_dot_git repo = repo.
Proof.
  intros H. unfold strip_dot_git.
  destruct (Str.endsWith ".git" repo) eqn:He; [|done].
  apply endsWith_lower in He. change (Str.toLowerCase ".git") with ".git" in He.
  congruence.
Qed.

Lemma match_here_github seps sep o0 o' rest r :
  Str.has_char sep seps = true →
  is_word o0 = true → all_chars is_owner_char o' = true →
  match_repo rest = Some r →
  match_here seps ("github.com" +:+ String sep (String o0 o' +:+ String "/" rest))
  = Some (String o0 o' +:+ "/" +:+ strip_dot_git r).
Proof.
  intros Hsep Hw Ho Hr. unfold match_here.
  rewrite !string_app_cons, string_app_nil.
  cbn [Str.startsWith Str.toLowerCase Str.lower_ascii Str.is_upper nat_of_ascii].
  change (Str.startsWith "github.com" _) with true. cbn match.
  cbn [String.length Nat.sub String.substring].
  rewrite substring_0_length, Hsep.
  rewrite <- string_app_cons, (span_owner_app (String o0 o') "/" rest).
  - by rewrite Hw, Hr.
  - cbn. rewrite Ho, andb_true_r. unfold is_owner_char. by rewrite Hw.
  - done.
Qed.

Lemma match_first_skip seps c s :
  match_here seps (String c s) = None →
  match_first seps (String c s) = match_first seps s.
Proof. intros H. cbn [match_first]. by rewrite H. Qed.

Lemma match_first_here seps s r :
  match_here seps s = Some r → match_first seps s = Some r.
Proof. intros H. destruct s; cbn [match_first]; by rewrite H. Qed.

Lemma match_first_inv seps s r :
  match_first seps s = Some r →
  ∃ p s', s = p +:+ s' ∧ match_here seps s' = Some r.
Proof.
  induction s as [|c s IH]; cbn [match_first].
  - destruct (match_here seps EmptyString) eqn:H; [|done].
    intros [= ->]. by exists EmptyString, EmptyString.
  - destruct (match_here seps (String c s)) eqn:H.
    + intros [= ->]. by exists EmptyString, (String c s).
    + intros (p & s' & -> & Hs')%IH. by exists (String c p), s'.
Qed.

Lemma match_repo_inv rest r :
  match_repo rest = Some r → r ≠ EmptyString ∧ all_chars is_repo_char r = true.
Proof.
  unfold match_repo.
  repeat match goal with
  | |- context [if ?a && negb (?x =? EmptyString)%string && ?b then _ else _] =>
      destruct a; cbn [andb]; [destruct (String.eqb_spec x EmptyString); cbn [negb andb];
                               [|destruct b eqn:?; [by intros [= <-]|]]|]
  end; done.
Qed.

Lemma strip_dot_git_repo_chars r :
  all_chars is_repo_char r = true → all_chars is_repo_char (strip_dot_git r) = true.
Proof.
  intros H. unfold strip_dot_git. destruct (Str.endsWith ".git" r); [|done].
  destruct (drop_end_prefix 4 r) as [t Ht]. rewrite Ht, all_chars_app in H.
  by apply andb_true_iff in H as [? _].
Qed.

Lemma match_here_inv seps s r :
  match_here seps s = Some r →
  Str.startsWith "github.com" (Str.toLowerCase s) = true
  ∧ ∃ owner name,
      r = owner +:+ "/" +:+ name ∧ owner ≠ EmptyString
      ∧ all_chars is_owner_char owner = true ∧ all_chars is_repo_char name = true.
Proof.
  unfold match_here.
  destruct (Str.startsWith "github.com" (Str.toLowerCase s)); [|done].
  destruct (String.substring 10 (String.length s - 10) s) as [|sep after]; [done|].
  destruct (Str.has_char sep seps); [|done].
  destruct (span_owner after) as [[|o0 o'] [|c rest]] eqn:Hspan; try done.
  destruct (Ascii.eqb_spec c "/") as [->|Hc].
  2:{ destruct c as [[] [] [] [] [] [] [] []]; done. }
  destruct (is_word o0); [|done].
  destruct (match_repo rest) as [r0|] eqn:Hrepo; [|done].
  cbn. intros [= <-]. split; [done|].
  apply span_owner_spec in Hspan as [_ Ho].
  apply match_repo_inv in Hrepo as [_ Hr0].
  exists (String o0 o'), (strip_dot_git r0). split_and!; [done|done|done|].
  by apply strip_dot_git_repo_chars.
Qed.

Lemma parseGitHubRepoUrl_inv u r :
  parseGitHubRepoUrl u = Some r →
  ∃ seps p s', Str.trim u = p +:+ s' ∧ match_here seps s' = Some r.
Proof.
  unfold parseGitHubRepoUrl.
  destruct (match_first "/:" (Str.trim u)) as [r1|] eqn:H1.
  - intros [= ->]. apply match_first_inv in H1 as (p & s' & ? & ?). by exists "/:", p, s'.
  - intros (p & s' & ? & ?)%match_first_inv. by exists ":", p, s'.
Qed.

Lemma trimStart_suffix s : ∃ a, s = a +:+ Str.trimStart s.
Proof.
  induction s as [|c s [a IH]]; cbn.
  - by exists EmptyString.
  - destruct (Str.is_space c).
    + exists (String c a). by rewrite string_app_cons, <- IH.
    + by exists EmptyString.
Qed.

Lemma trimEnd_prefix s : ∃ b, s = Str.trimEnd s +:+ b.
Proof.
  induction s as [|c s [b IH]]; cbn.
  - by exists EmptyString.
  - destruct (Str.trimEnd s) as [|d t] eqn:Ht.
    + destruct (Str.is_space c).
      * by exists (String c s).
      * exists b. rewrite string_app_cons, string_app_nil.
        rewrite string_app_nil in IH. by rewrite <- IH.
    + exists b. by rewrite string_app_cons, <- IH.
Qed.

Lemma startsWith_includes sub s : Str.startsWith sub s = true → Str.includes sub s = true.
Proof. intros H. destruct s; cbn; by rewrite H. Qed.

(** X1: A URL of one of the two documented forms, with or without [.git] and
    a final slash and whatever white space around it, is parsed to the
    [owner/repo] it was built from. *)
Theorem parseGitHubRepoUrl_round_trip u scheme o0 o' repo suffix :
  scheme ∈ ["https://github.com/"; "git@github.com:"] →
  suffix ∈ [EmptyString; ".git"; "/"; ".git/"] →
  is_word o0 = true →
  all_chars is_owner_char o' = true →
  repo ≠ EmptyString →
  all_chars is_repo_char repo = true →
  Str.endsWith ".git" (Str.toLowerCase repo) = false →
  Str.trim u = scheme +:+ String o0 o' +:+ "/" +:+ repo +:+ suffix →
  parseGitHubRepoUrl u = Some (String o0 o' +:+ "/" +:+ repo).
Proof.
  intros Hscheme Hsuffix Hw Ho Hne Hrepo Hgit Htrim.
  pose proof (match_repo_suffix repo suffix Hsuffix Hne Hrepo Hgit) as Hm.
  unfold parseGitHubRepoUrl. rewrite Htrim.
  assert (∀ sep, Str.has_char sep "/:" = true →
    match_here "/:" ("github.com" +:+ String sep (String o0 o' +:+ "/" +:+ repo +:+ suffix))
    = Some (String o0 o' +:+ "/" +:+ repo)) as Hhere.
  { intros sep Hsep.
    etrans; [exact (match_here_github "/:" sep o0 o' (repo +:+ suffix) repo Hsep Hw Ho Hm)|].
    by rewrite strip_dot_git_id. }
  rewrite !elem_of_cons in Hscheme.
  destruct Hscheme as [->|[->|[]%elem_of_nil]].
  - change ("https://github.com/" +:+ ?x)
      with (String "h" (String "t" (String "t" (String "p" (String "s" (String ":"
             (String "/" (String "/" ("github.com" +:+ String "/" x))))))))).
    do 8 (rewrite match_first_skip by reflexivity).
    by rewrite (match_first_here _ _ _ (Hhere "/"%char eq_refl)).
  - change ("git@github.com:" +:+ ?x)
      with (String "g" (String "i" (String "t" (String "@"
             ("github.com" +:+ String ":" x))))).
    do 4 (rewrite match_first_skip by reflexivity).
    by rewrite (match_first_here _ _ _ (Hhere ":"%char eq_refl)).
Qed.

(** X2: Whatever [parseGitHubRepoUrl] returns is an owner and a repository
    name separated by the only slash of the result, so that the name which
    [storeToVault] puts into its hint, [repo.split("/")[1]], is that
    repository name and never [undefined]. *)
Theorem parseGitHubRepoUrl_owner_and_name u r :
  parseGitHubRepoUrl u = Some r →
  ∃ owner name,
    r = owner +:+ "/" +:+ name
    ∧ Str.split "/" r = [owner; name]
    ∧ owner ≠ EmptyString
    ∧ all_chars is_owner_char owner = true
    ∧ all_chars is_repo_char name = true
    ∧ create_hint (Some r)
      = "Create the repo at https://github.com/new?name=" +:+ name
        +:+ " (private), then run agvault store again.".
Proof.
  intros (seps & p & s' & _ & Hhere)%parseGitHubRepoUrl_inv.
  apply match_here_inv in Hhere as (_ & owner & name & -> & Hne & Ho & Hn).
  assert (Str.split "/" (owner +:+ "/" +:+ name) = [owner; name]) as Hsplit.
  { change (owner +:+ "/" +:+ name) with (owner +:+ String "/" name).
    rewrite split_app_sep by by apply (all_chars_has_char is_owner_char).
    rewrite split_no_sep; [done|]. by apply (all_chars_has_char is_repo_char). }
  exists owner, name. split_and!; try done.
  unfold create_hint. by rewrite Hsplit.
Qed.

(** X3: A URL that does not mention [github.com], in whatever case, is not
    parsed. *)
Theorem parseGitHubRepoUrl_other_host u :
  Str.includes "github.com" (Str.toLowerCase u) = false →
  parseGitHubRepoUrl u = None.
Proof.
  intros Hu. destruct (parseGitHubRepoUrl u) as [r|] eqn:Hr; [|done].
  apply parseGitHubRepoUrl_inv in Hr as (seps & p & s' & Htrim & Hhere).
  apply match_here_inv in Hhere as [Hstart _].
  destruct (trimStart_suffix u) as [a Ha].
  destruct (trimEnd_prefix (Str.trimStart u)) as [b Hb].
  fold (Str.trim u) in Hb. rewrite Htrim in Hb. rewrite Hb in Ha.
  rewrite Ha, !toLowerCase_app in Hu.
  rewrite includes_app_r in Hu; [done|].
  apply includes_app_l, includes_app_r. by apply startsWith_includes.
Qed.

(** ** [src/config.ts]: the project root *)

Lemma dirname_snoc (l : fspath) x : dirname (l ++ [x]) = l.
Proof. unfold dirname. apply removelast_last. Qed.

Lemma prefix_snoc_inv {A} (d l : list A) x :
  d `prefix_of` l ++ [x] → d = l ++ [x] ∨ d `prefix_of` l.
Proof.
  intros [k Hk]. destruct (decide (k = [])) as [->|Hne].
  - left. by rewrite app_nil_r in Hk.
  - right. destruct (exists_last Hne) as (k' & y & ->).
    rewrite app_assoc in Hk. apply app_inj_tail in Hk as [-> _]. by exists k'.
Qed.

Lemma climb_spec fuel disk dir :
  length dir ≤ fuel →
  match climb fuel disk dir with
  | Some r =>
      r `prefix_of` dir
      ∧ exists_node (lookup_path (getConfigPath_in r) disk) = true
      ∧ ∀ d, d `prefix_of` dir →
             exists_node (lookup_path (getConfigPath_in d) disk) = true → d `prefix_of` r
  | None =>
      ∀ d, d `prefix_of` dir → exists_node (lookup_path (getConfigPath_in d) disk) = false
  end.
Proof.
  revert dir. induction fuel as [|fuel IH]; intros dir Hlen.
  - destruct dir; [|cbn in Hlen; lia]. cbn [climb].
    destruct (exists_node (lookup_path (getConfigPath_in []) disk)) eqn:He.
    + split_and!; [done|done|]. by intros d ->%prefix_nil_inv.
    + rewrite decide_True by done. by intros d ->%prefix_nil_inv.
  - cbn [climb].
    destruct (exists_node (lookup_path (getConfigPath_in dir) disk)) eqn:He.
    { split_and!; [done|done|]. by intros. }
    destruct (decide (dir = [])) as [->|Hne].
    { rewrite decide_True by done. by intros d ->%prefix_nil_inv. }
    destruct (exists_last Hne) as (l & x & ->). rewrite dirname_snoc.
    rewrite decide_False; last first.
    { intros H. apply (f_equal length) in H. rewrite length_app in H. cbn in H. lia. }
    rewrite length_app in Hlen. cbn in Hlen.
    specialize (IH l ltac:(lia)).
    destruct (climb fuel disk l) as [r|].
    + destruct IH as (Hr & Hc & Hmax). split_and!; [by apply prefix_app_r|done|].
      intros d [->|Hd]%prefix_snoc_inv Hd'; [congruence|]. by apply Hmax.
    + intros d [->|Hd]%prefix_snoc_inv; [done|]. by apply IH.
Qed.

Lemma normalize_onto_proper rb segs :
  Forall (λ s, s ≠ EmptyString ∧ s ≠ "." ∧ s ≠ "..") rb →
  Forall (λ s, s ≠ EmptyString ∧ s ≠ "." ∧ s ≠ "..") (normalize_onto rb segs).
Proof.
  revert rb. induction segs as [|s segs IH]; intros rb Hrb; cbn [normalize_onto].
  - by apply Forall_rev.
  - destruct (String.eqb_spec s EmptyString) as [|He]; [by apply IH|].
    destruct (String.eqb_spec s ".") as [|Hd]; [by apply IH|]. cbn [orb].
    destruct (String.eqb_spec s "..") as [|Hdd].
    + apply IH. destruct Hrb; [done|]. done.
    + apply IH. by constructor.
Qed.

(** X4: [getProjectRoot] returns the nearest directory, going up from the
    resolved start, in which [existsSync] finds [.agvault/config.json], and
    the resolved start itself when there is none on the way to the root; it
    is a resolved path: none of its components is empty, [.] or [..]. *)
Theorem getProjectRoot_nearest disk process_cwd startDir :
  let start := match startDir with
               | Some s => resolve process_cwd s
               | None => process_cwd
               end in
  let r := getProjectRoot disk process_cwd startDir in
  r `prefix_of` start
  ∧ (∀ d, d `prefix_of` start →
          exists_node (lookup_path (getConfigPath_in d) disk) = true →
          exists_node (lookup_path (getConfigPath_in r) disk) = true ∧ d `prefix_of` r)
  ∧ ((∀ d, d `prefix_of` start →
           exists_node (lookup_path (getConfigPath_in d) disk) = false) →
     r = start)
  ∧ (Forall (λ s, s ≠ EmptyString ∧ s ≠ "." ∧ s ≠ "..") process_cwd →
     Forall (λ s, s ≠ EmptyString ∧ s ≠ "." ∧ s ≠ "..") r).
Proof.
  intros start r.
  assert (r `prefix_of` start →
          Forall (λ s, s ≠ EmptyString ∧ s ≠ "." ∧ s ≠ "..") process_cwd →
          Forall (λ s, s ≠ EmptyString ∧ s ≠ "." ∧ s ≠ "..") r) as Hproper.
  { intros [k Hk] Hcwd.
    assert (Forall (λ s, s ≠ EmptyString ∧ s ≠ "." ∧ s ≠ "..") start) as Hstart.
    { unfold start. destruct startDir as [s|]; [|done]. unfold resolve.
      apply normalize_onto_proper. destruct (Str.startsWith "/" s); [done|].
      by apply Forall_rev. }
    rewrite Hk in Hstart. by apply Forall_app in Hstart as [? _]. }
  revert Hproper. unfold r, getProjectRoot. fold start. intros Hproper.
  pose proof (climb_spec (length start) disk start (reflexivity _)) as H.
  destruct (climb (length start) disk start) as [r'|]; cbn.
  - destruct H as (Hr & Hc & Hmax). split_and!; [done| | |by apply Hproper].
    + intros d Hd Hd'. split; [done|]. by apply Hmax.
    + intros Hno. specialize (Hno r' Hr). congruence.
  - split_and!; [done| |done|by apply Hproper].
    intros d Hd Hd'. specialize (H d Hd). congruence.
Qed.

(** ** [src/config.ts]: saving and changing the configuration *)

Lemma loadConfig_read E w raw r i e b :
  exists_node (lstat getConfigPath w) = true →
  read_node (lstat getConfigPath w) = Ok raw →
  JSON_parse E raw = Fields r i e b →
  loadConfig E w =
    (Ok (Some (mkConfig (default EmptyString r) (default DEFAULT_INCLUDE i)
                        (default DEFAULT_EXCLUDE e) (default "main" b))), w).
Proof.
  intros He Hr Hp. unfold loadConfig. rewrite bind_existsSync, He. cbn [negb].
  unfold try_catch, bind, readFileSync. rewrite Hr, Hp. done.
Qed.

Lemma loadConfig_Some_inv E w config :
  loadConfig E w = (Ok (Some config), w) →
  exists_node (lstat getConfigPath w) = true
  ∧ ∃ raw, read_node (lstat getConfigPath w) = Ok raw.
Proof.
  unfold loadConfig. rewrite bind_existsSync.
  destruct (exists_node (lstat getConfigPath w)) eqn:He; cbn [negb]; [|done].
  intros H. split; [done|].
  unfold try_catch, bind, readFileSync in H.
  destruct (read_node (lstat getConfigPath w)) as [raw|] eqn:Hr; [by exists raw|done].
Qed.

Lemma loadConfig_can_write E w config :
  loadConfig E w = (Ok (Some config), w) →
  can_write (project w) [CONFIG_DIR; CONFIG_FILE] = true.
Proof.
  intros (He & raw & Hr)%loadConfig_Some_inv.
  change (lstat getConfigPath w) with (lookup_path [CONFIG_DIR; CONFIG_FILE] (project w)) in *.
  apply can_write_spec. split.
  - intros q k x Hqk Hk Hq.
    destruct (lookup_path [CONFIG_DIR; CONFIG_FILE] (project w)) as [y|] eqn:Hy; [|done].
    rewrite Hqk, lookup_path_app, Hq in Hy. cbn in Hy.
    destruct k as [|a k]; [done|]. by destruct x.
  - intros x Hx. rewrite Hx in Hr. by destruct x as [|[]|].
Qed.

Lemma saveConfig_run config w :
  can_write (project w) [CONFIG_DIR; CONFIG_FILE] = true →
  ∃ P', saveConfig config w = (Ok tt, set_root Cwd P' w)
        ∧ exists_node (lookup_path [CONFIG_DIR; CONFIG_FILE] P') = true
        ∧ read_node (lookup_path [CONFIG_DIR; CONFIG_FILE] P') = Ok (Json.stringify config)
        ∧ (∀ q, ¬ q `prefix_of` [CONFIG_DIR; CONFIG_FILE] →
                ¬ [CONFIG_DIR; CONFIG_FILE] `prefix_of` q →
                lookup_path q P' = lookup_path q (project w)).
Proof.
  intros [Hup Hat]%can_write_spec.
  set (cfg := [CONFIG_DIR; CONFIG_FILE]) in *.
  assert (∃ P1, (if negb (exists_node (lookup_path [CONFIG_DIR] (project w)))
                 then mkdirSync_recursive (Cwd, [CONFIG_DIR]) else ret tt) w
                = (Ok tt, set_root Cwd P1 w)
                ∧ (∃ es, lookup_path [CONFIG_DIR] P1 = Some (Dir es))
                ∧ (∀ q, ¬ q `prefix_of` [CONFIG_DIR] →
                        lookup_path q P1 = lookup_path q (project w)))
    as (P1 & Hmk & [es Hdir] & Hframe1).
  { destruct (lookup_path [CONFIG_DIR] (project w)) as [x|] eqn:Hx.
    - pose proof (Hup [CONFIG_DIR] [CONFIG_FILE] x eq_refl ltac:(done) Hx) as Hd.
      destruct x as [| |es]; try done. cbn [exists_node negb].
      exists (project w). by rewrite set_root_Cwd_id; eauto.
    - cbn [exists_node negb].
      destruct (proj2 (mkdir_p_Some [CONFIG_DIR] (project w))) as [P1 HP1].
      { intros q k e Hqk Hq. destruct q as [|a q].
        - by apply (Hup [] cfg e eq_refl).
        - destruct q; [|by destruct q]. simplify_eq/=; try congruence. }
      exists P1. split_and!.
      + by apply (mkdirSync_recursive_run Cwd [CONFIG_DIR] w (project w) P1).
      + by apply lookup_mkdir_p in HP1.
      + intros q Hq. by apply (lookup_path_mkdir_p _ _ _ _ HP1). }
  assert (lookup_path cfg P1 = lookup_path cfg (project w)) as Hsame.
  { apply Hframe1. intros [k Hk]. by destruct k. }
  set (new := match lookup_path cfg P1 with
              | Some (Link _) => Link (ToFile (Json.stringify config))
              | _ => File (Json.stringify config)
              end).
  destruct (proj2 (insert_at_Some cfg new P1)) as [P2 HP2].
  { split; [done|]. by exists es. }
  exists P2. split_and!.
  - unfold saveConfig. rewrite bind_existsSync.
    change (lstat (Cwd, [CONFIG_DIR]) w) with (lookup_path [CONFIG_DIR] (project w)).
    unfold bind at 1. rewrite Hmk. cbv zeta. unfold getConfigPath.
    rewrite writeFileSync_Cwd. fold cfg.
    replace (project (set_root Cwd P1 w)) with P1 by done.
    assert (∀ x, lookup_path cfg P1 = Some x → isDirectory x = false ∧ x ≠ Link ToDir) as Hat1.
    { intros x Hx. apply Hat. by rewrite <- Hsame. }
    unfold new in HP2.
    destruct (lookup_path cfg P1) as [[c|[c| |]|es']|] eqn:Hl;
      try (by destruct (Hat1 _ eq_refl)); rewrite HP2; by rewrite set_root_twice.
  - pose proof (lookup_path_insert_at_below cfg new P1 P2 [] HP2) as H.
    rewrite app_nil_r in H. rewrite H. cbn. unfold new.
    by destruct (lookup_path cfg P1) as [[|[]|]|].
  - pose proof (lookup_path_insert_at_below cfg new P1 P2 [] HP2) as H.
    rewrite app_nil_r in H. rewrite H. cbn. unfold new.
    by destruct (lookup_path cfg P1) as [[|[]|]|].
  - intros q Hq1 Hq2. rewrite (lookup_path_insert_at_ne _ _ _ _ _ HP2 Hq1 Hq2).
    apply Hframe1. intros Hq. apply Hq1. etrans; [done|]. by exists [CONFIG_FILE].
Qed.

Lemma loadConfig_saved E config w P' :
  reads_back E config →
  exists_node (lookup_path [CONFIG_DIR; CONFIG_FILE] P') = true →
  read_node (lookup_path [CONFIG_DIR; CONFIG_FILE] P') = Ok (Json.stringify config) →
  loadConfig E (set_root Cwd P' w) = (Ok (Some config), set_root Cwd P' w).
Proof.
  intros Hback He Hr.
  rewrite (loadConfig_read E (set_root Cwd P' w) (Json.stringify config) _ _ _ _ He Hr Hback).
  by destruct config.
Qed.

Lemma saveConfig_saved E config w :
  can_write (project w) [CONFIG_DIR; CONFIG_FILE] = true →
  reads_back E config →
  ∃ w', saveConfig config w = (Ok tt, w')
        ∧ loadConfig E w' = (Ok (Some config), w')
        ∧ read_node (lstat getConfigPath w') = Ok (Json.stringify config)
        ∧ tmp w' = tmp w ∧ repos w' = repos w ∧ remote w' = remote w
        ∧ ∀ q, ¬ q `prefix_of` [CONFIG_DIR; CONFIG_FILE] →
               ¬ [CONFIG_DIR; CONFIG_FILE] `prefix_of` q →
               lstat (Cwd, q) w' = lstat (Cwd, q) w.
Proof.
  intros Hcw Hback.
  destruct (saveConfig_run config w Hcw) as (P' & Hrun & He & Hr & Hframe).
  exists (set_root Cwd P' w). split_and!; try done.
  by apply loadConfig_saved.
Qed.

(** X5: [saveConfig] followed by [loadConfig] gives back the configuration
    that was saved, whenever [.agvault/config.json] can be written (what is
    on the way to it is a directory, what is there is not) and the parser
    reads back what [JSON.stringify] wrote; the directory [.agvault] is made
    when it is missing, and nothing beside the path of the file changes. *)
Theorem saveConfig_then_loadConfig E config w :
  can_write (project w) [CONFIG_DIR; CONFIG_FILE] = true →
  reads_back E config →
  ∃ w', saveConfig config w = (Ok tt, w')
        ∧ loadConfig E w' = (Ok (Some config), w')
        ∧ readFileSync getConfigPath w' = (Ok (Json.stringify config), w')
        ∧ tmp w' = tmp w ∧ repos w' = repos w ∧ remote w' = remote w
        ∧ ∀ q, ¬ q `prefix_of` [CONFIG_DIR; CONFIG_FILE] →
               ¬ [CONFIG_DIR; CONFIG_FILE] `prefix_of` q →
               lstat (Cwd, q) w' = lstat (Cwd, q) w.
Proof.
  intros Hcw Hback.
  destruct (saveConfig_saved E config w Hcw Hback) as (w' & ? & ? & Hr & ? & ? & ? & ?).
  exists w'. split_and!; try done.
  unfold readFileSync. by rewrite Hr.
Qed.

Lemma isInitialized_run E w :
  isInitialized E w =
    match loadConfig E w with
    | (Ok (Some config), w') => (Ok (negb (String.eqb (repoUrl config) EmptyString)), w')
    | (Ok None, w') => (Ok false, w')
    | (Throw e, w') => (Throw e, w')
    end.
Proof.
  unfold isInitialized, bind, ret. by destruct (loadConfig E w) as [[[config|]|e] w'].
Qed.

Lemma isInitialized_false E w :
  isInitialized E w = (Ok false, w) →
  loadConfig E w = (Ok None, w)
  ∨ ∃ config, loadConfig E w = (Ok (Some config), w) ∧ repoUrl config = EmptyString.
Proof.
  rewrite isInitialized_run.
  destruct (loadConfig E w) as [[[config|]|e] w'] eqn:Hl; [|by intros [= <-]; left|done].
  intros [= Hb <-]. right. exists config. split; [done|].
  apply negb_false_iff in Hb. by apply String.eqb_eq.
Qed.

Lemma withTempVault_not_initialized {T} E cwd (fn : string → string → OnPhase → M T) opts w :
  isInitialized E w = (Ok false, w) →
  withTempVault E cwd fn opts w = (Throw not_initialized, w).
Proof.
  intros [Hl|(config & Hl & Hu)]%isInitialized_false; unfold withTempVault.
  - by rewrite (bind_Ok _ _ _ _ _ Hl).
  - rewrite (bind_Ok _ _ _ _ _ Hl), Hu. done.
Qed.

(** X6: when [isInitialized] answers [false] (no configuration file, or an
    empty [repoUrl]), every operation on the vault and both updates of the
    configuration throw [Not initialized. Run 'agvault init' first.] and
    leave the project, the temporary directories and the remote as they
    were: no temporary directory is made and nothing is written. *)
Theorem uninitialized_project_is_refused E cwd w :
  isInitialized E w = (Ok false, w) →
  (∀ T (fn : string → string → OnPhase → M T) opts,
     withTempVault E cwd fn opts w = (Throw not_initialized, w))
  ∧ (∀ specificPaths opts,
       pullFromVault E cwd specificPaths opts w = (Throw not_initialized, w))
  ∧ (∀ opts, storeToVault E cwd opts w = (Throw not_initialized, w))
  ∧ (∀ opts, syncVault E cwd opts w = (Throw not_initialized, w))
  ∧ (∀ opts, listVaultFilesRemote E cwd opts w = (Throw not_initialized, w))
  ∧ (∀ opts, purgeVault E cwd opts w = (Throw not_initialized, w))
  ∧ (∀ opts, runReinit E cwd opts w = (Throw not_initialized, w))
  ∧ (∀ path, addToExclude E path w = (Throw not_initialized, w))
  ∧ (∀ path, ensurePathIncluded E path w = (Throw not_initialized, w))
  ∧ getVaultRoot E w = (Ok None, w).
Proof.
  intros Hinit.
  pose proof (λ T fn opts, @withTempVault_not_initialized T E cwd fn opts w Hinit) as Hwith.
  split_and!; try (intros; by apply Hwith).
  - intros opts. unfold storeToVault.
    destruct (isInitialized_false E w Hinit) as [Hl|(config & Hl & Hu)].
    + rewrite (bind_Ok _ _ _ _ _ (collectFiles_uninitialized E cwd w Hl)). apply Hwith.
    + rewrite (bind_Ok _ _ _ _ _ (collectFiles_run E cwd w config Hl)). apply Hwith.
  - intros opts. unfold syncVault, pullFromVault.
    by rewrite (bind_Throw _ _ _ _ _ (Hwith _ _ _)).
  - intros opts. unfold runReinit.
    destruct (isInitialized_false E w Hinit) as [Hl|(config & Hl & Hu)];
      rewrite (bind_Ok _ _ _ _ _ Hl); [done|by rewrite Hu].
  - intros path. unfold addToExclude.
    destruct (isInitialized_false E w Hinit) as [Hl|(config & Hl & Hu)];
      rewrite (bind_Ok _ _ _ _ _ Hl); [done|by rewrite Hu].
  - intros path. unfold ensurePathIncluded.
    destruct (isInitialized_false E w Hinit) as [Hl|(config & Hl & Hu)];
      rewrite (bind_Ok _ _ _ _ _ Hl); [done|by rewrite Hu].
  - unfold getVaultRoot.
    destruct (isInitialized_false E w Hinit) as [Hl|(config & Hl & Hu)];
      rewrite (bind_Ok _ _ _ _ _ Hl); [done|by rewrite Hu].
Qed.

(** X7: [isInitialized] and [getVaultRoot] read the configuration in the
    same way and leave the world as it is: [getVaultRoot] returns
    [.agvault/repo] below the project root exactly when [isInitialized]
    answers [true], it returns [null] exactly when [isInitialized] answers
    [false], and a configuration file that [loadConfig] rejects makes both
    throw its error; [isInitialized] answers [true] exactly when
    [loadConfig] returns a configuration with a non-empty [repoUrl]. *)
Theorem isInitialized_agrees_with_getVaultRoot E w :
  (isInitialized E w).2 = w
  ∧ (getVaultRoot E w).2 = w
  ∧ (getVaultRoot E w).1
    = match (isInitialized E w).1 with
      | Ok true => Ok (Some (Cwd, [".agvault"; "repo"]))
      | Ok false => Ok None
      | Throw e => Throw e
      end
  ∧ ((isInitialized E w).1 = Ok true ↔
     ∃ config, loadConfig E w = (Ok (Some config), w) ∧ repoUrl config ≠ EmptyString)
  ∧ (∀ e, (isInitialized E w).1 = Throw e ↔ (loadConfig E w).1 = Throw e).
Proof.
  rewrite isInitialized_run. unfold getVaultRoot, bind.
  destruct (loadConfig E w) as [[[config|]|e] w'] eqn:Hl;
    apply loadConfig_frame in Hl as Hw; subst w'; cbn [fst snd].
  - destruct (String.eqb_spec (repoUrl config) EmptyString) as [He|Hne]; cbn [negb].
    + split_and!; try done.
      * split; [done|]. intros (config' & [= <-] & Hne). done.
    + split_and!; try done.
      split; [|done]. intros _. by exists config.
  - split_and!; try done. split; [done|]. by intros (config' & [= ] & _).
  - split_and!; [done|done|done| |intros e0; split; by intros [= ->]].
    split; [done|]. by intros (config' & [= ] & _).
Qed.






Lemma includes_spec s l : includes s l = true ↔ s ∈ l.
Proof. unfold includes. by rewrite bool_decide_eq_true. Qed.

Lemma addToExclude_run E p w config :
  loadConfig E w = (Ok (Some config), w) →
  repoUrl config ≠ EmptyString →
  addToExclude E p w =
    if includes (normalizePath p) (exclude config) then (Ok tt, w)
    else saveConfig (excluding config (normalizePath p)) w.
Proof.
  intros Hl Hu. unfold addToExclude. rewrite (bind_Ok _ _ _ _ _ Hl).
  apply String.eqb_neq in Hu. rewrite Hu.
  by destruct (includes (normalizePath p) (exclude config)).
Qed.

Lemma ensurePathIncluded_run E p w config :
  loadConfig E w = (Ok (Some config), w) →
  repoUrl config ≠ EmptyString →
  ensurePathIncluded E p w = saveConfig (including config (normalizePath p)) w.
Proof.
  intros Hl Hu. unfold ensurePathIncluded. rewrite (bind_Ok _ _ _ _ _ Hl).
  apply String.eqb_neq in Hu. by rewrite Hu.
Qed.

(** X8: on an initialised project [addToExclude] returns without writing
    when the normalised path is already excluded; otherwise it appends the
    path to [exclude] and saves, after which [loadConfig] returns the
    configuration with that one more exclusion, a second call changes
    nothing, and nothing beside the configuration file has changed. *)
Theorem addToExclude_appends_once E p w config :
  loadConfig E w = (Ok (Some config), w) →
  repoUrl config ≠ EmptyString →
  (normalizePath p ∈ exclude config → addToExclude E p w = (Ok tt, w))
  ∧ (normalizePath p ∉ exclude config →
     reads_back E (excluding config (normalizePath p)) →
     ∃ w', addToExclude E p w = (Ok tt, w')
           ∧ loadConfig E w' = (Ok (Some (excluding config (normalizePath p))), w')
           ∧ exclude (excluding config (normalizePath p))
             = exclude config ++ [normalizePath p]
           ∧ addToExclude E p w' = (Ok tt, w')
           ∧ tmp w' = tmp w ∧ remote w' = remote w
           ∧ ∀ q, ¬ q `prefix_of` [CONFIG_DIR; CONFIG_FILE] →
                  ¬ [CONFIG_DIR; CONFIG_FILE] `prefix_of` q →
                  lstat (Cwd, q) w' = lstat (Cwd, q) w).
Proof.
  intros Hl Hu. rewrite (addToExclude_run E p w config Hl Hu). split.
  - intros Hin%includes_spec. by rewrite Hin.
  - intros Hnot Hback.
    destruct (includes (normalizePath p) (exclude config)) eqn:Hin.
    { by apply includes_spec in Hin. }
    destruct (saveConfig_saved E _ w (loadConfig_can_write E w config Hl) Hback)
      as (w' & Hsave & Hload & _ & Htmp & _ & Hrem & Hframe).
    exists w'. split_and!; try done.
    rewrite (addToExclude_run E p w' _ Hload Hu).
    assert (includes (normalizePath p) (exclude (excluding config (normalizePath p))) = true)
      as ->; [|done].
    apply includes_spec. cbn. apply elem_of_app. right. apply list_elem_of_here.
Qed.


Lemma saveConfig_same config w :
  read_node (lstat getConfigPath w) = Ok (Json.stringify config) →
  saveConfig config w = (Ok tt, w).
Proof.
  intros Hr.
  change (lstat getConfigPath w) with (lookup_path [CONFIG_DIR; CONFIG_FILE] (project w)) in Hr.
  destruct (lookup_path [CONFIG_DIR; CONFIG_FILE] (project w)) as [x|] eqn:Hx; [|done].
  destruct (lookup_path_dirname [CONFIG_DIR; CONFIG_FILE] _ _ ltac:(done) Hx) as [es Hes].
  change (dirname [CONFIG_DIR; CONFIG_FILE]) with [CONFIG_DIR] in Hes.
  unfold saveConfig. rewrite bind_existsSync.
  change (lstat (Cwd, [CONFIG_DIR]) w) with (lookup_path [CONFIG_DIR] (project w)).
  rewrite Hes. cbn [exists_node negb]. rewrite bind_ret. unfold getConfigPath.
  rewrite writeFileSync_Cwd, Hx.
  destruct x as [c|[c| |]|]; cbn in Hr; try done; injection Hr as ->;
    rewrite (insert_at_id [CONFIG_DIR; CONFIG_FILE] (project w) _ ltac:(done) Hx);
    by rewrite set_root_Cwd_id.
Qed.

Lemma elem_of_including_include config n q :
  q ∈ include (including config n) ↔ q ∈ include config ∨ q = n.
Proof.
  cbn. destruct (includes n (include config)) eqn:Hin; cbn.
  - apply includes_spec in Hin. naive_solver.
  - rewrite elem_of_app, list_elem_of_singleton. done.
Qed.

Lemma elem_of_including_exclude config n q :
  q ∈ exclude (including config n) ↔ q ∈ exclude config ∧ q ≠ n.
Proof.
  cbn. rewrite !list_elem_of_In, filter_In, negb_true_iff, String.eqb_neq. naive_solver.
Qed.

Lemma filter_filter_same {A} (f : A → bool) l :
  List.filter f (List.filter f l) = List.filter f l.
Proof.
  induction l as [|x l IH]; [done|]. cbn.
  destruct (f x) eqn:Hx; cbn; rewrite ?Hx; by rewrite IH.
Qed.

Lemma including_idemp config n : including (including config n) n = including config n.
Proof.
  pose proof (proj2 (includes_spec _ _)
    (proj2 (elem_of_including_include config n n) (or_intror eq_refl))) as Hin.
  unfold including in *. cbn [repoUrl include exclude branch] in *. rewrite Hin.
  cbn [negb]. f_equal. apply filter_filter_same.
Qed.

Lemma ensurePathIncluded_saved E p w config :
  loadConfig E w = (Ok (Some config), w) →
  repoUrl config ≠ EmptyString →
  reads_back E (including config (normalizePath p)) →
  ∃ w', ensurePathIncluded E p w = (Ok tt, w')
        ∧ loadConfig E w' = (Ok (Some (including config (normalizePath p))), w')
        ∧ ensurePathIncluded E p w' = (Ok tt, w')
        ∧ tmp w' = tmp w ∧ remote w' = remote w
        ∧ ∀ q, ¬ q `prefix_of` [CONFIG_DIR; CONFIG_FILE] →
               ¬ [CONFIG_DIR; CONFIG_FILE] `prefix_of` q →
               lstat (Cwd, q) w' = lstat (Cwd, q) w.
Proof.
  intros Hl Hu Hback. rewrite (ensurePathIncluded_run E p w config Hl Hu).
  destruct (saveConfig_saved E _ w (loadConfig_can_write E w config Hl) Hback)
    as (w' & Hsave & Hload & Hr & Htmp & _ & Hrem & Hframe).
  exists w'. split_and!; try done.
  rewrite (ensurePathIncluded_run E p w' _ Hload Hu).
  apply saveConfig_same.
  by rewrite including_idemp.
Qed.

(** X10: on an initialised project, after [ensurePathIncluded] the
    configuration that [loadConfig] returns has the normalised path among
    its include patterns and not among its exclude patterns; every other
    pattern is where it was, the path being appended to [include] only when
    it was missing; a second call leaves the world as the first one left
    it, and nothing beside the configuration file has changed. *)
Theorem ensurePathIncluded_includes E p w config :
  loadConfig E w = (Ok (Some config), w) →
  repoUrl config ≠ EmptyString →
  reads_back E (including config (normalizePath p)) →
  ∃ w' config',
    ensurePathIncluded E p w = (Ok tt, w')
    ∧ loadConfig E w' = (Ok (Some config'), w')
    ∧ normalizePath p ∈ include config'
    ∧ (normalizePath p ∉ exclude config')
    ∧ (∀ q, q ≠ normalizePath p →
            (q ∈ include config' ↔ q ∈ include config)
            ∧ (q ∈ exclude config' ↔ q ∈ exclude config))
    ∧ include config `prefix_of` include config'
    ∧ (normalizePath p ∈ include config → include config' = include config)
    ∧ exclude config' `sublist_of` exclude config
    ∧ repoUrl config' = repoUrl config ∧ branch config' = branch config
    ∧ ensurePathIncluded E p w' = (Ok tt, w')
    ∧ tmp w' = tmp w ∧ remote w' = remote w
    ∧ ∀ q, ¬ q `prefix_of` [CONFIG_DIR; CONFIG_FILE] →
           ¬ [CONFIG_DIR; CONFIG_FILE] `prefix_of` q →
           lstat (Cwd, q) w' = lstat (Cwd, q) w.
Proof.
  intros Hl Hu Hback.
  destruct (ensurePathIncluded_saved E p w config Hl Hu Hback)
    as (w' & Hrun & Hload & Hagain & Htmp & Hrem & Hframe).
  exists w', (including config (normalizePath p)). split_and!; try done.
  - apply elem_of_including_include. by right.
  - rewrite elem_of_including_exclude. naive_solver.
  - intros q Hq. rewrite elem_of_including_include, elem_of_including_exclude. naive_solver.
  - cbn. destruct (includes (normalizePath p) (include config)); cbn; [done|].
    by apply prefix_app_r.
  - intros Hin%includes_spec. cbn. by rewrite Hin.
  - cbn. induction (exclude config) as [|x l IH]; [done|]. cbn.
    destruct (negb (String.eqb x (normalizePath p))); by constructor.
Qed.


(** ** [src/vault.ts]: [clearVault] and [runReinit] *)

Lemma loadConfig_lstat E w1 w2 r :
  lstat getConfigPath w1 = lstat getConfigPath w2 →
  loadConfig E w1 = (r, w1) → loadConfig E w2 = (r, w2).
Proof.
  intros Hl H1.
  assert ((loadConfig E w1).1 = (loadConfig E w2).1) as Hr.
  { unfold loadConfig, existsSync, readFileSync. munfold. rewrite Hl.
    destruct (lstat getConfigPath w2) as [[c|[c| |]|es]|] eqn:Hl2; simpl;
      rewrite ?Hl, ?Hl2; simpl; try destruct (JSON_parse E c); simpl; done. }
  rewrite H1 in Hr.
  destruct (loadConfig E w2) as [r2 w2'] eqn:H2.
  apply loadConfig_frame in H2 as Hw. cbn [fst] in Hr. by subst.
Qed.

Lemma clearVault_run w :
  clearVault w =
    (Ok tt, if exists_node (lookup_path [".agvault"; "repo"] (project w))
            then set_root Cwd (delete_at [".agvault"; "repo"] (project w)) w
            else w).
Proof.
  unfold clearVault.
  change (located Cwd [] VAULT_DIR) with (ret (A:=abspath) (Cwd, [".agvault"; "repo"])).
  rewrite bind_ret, bind_existsSync.
  change (lstat (Cwd, [".agvault"; "repo"]) w)
    with (lookup_path [".agvault"; "repo"] (project w)).
  destruct (lookup_path [".agvault"; "repo"] (project w)) as [x|] eqn:Hx; [|done].
  destruct (exists_node (Some x)) eqn:He; cbn [negb]; [|done].
  unfold rmSync_recursive.
  change (lstat (Cwd, [".agvault"; "repo"]) w)
    with (lookup_path [".agvault"; "repo"] (project w)).
  by rewrite Hx.
Qed.

Lemma clearVault_cleared w :
  ∃ w',
    clearVault w = (Ok tt, w')
    ∧ existsSync (Cwd, [".agvault"; "repo"]) w' = (Ok false, w')
    ∧ (∀ q, ¬ q `prefix_of` [".agvault"; "repo"] → ¬ [".agvault"; "repo"] `prefix_of` q →
            lstat (Cwd, q) w' = lstat (Cwd, q) w)
    ∧ (∀ q es, q `prefix_of` [".agvault"; "repo"] → q ≠ [".agvault"; "repo"] →
               lstat (Cwd, q) w = Some (Dir es) →
               ∃ es', lstat (Cwd, q) w' = Some (Dir es'))
    ∧ tmp w' = tmp w ∧ repos w' = repos w ∧ remote w' = remote w.
Proof.
  rewrite clearVault_run. eexists. split; [done|].
  unfold existsSync, lstat. cbn [fst snd root].
  destruct (exists_node (lookup_path [".agvault"; "repo"] (project w))) eqn:He.
  - cbn [project set_root tmp repos remote]. split_and!; try done.
    + pose proof (lookup_path_delete_at_below [".agvault"; "repo"] (project w) []
                    ltac:(done)) as H.
      rewrite app_nil_r in H. cbn [mbind option_bind]. by rewrite H.
    + intros q Hq1 Hq2. cbn [mbind option_bind]. by apply lookup_path_delete_at_ne.
    + intros q es [k Hk] Hne Hq. cbn [mbind option_bind] in *.
      apply (lookup_path_delete_at_above q k (project w) es) in Hq as [es' Hes'].
      * exists es'. by rewrite Hk.
      * intros ->. by rewrite app_nil_r in Hk.
  - split_and!; try done.
    + cbn [mbind option_bind]. by rewrite He.
    + intros q es _ _ Hq. by exists es.
Qed.

(** X12: [clearVault] never throws; afterwards [existsSync] finds nothing
    at [.agvault/repo], every entry of the project that is neither below
    that path nor on the way to it is as it was (so the configuration file
    is kept and [loadConfig] answers as before), the directories on the way
    to it are still directories, and the temporary directories and the
    remote are untouched; a second call changes nothing. *)
Theorem clearVault_removes_only_the_legacy_repo E w :
  ∃ w',
    clearVault w = (Ok tt, w')
    ∧ existsSync (Cwd, [".agvault"; "repo"]) w' = (Ok false, w')
    ∧ (∀ q, ¬ q `prefix_of` [".agvault"; "repo"] → ¬ [".agvault"; "repo"] `prefix_of` q →
            lstat (Cwd, q) w' = lstat (Cwd, q) w)
    ∧ (∀ q es, q `prefix_of` [".agvault"; "repo"] → q ≠ [".agvault"; "repo"] →
               lstat (Cwd, q) w = Some (Dir es) →
               ∃ es', lstat (Cwd, q) w' = Some (Dir es'))
    ∧ (∀ r, loadConfig E w = (r, w) → loadConfig E w' = (r, w'))
    ∧ tmp w' = tmp w ∧ repos w' = repos w ∧ remote w' = remote w
    ∧ clearVault w' = (Ok tt, w').
Proof.
  destruct (clearVault_cleared w) as (w' & Hrun & Hgone & Hframe & Hdirs & Htmp & Hrepos & Hrem).
  exists w'. split_and!; try done.
  - intros r. apply loadConfig_lstat. symmetry. apply Hframe.
    + intros [k Hk]. by destruct k.
    + intros [k Hk]. by destruct k.
  - rewrite clearVault_run.
    assert (exists_node (lookup_path [".agvault"; "repo"] (project w')) = false) as ->;
      [|done].
    unfold existsSync in Hgone. by injection Hgone.
Qed.

(** X13: on an initialised project [runReinit] returns normally whether or
    not the remote repository exists: a clone that fails is replaced by an
    empty repository made in the temporary directory, which is then
    deleted.  It removes [.agvault/repo], keeps the configuration, makes no
    commit on the remote and leaves no temporary directory. *)
Theorem runReinit_does_not_need_the_remote E cwd opts w config c :
  loadConfig E w = (Ok (Some config), w) →
  repoUrl config ≠ EmptyString →
  tmp w !! tempName E = None →
  passive opts →
  initial_clone E w = Some c →
  ∃ w',
    runReinit E cwd opts w = (Ok tt, w')
    ∧ remote w' = remote w
    ∧ tmp w' = tmp w
    ∧ existsSync (Cwd, [".agvault"; "repo"]) w' = (Ok false, w')
    ∧ loadConfig E w' = (Ok (Some config), w')
    ∧ ∀ q, ¬ q `prefix_of` [".agvault"; "repo"] → ¬ [".agvault"; "repo"] `prefix_of` q →
           lstat (Cwd, q) w' = lstat (Cwd, q) w.
Proof.
  intros Hl Hu Htmp Hpassive Hc.
  destruct (clearVault_cleared w) as (w1 & Hrun & Hgone & Hframe & _ & Htmp1 & Hrepos1 & Hrem1).
  assert (loadConfig E w1 = (Ok (Some config), w1)) as Hl1.
  { revert Hl. apply loadConfig_lstat. symmetry. apply Hframe.
    - intros [k Hk]. by destruct k.
    - intros [k Hk]. by destruct k. }
  unfold runReinit. rewrite (bind_Ok _ _ _ _ _ Hl).
  apply String.eqb_neq in Hu as Hu'. rewrite Hu'.
  rewrite (bind_Ok _ _ _ _ _ Hrun).
  rewrite (withTempVault_run E cwd _ opts w1 config c Hl1 Hu); try done.
  2:{ by rewrite Htmp1. }
  2:{ by rewrite <- (initial_clone_remote E w w1). }
  unfold ret. rewrite unlink_session by by rewrite Htmp1.
  eexists. split; [done|]. cbn [remote tmp project].
  split_and!; try done.
  - unfold existsSync in *. cbn in *. by injection Hgone as ->.
  - revert Hl1. by apply loadConfig_lstat.
Qed.

(** ** [src/vault.ts]: [purgeVault] *)

Lemma foldl_delete_lookup (es : gmap string node) l k :
  foldl (λ m x, delete x m) es l !! k = if decide (k ∈ l) then None else es !! k.
Proof.
  revert es. induction l as [|x l IH]; intros es; cbn.
  - rewrite decide_False; [done|]. by intros ?%elem_of_nil.
  - rewrite IH. destruct (decide (k ∈ l)) as [Hin|Hnot].
    + rewrite decide_True; [done|]. by apply list_elem_of_further.
    + destruct (decide (k = x)) as [->|Hne].
      * rewrite decide_True by apply list_elem_of_here. apply lookup_delete_eq.
      * rewrite decide_False; [by apply lookup_delete_ne|].
        intros [?|?]%elem_of_cons; congruence.
Qed.

Lemma foldl_delete_keys (es : gmap string node) :
  foldl (λ m x, delete x m) es (map_to_list es).*1 = ∅.
Proof.
  apply map_eq. intros k. rewrite foldl_delete_lookup, lookup_empty.
  destruct (decide (k ∈ (map_to_list es).*1)) as [|Hnot]; [done|].
  destruct (es !! k) as [n|] eqn:Hk; [|done]. destruct Hnot.
  apply list_elem_of_fmap. exists (k, n). split; [done|]. by apply elem_of_map_to_list.
Qed.

Lemma join_name base x : wf_name x → join base x = Some (base ++ [x]).
Proof. intros Hx. apply (join_wf base [x]); [done|]. by constructor. Qed.

Lemma purge_loop d l w top es :
  tmp w !! d = Some (Dir top) → top !! "vault" = Some (Dir es) →
  Forall wf_name l → (∀ x, x ∈ l → is_Some (es !! x)) → NoDup l →
  for_each l (λ name, let* l := located (TmpDir d) ["vault"] name in rmSync_recursive l) w
  = (Ok tt, set_root (TmpDir d)
              (Dir (<["vault" := Dir (foldl (λ m x, delete x m) es l)]> top)) w).
Proof.
  revert w top es. induction l as [|x l IH]; intros w top es Htmp Hv Hwf Hin Hnd.
  - cbn [for_each foldl]. rewrite (insert_id top "vault" (Dir es) Hv).
    by rewrite set_root_id.
  - apply Forall_cons in Hwf as [Hx Hwf]. apply NoDup_cons in Hnd as [Hxl Hnd].
    cbn [for_each foldl]. cbv beta. unfold located at 1.
    rewrite (join_name ["vault"] x Hx). cbv beta iota.
    change (["vault"] ++ [x]) with ["vault"; x].
    unfold bind at 1. rewrite bind_ret. unfold rmSync_recursive at 1.
    rewrite (lstat_tmp d _ w (Dir top) Htmp).
    destruct (Hin x (list_elem_of_here _ _)) as [n Hn].
    assert (lookup_path ["vault"; x] (Dir top) = Some n) as ->.
    { cbn. rewrite Hv. cbn. by rewrite Hn. }
    rewrite (unlink_tmp d _ w (Dir top) Htmp) by done.
    assert (delete_at ["vault"; x] (Dir top) = Dir (<["vault" := Dir (delete x es)]> top)) as ->.
    { cbn. by rewrite Hv. }
    rewrite (IH _ (<["vault" := Dir (delete x es)]> top) (delete x es)); try done.
    + by rewrite insert_insert_eq, set_root_twice.
    + apply tmp_set_root.
    + apply lookup_insert_eq.
    + intros y Hy. rewrite lookup_delete_ne by (intros ->; done).
      apply Hin. by apply list_elem_of_further.
Qed.

(** The working tree that [purgeVault] commits for the clone [Dir top]. *)
Lemma purge_session_run E d opts w0 config top es head :
  loadConfig E w0 = (Ok (Some config), w0) → passive opts →
  tmp w0 !! d = Some (Dir top) → repos w0 !! d = Some head →
  top !! "vault" = Some (Dir es) → (∀ x, is_Some (es !! x) → wf_name x) →
  purge_session E d d opts w0 =
    git_push E d
      (set_repo d (git_tree (Dir (<["vault" := Dir {[".gitkeep" := File EmptyString]}]> top)))
         (set_root (TmpDir d)
            (Dir (<["vault" := Dir {[".gitkeep" := File EmptyString]}]> top)) w0)).
Proof.
  intros Hl Hpassive Htmp Hrepos Hv Hwf. unfold purge_session.
  rewrite (bind_Ok _ _ _ _ _ Hl), bind_existsSync.
  rewrite (lstat_tmp d _ w0 (Dir top) Htmp).
  assert (lookup_path ["vault"] (Dir top) = Some (Dir es)) as Hlv by (cbn; by rewrite Hv).
  rewrite Hlv. cbn [exists_node negb].
  assert (readdirSync (TmpDir d, ["vault"]) w0 = (Ok es, w0)) as Hrd.
  { by rewrite (readdirSync_tmp d _ w0 (Dir top) Htmp), Hlv. }
  rewrite (bind_Ok _ _ _ _ _ Hrd).
  set (w1 := set_root (TmpDir d) (Dir (<["vault" := Dir ∅]> top)) w0).
  set (work := Dir (<["vault" := Dir {[".gitkeep" := File EmptyString]}]> top)).
  assert (for_each (map_to_list es).*1
            (λ name, let* l := located (TmpDir d) ["vault"] name in rmSync_recursive l) w0
          = (Ok tt, w1)) as Hloop.
  { rewrite (purge_loop d _ w0 top es Htmp Hv).
    - by rewrite foldl_delete_keys.
    - apply Forall_forall. intros x (kv & -> & Hkv)%list_elem_of_fmap.
      apply Hwf. destruct kv as [k n]. apply elem_of_map_to_list in Hkv. by exists n.
    - intros x (kv & -> & Hkv)%list_elem_of_fmap.
      destruct kv as [k n]. apply elem_of_map_to_list in Hkv. by exists n.
    - apply NoDup_fst_map_to_list. }
  rewrite (bind_Ok _ _ _ _ _ Hloop).
  assert (writeFileSync (TmpDir d, ["vault"; ".gitkeep"]) EmptyString w1
          = (Ok tt, set_root (TmpDir d) work w0)) as Hwrite.
  { rewrite <- (set_root_twice (TmpDir d) (Dir (<["vault" := Dir ∅]> top)) work w0).
    apply (writeFileSync_new (TmpDir d) ["vault"; ".gitkeep"] EmptyString w1
             (Dir (<["vault" := Dir ∅]> top)) work).
    - apply tmp_set_root.
    - cbn. by rewrite lookup_insert_eq.
    - cbn. rewrite lookup_insert_eq. cbn. unfold work.
      by rewrite insert_insert_eq, insert_empty. }
  rewrite (bind_Ok _ _ _ _ _ Hwrite).
  assert (git_add_commit d (set_root (TmpDir d) work w0)
          = (Ok tt, set_repo d (git_tree work) (set_root (TmpDir d) work w0))) as Hcommit.
  { apply (git_add_commit_run d _ work head); [apply tmp_set_root|done]. }
  rewrite (bind_Ok _ _ _ _ _ Hcommit).
  by rewrite (bind_Ok _ _ _ _ _ (call_opt_passive opts _ _ Hpassive)).
Qed.

Lemma unlink_after E w P work head origin :
  tmp w !! tempName E = None →
  unlink (TmpDir (tempName E), [])
    (mkWorld P (<[tempName E := work]> (tmp w)) (<[tempName E := head]> (repos w)) origin)
  = after_session E w P origin.
Proof.
  intros Htmp. unfold unlink, after_session. cbn [project tmp repos remote]. f_equal.
  - rewrite delete_insert_eq. by apply delete_id.
  - by rewrite delete_insert_eq.
Qed.

Lemma purgeVault_run E cwd opts w config c :
  loadConfig E w = (Ok (Some config), w) →
  repoUrl config ≠ EmptyString →
  tmp w !! tempName E = None →
  passive opts →
  initial_clone E w = Some c →
  wf_tree c →
  purgeVault E cwd opts w =
    match lookup_path ["vault"] c with
    | Some (Dir es) =>
        match git_push_error E with
        | None => (Ok tt, after_session E w (project w) (Some (git_tree (purged c))))
        | Some err => (Throw err, after_session E w (project w) (remote w))
        end
    | None | Some (Link Dangling) => (Ok tt, after_session E w (project w) (remote w))
    | Some _ => (Throw "ENOTDIR", after_session E w (project w) (remote w))
    end.
Proof.
  intros Hl Hu Htmp Hpassive Hc Hwf. unfold purgeVault.
  rewrite (withTempVault_run E cwd _ opts w config c Hl Hu Htmp Hpassive Hc).
  set (d := tempName E) in *. set (w0 := session_world d c w).
  assert (loadConfig E w0 = (Ok (Some config), w0)) as Hl0.
  { by apply (loadConfig_same_project E w w0). }
  assert (tmp w0 !! d = Some c) as Htmp0 by apply lookup_insert_eq.
  assert (repos w0 !! d = Some c) as Hrepos0 by apply lookup_insert_eq.
  assert (unlink (TmpDir d, []) w0 = after_session E w (project w) (remote w)) as Hun.
  { by apply unlink_after. }
  destruct (lookup_path ["vault"] c) as [[content|[content| |]|es]|] eqn:Hv.
  - assert (purge_session E d d opts w0 = (Throw "ENOTDIR", w0)) as ->; [|by rewrite Hun].
    unfold purge_session. rewrite (bind_Ok _ _ _ _ _ Hl0), bind_existsSync.
    rewrite (lstat_tmp d _ w0 c Htmp0), Hv. cbn [exists_node negb].
    unfold bind. by rewrite (readdirSync_tmp d _ w0 c Htmp0), Hv.
  - assert (purge_session E d d opts w0 = (Throw "ENOTDIR", w0)) as ->; [|by rewrite Hun].
    unfold purge_session. rewrite (bind_Ok _ _ _ _ _ Hl0), bind_existsSync.
    rewrite (lstat_tmp d _ w0 c Htmp0), Hv. cbn [exists_node negb].
    unfold bind. by rewrite (readdirSync_tmp d _ w0 c Htmp0), Hv.
  - assert (purge_session E d d opts w0 = (Throw "ENOTDIR", w0)) as ->; [|by rewrite Hun].
    unfold purge_session. rewrite (bind_Ok _ _ _ _ _ Hl0), bind_existsSync.
    rewrite (lstat_tmp d _ w0 c Htmp0), Hv. cbn [exists_node negb].
    unfold bind. by rewrite (readdirSync_tmp d _ w0 c Htmp0), Hv.
  - assert (purge_session E d d opts w0 = (Ok tt, w0)) as ->; [|by rewrite Hun].
    unfold purge_session. rewrite (bind_Ok _ _ _ _ _ Hl0), bind_existsSync.
    by rewrite (lstat_tmp d _ w0 c Htmp0), Hv.
  - destruct c as [| |top]; try done.
    assert (top !! "vault" = Some (Dir es)) as Htop.
    { cbn in Hv. by destruct (top !! "vault"). }
    rewrite (purge_session_run E d opts w0 config top es (Dir top)); try done.
    2:{ intros x [n Hn].
        assert (lookup_path ["vault"; x] (Dir top) = Some n) as Hx.
        { cbn. rewrite Htop. cbn. by rewrite Hn. }
        apply Hwf in Hx. by apply Forall_cons in Hx as [_ [? _]%Forall_cons]. }
    unfold git_push. destruct (git_push_error E) as [err|].
    + unfold throw, set_repo, set_root, w0, session_world.
      cbn [project tmp repos remote]. subst d.
      rewrite !insert_insert_eq. by rewrite unlink_after.
    + unfold set_repo, set_root, w0, session_world. cbn [project tmp repos remote].
      subst d. rewrite lookup_insert_eq, !insert_insert_eq. by rewrite unlink_after.
  - assert (purge_session E d d opts w0 = (Ok tt, w0)) as ->; [|by rewrite Hun].
    unfold purge_session. rewrite (bind_Ok _ _ _ _ _ Hl0), bind_existsSync.
    by rewrite (lstat_tmp d _ w0 c Htmp0), Hv.
Qed.

Lemma lookup_vault_purged c es :
  lookup_path ["vault"] c = Some (Dir es) →
  lookup_path ["vault"] (git_tree (purged c))
  = Some (Dir {[".gitkeep" := File EmptyString]}).
Proof.
  intros Hv. destruct c as [| |top]; try done.
  rewrite lookup_path_git_tree by done. cbn. rewrite lookup_insert_eq. cbn.
  rewrite omap_singleton_Some with (y := File EmptyString) by done.
  rewrite decide_False; [done|]. apply insert_non_empty.
Qed.

(** X14: when the clone has a content root [vault], [purgeVault] removes
    every entry of it, puts the empty file [.gitkeep] there, commits and
    pushes: the remote then holds a content root with [.gitkeep] alone and,
    outside the content root, the files it held before; the project and the
    temporary directories are as before.  When the push fails its error is
    thrown and the remote is unchanged.  When the clone has no content
    root, [purgeVault] returns without committing or pushing. *)
Theorem purgeVault_empties_the_vault E cwd opts w config c :
  loadConfig E w = (Ok (Some config), w) →
  repoUrl config ≠ EmptyString →
  tmp w !! tempName E = None →
  passive opts →
  initial_clone E w = Some c →
  wf_tree c →
  match lookup_path ["vault"] c with
  | Some (Dir es) =>
      match git_push_error E with
      | None =>
          ∃ t, purgeVault E cwd opts w = (Ok tt, after_session E w (project w) (Some t))
               ∧ lookup_path ["vault"] t = Some (Dir {[".gitkeep" := File EmptyString]})
               ∧ ∀ q e, ¬ ["vault"] `prefix_of` q → leaf_at t q e ↔ leaf_at c q e
      | Some err =>
          purgeVault E cwd opts w = (Throw err, after_session E w (project w) (remote w))
      end
  | None | Some (Link Dangling) =>
      purgeVault E cwd opts w = (Ok tt, after_session E w (project w) (remote w))
  | Some _ =>
      purgeVault E cwd opts w = (Throw "ENOTDIR", after_session E w (project w) (remote w))
  end.
Proof.
  intros Hl Hu Htmp Hpassive Hc Hwf.
  rewrite (purgeVault_run E cwd opts w config c Hl Hu Htmp Hpassive Hc Hwf).
  destruct (lookup_path ["vault"] c) as [[content|[content| |]|es]|] eqn:Hv; try done.
  destruct (git_push_error E) as [err|]; [done|].
  exists (git_tree (purged c)). split_and!; [done|by apply (lookup_vault_purged c es)|].
  intros q e Hq. rewrite leaf_at_git_tree.
  destruct c as [| |top]; try done. cbn [purged].
  destruct q as [|x q].
  { split; by intros ?%leaf_at_Dir_nil. }
  rewrite !leaf_at_cons. rewrite lookup_insert_ne; [done|].
  intros <-. apply Hq. by exists q.
Qed.


(** ** [src/vault.ts]: [syncVault] *)


Lemma sync_push_run E config count vp git w :
  sync_push E (Some config) count vp git w =
    match git_push_error E with
    | None => match repos w !! git with
              | Some head => (Ok count, mkWorld (project w) (tmp w) (repos w) (Some head))
              | None => (Throw "fatal: not a git repository", w)
              end
    | Some err =>
        if isRepoNotFoundError err && isGhAvailable E
        then match createGitHubRepoAndPush E (repoUrl config) vp w with
             | (Ok true, w') => (Ok count, w')
             | (Ok false, w') => (Throw err, w')
             | (Throw e, w') => (Throw e, w')
             end
        else (Throw err, w)
    end.
Proof.
  unfold sync_push, try_catch, git_push, bind, ret, throw.
  destruct (git_push_error E) as [err|].
  - destruct (isRepoNotFoundError err); cbn [negb andb]; [|done].
    destruct (isGhAvailable E); [|done].
    by destruct (createGitHubRepoAndPush E (repoUrl config) vp w) as [[[]|] ?].
  - destruct (repos w !! git) as [head|]; [done|].
    cbn. unfold isRepoNotFoundError. by vm_compute.
Qed.

Lemma createGitHubRepoAndPush_inv E url vp w r w' :
  createGitHubRepoAndPush E url vp w = (r, w') →
  (r = Ok true ∧ gh_repo_create_ok E = true ∧ isGhAvailable E = true
   ∧ ∃ head, repos w !! vp = Some head
             ∧ w' = mkWorld (project w) (tmp w) (repos w) (Some head))
  ∨ (r = Ok false ∧ w' = w).
Proof.
  unfold createGitHubRepoAndPush, ret.
  destruct (parseGitHubRepoUrl url); [|by intros [= <- <-]; right].
  destruct (isGhAvailable E); cbn [negb]; [|by intros [= <- <-]; right].
  destruct (gh_repo_create_ok E); [|by intros [= <- <-]; right].
  destruct (repos w !! vp) as [head|] eqn:Hh; intros [= <- <-]; [|by right].
  left. split_and!; try done. by exists head.
Qed.

(** X16: when the push of [syncVault] fails, the error of git is thrown
    again as it is, with nothing changed, unless it is one of the
    remote-not-found errors and the GitHub CLI then creates the repository
    and pushes; unlike [storeToVault], [syncVault] never replaces the error
    by a hint on how to create the repository. *)
Theorem sync_push_failure_is_rethrown E config count vaultPath git w err r w' :
  git_push_error E = Some err →
  sync_push E (Some config) count vaultPath git w = (r, w') →
  (r = Throw err ∧ w' = w)
  ∨ (r = Ok count
     ∧ isRepoNotFoundError err = true ∧ isGhAvailable E = true
     ∧ gh_repo_create_ok E = true
     ∧ ∃ head, repos w !! vaultPath = Some head
               ∧ w' = mkWorld (project w) (tmp w) (repos w) (Some head)).
Proof.
  intros Herr. rewrite sync_push_run, Herr.
  destruct (isRepoNotFoundError err) eqn:Hnf; cbn [andb]; [|by intros [= <- <-]; left].
  destruct (isGhAvailable E) eqn:Hgh; [|by intros [= <- <-]; left].
  destruct (createGitHubRepoAndPush E (repoUrl config) vaultPath w) as [r0 w0] eqn:Hc.
  apply createGitHubRepoAndPush_inv in Hc as [(-> & Hok & _ & head & Hh & ->)|[-> ->]].
  - intros [= <- <-]. right. split_and!; try done. by exists head.
  - intros [= <- <-]. by left.
Qed.










(** ** [src/vault.ts]: the name of the partition *)






(** ** [src/vault.ts]: pulling some files only *)






(** ** [src/gh.ts]: [createGitHubRepoByName] *)




(** ** What the commands never touch *)

Lemma keeps_ret {A X} (f : World → X) (a : A) : keeps f (ret a).
Proof. by intros w. Qed.

Lemma keeps_throw {A X} (f : World → X) e : keeps f (throw (A:=A) e).
Proof. by intros w. Qed.

Lemma keeps_lift {A X} (f : World → X) (r : result A) : keeps f (lift r).
Proof. by intros w. Qed.

Lemma keeps_bind {A B X} (f : World → X) (m : M A) (k : A → M B) :
  keeps f m → (∀ a, keeps f (k a)) → keeps f (bind m k).
Proof.
  intros Hm Hk w. unfold bind. specialize (Hm w).
  destruct (m w) as [[a|e] w']; cbn [snd] in *; [|done]. by rewrite Hk.
Qed.

Lemma keeps_try_catch {A X} (f : World → X) (m : M A) h :
  keeps f m → (∀ e, keeps f (h e)) → keeps f (try_catch m h).
Proof.
  intros Hm Hh w. unfold try_catch. specialize (Hm w).
  destruct (m w) as [[a|e] w']; cbn [snd] in *; [done|]. by rewrite Hh.
Qed.

Lemma keeps_try_finally {A X} (f : World → X) (m : M A) fin :
  keeps f m → keeps f fin → keeps f (try_finally m fin).
Proof.
  intros Hm Hfin w. unfold try_finally. specialize (Hm w).
  destruct (m w) as [r w']; cbn [snd] in *. specialize (Hfin w').
  destruct (fin w') as [[[]|e] w'']; cbn [snd] in *; congruence.
Qed.

Lemma keeps_for_each {A X} (f : World → X) (l : list A) body :
  (∀ x, keeps f (body x)) → keeps f (for_each l body).
Proof.
  intros Hbody. induction l as [|x l IH]; cbn [for_each].
  - apply keeps_ret.
  - apply keeps_bind; [apply Hbody|done].
Qed.

Lemma keeps_call_opt {X} (f : World → X) opts msg : passive opts → keeps f (call_opt opts msg).
Proof. intros Hp w. by rewrite call_opt_passive. Qed.

Lemma keeps_pure {A X} (f : World → X) (m : M A) :
  (∀ w, (m w).2 = w) → keeps f m.
Proof. intros H w. by rewrite H. Qed.

Lemma keeps_loadConfig {X} (f : World → X) E : keeps f (loadConfig E).
Proof.
  apply keeps_pure. intros w. destruct (loadConfig E w) as [r w'] eqn:H.
  by apply loadConfig_frame in H.
Qed.

Lemma keeps_existsSync {X} (f : World → X) l : keeps f (existsSync l).
Proof. by apply keeps_pure. Qed.

Lemma keeps_readdirSync {X} (f : World → X) l : keeps f (readdirSync l).
Proof. apply keeps_pure. intros w. unfold readdirSync. by repeat case_match. Qed.

Lemma keeps_located {X} (f : World → X) a base rel : keeps f (located a base rel).
Proof. unfold located. destruct (join base rel); [apply keeps_ret|apply keeps_throw]. Qed.

Lemma keeps_collectFiles {X} (f : World → X) E cwd : keeps f (collectFiles E cwd).
Proof.
  apply keeps_pure. intros w. destruct (loadConfig E w) as [[[config|]|e] w'] eqn:Hl;
    apply loadConfig_frame in Hl as Hw; subst w'.
  - by rewrite (collectFiles_run E cwd w config Hl).
  - by rewrite (collectFiles_uninitialized E cwd w Hl).
  - unfold collectFiles. by rewrite (bind_Throw _ _ _ _ _ Hl).
Qed.

(** The updates of a temporary directory and of the repository in it leave
    the project and the remote alone. *)
Ltac keeps_by_cases :=
  intros w; cbv beta delta [update_root mkdirSync_recursive writeFileSync cpSync_force
    rmSync_force rmSync_recursive rmSync_recursive_force git_clone git_init git_add_commit
    git_status_hasChanges mkdtempSync unlink set_root set_repo throw ret];
  cbn [fst snd]; repeat case_match; cbn [fst snd remote project]; congruence.

Lemma keeps_project_update_root d f err : keeps project (update_root (TmpDir d) f err).
Proof. keeps_by_cases. Qed.

Lemma keeps_project_mkdirSync d p : keeps project (mkdirSync_recursive (TmpDir d, p)).
Proof. keeps_by_cases. Qed.

Lemma keeps_project_writeFileSync d p data : keeps project (writeFileSync (TmpDir d, p) data).
Proof. keeps_by_cases. Qed.

Lemma keeps_project_cpSync d src p : keeps project (cpSync_force src (TmpDir d, p)).
Proof. keeps_by_cases. Qed.

Lemma keeps_project_rmSync_force d p : keeps project (rmSync_force (TmpDir d, p)).
Proof. keeps_by_cases. Qed.

Lemma keeps_project_rmSync_recursive d p : keeps project (rmSync_recursive (TmpDir d, p)).
Proof. keeps_by_cases. Qed.

Lemma keeps_project_rmSync_recursive_force d p : keeps project (rmSync_recursive_force (TmpDir d, p)).
Proof. keeps_by_cases. Qed.

Lemma keeps_project_git_clone d  : keeps project (git_clone d).
Proof. keeps_by_cases. Qed.

Lemma keeps_project_git_init d E : keeps project (git_init E d).
Proof. keeps_by_cases. Qed.

Lemma keeps_project_git_add_commit d  : keeps project (git_add_commit d).
Proof. keeps_by_cases. Qed.

Lemma keeps_project_git_status d  : keeps project (git_status_hasChanges d).
Proof. keeps_by_cases. Qed.

Lemma keeps_project_mkdtempSync d E : keeps project (mkdtempSync E d).
Proof. keeps_by_cases. Qed.

Lemma keeps_project_git_push E d : keeps project (git_push E d).
Proof. intros w. unfold git_push, throw. by repeat case_match. Qed.

Lemma keeps_project_createGitHubRepoAndPush E url d :
  keeps project (createGitHubRepoAndPush E url d).
Proof. intros w. unfold createGitHubRepoAndPush, ret. by repeat case_match. Qed.

Lemma keeps_remote_update_root a f err : keeps remote (update_root a f err).
Proof. destruct a; keeps_by_cases. Qed.

Lemma keeps_remote_mkdirSync a p : keeps remote (mkdirSync_recursive (a, p)).
Proof. destruct a; keeps_by_cases. Qed.

Lemma keeps_remote_writeFileSync a p data : keeps remote (writeFileSync (a, p) data).
Proof. destruct a; keeps_by_cases. Qed.

Lemma keeps_remote_cpSync src a p : keeps remote (cpSync_force src (a, p)).
Proof. destruct a; keeps_by_cases. Qed.

Lemma keeps_remote_rmSync_force a p : keeps remote (rmSync_force (a, p)).
Proof. destruct a; keeps_by_cases. Qed.

Lemma keeps_remote_rmSync_recursive a p : keeps remote (rmSync_recursive (a, p)).
Proof. destruct a; keeps_by_cases. Qed.

Lemma keeps_remote_rmSync_recursive_force a p : keeps remote (rmSync_recursive_force (a, p)).
Proof. destruct a; keeps_by_cases. Qed.

Lemma keeps_remote_git_clone d : keeps remote (git_clone d).
Proof. keeps_by_cases. Qed.

Lemma keeps_remote_git_init E d : keeps remote (git_init E d).
Proof. keeps_by_cases. Qed.

Lemma keeps_remote_git_add_commit d : keeps remote (git_add_commit d).
Proof. keeps_by_cases. Qed.

Lemma keeps_remote_git_status d : keeps remote (git_status_hasChanges d).
Proof. keeps_by_cases. Qed.

Lemma keeps_remote_mkdtempSync E d : keeps remote (mkdtempSync E d).
Proof. keeps_by_cases. Qed.

Create HintDb keeps discriminated.
#[local] Hint Resolve keeps_ret keeps_throw keeps_lift keeps_loadConfig keeps_existsSync
  keeps_readdirSync keeps_located keeps_collectFiles keeps_call_opt
  keeps_project_update_root keeps_project_mkdirSync keeps_project_writeFileSync
  keeps_project_cpSync keeps_project_rmSync_force keeps_project_rmSync_recursive
  keeps_project_rmSync_recursive_force keeps_project_git_clone keeps_project_git_init
  keeps_project_git_add_commit keeps_project_git_status keeps_project_mkdtempSync
  keeps_project_git_push keeps_project_createGitHubRepoAndPush keeps_remote_update_root
  keeps_remote_mkdirSync keeps_remote_writeFileSync keeps_remote_cpSync
  keeps_remote_rmSync_force keeps_remote_rmSync_recursive keeps_remote_rmSync_recursive_force
  keeps_remote_git_clone keeps_remote_git_init keeps_remote_git_add_commit
  keeps_remote_git_status keeps_remote_mkdtempSync : keeps.

Lemma keeps_bind_located {B X} (f : World → X) a base rel (k : abspath → M B) :
  (∀ p, keeps f (k (a, p))) → keeps f (bind (located a base rel) k).
Proof.
  intros Hk w. unfold bind, located. destruct (join base rel) as [p|]; [|done].
  apply Hk.
Qed.

(** Takes a computation apart along its binds, handlers, loops and tests,
    and closes the leaves with the lemmas about the primitives. *)
Ltac keeps_auto :=
  repeat first
    [ solve [auto with keeps]
    | apply keeps_bind_located; intros ?; cbn [fst snd]
    | apply keeps_bind; [|intros ?]
    | apply keeps_try_catch; [|intros ?]
    | apply keeps_try_finally
    | apply keeps_for_each; intros ?
    | match goal with
      | |- keeps _ (if ?b then _ else _) => destruct b
      | |- keeps _ (match ?x with _ => _ end) => destruct x
      end ].

Lemma keeps_withTempVault {T X} (f : World → X) E cwd
    (fn : string → string → OnPhase → M T) opts :
  passive opts →
  (∀ d, keeps f (git_clone d)) → (∀ d, keeps f (git_init E d)) →
  (∀ d, keeps f (git_add_commit d)) → (∀ d, keeps f (mkdtempSync E d)) →
  (∀ d p, keeps f (mkdirSync_recursive (TmpDir d, p))) →
  (∀ d p data, keeps f (writeFileSync (TmpDir d, p) data)) →
  (∀ d p, keeps f (rmSync_recursive_force (TmpDir d, p))) →
  (∀ d, keeps f (fn d d opts)) →
  keeps f (withTempVault E cwd fn opts).
Proof.
  intros Hp ? ? ? ? ? ? ? Hfn. unfold withTempVault, createTempVaultRepo, ensureGhGitAuth.
  keeps_auto.
Qed.

Lemma keeps_project_withTempVault {T} E cwd (fn : string → string → OnPhase → M T) opts :
  passive opts → (∀ d, keeps project (fn d d opts)) →
  keeps project (withTempVault E cwd fn opts).
Proof. intros. apply keeps_withTempVault; auto with keeps. Qed.

Lemma keeps_remote_withTempVault {T} E cwd (fn : string → string → OnPhase → M T) opts :
  passive opts → (∀ d, keeps remote (fn d d opts)) →
  keeps remote (withTempVault E cwd fn opts).
Proof. intros. apply keeps_withTempVault; auto with keeps. Qed.

Lemma keeps_project_store_session E cwd files d opts :
  passive opts → keeps project (store_session E cwd files d d opts).
Proof.
  intros Hp. unfold store_session, copyToVault, copy_one, removeExcludedFromVault,
    removeEmptyDirs, push_or_create. cbn [fst snd].
  keeps_auto.
Qed.

Lemma keeps_project_purge_session E d opts :
  passive opts → keeps project (purge_session E d d opts).
Proof. intros Hp. unfold purge_session. keeps_auto. Qed.

Lemma keeps_listVaultFiles {X} (f : World → X) d : keeps f (listVaultFiles d).
Proof. unfold listVaultFiles. keeps_auto. Qed.

Lemma keeps_remote_copyFromVault d cwd sp : keeps remote (copyFromVault d cwd sp).
Proof.
  unfold copyFromVault. keeps_auto.
  intros w. rewrite walk_copy_run. by destruct (pull_leaves _ _ _ _ _ _).
Qed.

Lemma keeps_remote_saveConfig config : keeps remote (saveConfig config).
Proof. unfold saveConfig, getConfigPath. keeps_auto. Qed.

(** X22: [storeToVault], [purgeVault] and [listVaultFilesRemote] never change
    a file of the project: whatever they return or throw, and whatever the
    state of the remote and of the temporary directory, the project tree
    after the call is the project tree before it.  The observer of the
    phases is one that only reports. *)
Theorem store_purge_and_list_keep_the_project E cwd opts :
  passive opts →
  keeps project (storeToVault E cwd opts)
  ∧ keeps project (purgeVault E cwd opts)
  ∧ keeps project (listVaultFilesRemote E cwd opts).
Proof.
  intros Hp. split_and!.
  - unfold storeToVault. apply keeps_bind; [auto with keeps|intros files].
    apply keeps_project_withTempVault; [done|]. intros d.
    by apply keeps_project_store_session.
  - apply keeps_project_withTempVault; [done|]. intros d.
    by apply keeps_project_purge_session.
  - apply keeps_project_withTempVault; [done|]. intros d. apply keeps_listVaultFiles.
Qed.

(** X23: [pullFromVault], [listVaultFilesRemote] and [runReinit], and the
    functions that edit the configuration, never change the remote
    repository: whatever they return or throw, the remote after the call
    is the remote before it.  The observer of the phases is one that only
    reports. *)
Theorem pull_list_and_reinit_keep_the_remote E cwd opts :
  passive opts →
  (∀ specificPaths, keeps remote (pullFromVault E cwd specificPaths opts))
  ∧ keeps remote (listVaultFilesRemote E cwd opts)
  ∧ keeps remote (runReinit E cwd opts)
  ∧ (∀ path, keeps remote (addToExclude E path))
  ∧ (∀ path, keeps remote (ensurePathIncluded E path)).
Proof.
  intros Hp. split_and!.
  - intros sp. apply keeps_remote_withTempVault; [done|]. intros d.
    apply keeps_bind; [auto with keeps|intros _]. apply keeps_remote_copyFromVault.
  - apply keeps_remote_withTempVault; [done|]. intros d. apply keeps_listVaultFiles.
  - unfold runReinit. apply keeps_bind; [auto with keeps|intros [config|]]; [|auto with keeps].
    destruct (String.eqb _ _); [auto with keeps|].
    apply keeps_bind; [unfold clearVault; keeps_auto|intros _].
    apply keeps_remote_withTempVault; [done|]. intros d. auto with keeps.
  - intros path. unfold addToExclude. pose proof keeps_remote_saveConfig. keeps_auto.
  - intros path. unfold ensurePathIncluded. pose proof keeps_remote_saveConfig. keeps_auto.
Qed.

Lemma parseGitHubRepoUrl_round_trip_witness :
  parseGitHubRepoUrl "  git@github.com:alice/my.vault.git/ " = Some "alice/my.vault".
Proof.
  apply (parseGitHubRepoUrl_round_trip _ "git@github.com:" "a" "lice" "my.vault" ".git/");
    [by repeat constructor|by repeat constructor|reflexivity|reflexivity|discriminate
    |reflexivity|reflexivity|reflexivity].
Defined.

Lemma parseGitHubRepoUrl_owner_and_name_witness :
  ∃ owner name,
    "alice/vault" = owner +:+ "/" +:+ name
    ∧ Str.split "/" "alice/vault" = [owner; name]
    ∧ owner ≠ EmptyString
    ∧ all_chars is_owner_char owner = true
    ∧ all_chars is_repo_char name = true
    ∧ create_hint (Some "alice/vault")
      = "Create the repo at https://github.com/new?name=" +:+ name
        +:+ " (private), then run agvault store again.".
Proof. apply (parseGitHubRepoUrl_owner_and_name alice_vault). reflexivity. Defined.

Lemma parseGitHubRepoUrl_other_host_witness :
  parseGitHubRepoUrl "https://gitlab.com/alice/vault.git" = None.
Proof. apply parseGitHubRepoUrl_other_host. reflexivity. Defined.

(** ** Instances of the further properties *)

Lemma reads_back_editing config saved : reads_back (editing_env config saved) saved.
Proof.
  unfold reads_back, editing_env. cbn [JSON_parse parse_table].
  destruct (String.eqb_spec (Json.stringify saved) "cfg") as [He|_].
  - exfalso. revert He. unfold Json.stringify. by rewrite string_app_cons.
  - by rewrite String.eqb_refl.
Qed.

Lemma saveConfig_then_loadConfig_witness :
  ∃ w', saveConfig alice_config empty_world = (Ok tt, w')
        ∧ loadConfig (editing_env alice_config alice_config) w' = (Ok (Some alice_config), w')
        ∧ lstat (Cwd, ["README.md"]) w' = None.
Proof.
  destruct (saveConfig_then_loadConfig (editing_env alice_config alice_config)
              alice_config empty_world)
    as (w' & Hsave & Hload & _ & _ & _ & _ & Hframe).
  - vm_compute. reflexivity.
  - apply reads_back_editing.
  - exists w'. split; [exact Hsave|]. split; [exact Hload|].
    rewrite Hframe; [reflexivity| |]; intros [k Hk]; destruct k; discriminate Hk.
Defined.

Lemma uninitialized_project_is_refused_witness :
  storeToVault readme_env "/home/alice/proj" None empty_world
  = (Throw not_initialized, empty_world).
Proof.
  apply (uninitialized_project_is_refused readme_env "/home/alice/proj" empty_world).
  vm_compute. reflexivity.
Defined.

Lemma addToExclude_appends_once_witness :
  let E := editing_env open_config (excluding open_config "notes.md") in
  ∃ w', addToExclude E "notes.md" fresh_notes_world = (Ok tt, w')
        ∧ loadConfig E w' = (Ok (Some (mkConfig alice_vault ["*.md"] ["notes.md"] "main")), w')
        ∧ addToExclude E "notes.md" w' = (Ok tt, w').
Proof.
  intros E.
  destruct (addToExclude_appends_once E "notes.md" fresh_notes_world open_config)
    as [_ Hnew].
  - vm_compute. reflexivity.
  - discriminate.
  - destruct Hnew as (w' & Hadd & Hload & _ & Hagain & _).
    + vm_compute. intros H. inversion H.
    + apply reads_back_editing.
    + exists w'. split; [exact Hadd|]. split; [exact Hload|exact Hagain].
Defined.


Lemma ensurePathIncluded_includes_witness :
  let E := editing_env notes_config (including notes_config "notes.md") in
  ∃ w' config',
    ensurePathIncluded E "notes.md" fresh_notes_world = (Ok tt, w')
    ∧ loadConfig E w' = (Ok (Some config'), w')
    ∧ "notes.md" ∈ include config'
    ∧ "notes.md" ∉ exclude config'.
Proof.
  intros E.
  destruct (ensurePathIncluded_includes E "notes.md" fresh_notes_world notes_config)
    as (w' & config' & Hrun & Hload & Hin & Hout & _).
  - vm_compute. reflexivity.
  - discriminate.
  - apply reads_back_editing.
  - exists w', config'. split; [exact Hrun|]. split; [exact Hload|].
    split; [exact Hin|exact Hout].
Defined.


Lemma runReinit_does_not_need_the_remote_witness :
  ∃ w', runReinit readme_env "/home/alice/proj" None (readme_world None) = (Ok tt, w')
        ∧ remote w' = None.
Proof.
  destruct (runReinit_does_not_need_the_remote readme_env "/home/alice/proj" None
              (readme_world None) alice_config bootstrap_tree)
    as (w' & Hrun & Hremote & _).
  - vm_compute. reflexivity.
  - discriminate.
  - vm_compute. reflexivity.
  - exact passive_None.
  - reflexivity.
  - exists w'. split; [exact Hrun|exact Hremote].
Defined.

Lemma purgeVault_empties_the_vault_witness :
  ∃ t, purgeVault notes_env "/home/alice/proj" None notes_world
       = (Ok tt, after_session notes_env notes_world notes_project (Some t))
       ∧ lookup_path ["vault"] t = Some (Dir {[".gitkeep" := File EmptyString]}).
Proof.
  pose proof (purgeVault_empties_the_vault notes_env "/home/alice/proj" None notes_world
                notes_config notes_vault) as H.
  destruct H as (t & Hrun & Hvault & _).
  - vm_compute. reflexivity.
  - discriminate.
  - vm_compute. reflexivity.
  - exact passive_None.
  - reflexivity.
  - apply names_ok_wf. vm_compute. reflexivity.
  - exists t. split; [exact Hrun|exact Hvault].
Defined.


Lemma sync_push_failure_is_rethrown_witness :
  sync_push offline_env (Some alice_config) 1 "agvault-Xy12Zw" "agvault-Xy12Zw"
            (readme_world None)
  = (Throw "remote: Repository not found.", readme_world None).
Proof.
  destruct (sync_push_failure_is_rethrown offline_env alice_config 1
              "agvault-Xy12Zw" "agvault-Xy12Zw" (readme_world None)
              "remote: Repository not found."
              (sync_push offline_env (Some alice_config) 1 "agvault-Xy12Zw" "agvault-Xy12Zw"
                         (readme_world None)).1
              (sync_push offline_env (Some alice_config) 1 "agvault-Xy12Zw" "agvault-Xy12Zw"
                         (readme_world None)).2)
    as [[Hr Hw]|(_ & _ & Hgh & _)].
  - reflexivity.
  - apply surjective_pairing.
  - rewrite (surjective_pairing (sync_push _ _ _ _ _ _)). by rewrite Hr, Hw.
  - discriminate Hgh.
Defined.




Lemma store_purge_and_list_keep_the_project_witness :
  project (storeToVault notes_env "/home/alice/proj" None (mkWorld bare_project ∅ ∅ (Some notes_vault))).2 = bare_project
  ∧ project (purgeVault notes_env "/home/alice/proj" None (mkWorld bare_project ∅ ∅ (Some notes_vault))).2 = bare_project
  ∧ project (listVaultFilesRemote notes_env "/home/alice/proj" None (mkWorld bare_project ∅ ∅ (Some notes_vault))).2 = bare_project.
Proof.
  destruct (store_purge_and_list_keep_the_project notes_env "/home/alice/proj" None)
    as (Hstore & Hpurge & Hlist).
  - exact passive_None.
  - split_and!; [apply Hstore|apply Hpurge|apply Hlist].
Defined.

Lemma pull_list_and_reinit_keep_the_remote_witness :
  remote (pullFromVault notes_env "/home/alice/proj" None None (mkWorld bare_project ∅ ∅ (Some notes_vault))).2 = Some notes_vault
  ∧ remote (listVaultFilesRemote notes_env "/home/alice/proj" None (mkWorld bare_project ∅ ∅ (Some notes_vault))).2 = Some notes_vault
  ∧ remote (runReinit notes_env "/home/alice/proj" None (mkWorld bare_project ∅ ∅ (Some notes_vault))).2 = Some notes_vault
  ∧ remote (addToExclude notes_env "notes.md" (mkWorld bare_project ∅ ∅ (Some notes_vault))).2 = Some notes_vault
  ∧ remote (ensurePathIncluded notes_env "notes.md" (mkWorld bare_project ∅ ∅ (Some notes_vault))).2 = Some notes_vault.
Proof.
  destruct (pull_list_and_reinit_keep_the_remote notes_env "/home/alice/proj" None)
    as (Hpull & Hlist & Hreinit & Hexclude & Hinclude).
  - exact passive_None.
  - split_and!; [apply (Hpull None)|apply Hlist|apply Hreinit
                |apply (Hexclude "notes.md")|apply (Hinclude "notes.md")].
Defined.

